(** * Multiplayer Tetris front end (src/src/App.tsx): model and properties

    The React component [App] is embedded as a record of its state hooks and
    one function per event handler.  A handler reads the state of the render
    that created it and queues updates; it is modelled as a function from the
    state before the event to the state after it together with the frames it
    sent on the WebSocket, every event being handled by the callbacks of the
    latest render.  Grids are dense arrays of JavaScript numbers
    ([number[][]]), modelled as lists of lists of integers.  The two places
    that write into arrays other than a copy made on the spot, the rotation
    and renderBoard, are modelled a second time with the arrays as objects
    in a store, and shown to compute what the functions on lists compute. *)

From Stdlib Require Import ZArith Lia.
From stdpp Require Import base list strings numbers.

Local Open Scope Z_scope.

(** ** Outcome of running a piece of JavaScript *)

(** [Ok a]: the code ran to its end with value [a].
    [TypeError]: a property was read or written on [undefined].
    [NotNumberGrid]: JavaScript goes on, but with an array that holds a hole
    or an [undefined] cell; such a value is no [number[][]] any more and the
    model does not follow it.
    [OutOfFuel]: the iteration budget of a loop of the model was used up. *)
Inductive result (A : Type) : Type :=
| Ok (a : A)
| TypeError
| NotNumberGrid
| OutOfFuel.
Arguments Ok {A} a.
Arguments TypeError {A}.
Arguments NotNumberGrid {A}.
Arguments OutOfFuel {A}.

#[global] Instance result_ret : MRet result := fun A a => Ok a.
#[global] Instance result_bind : MBind result := fun A B f m =>
  match m with
  | Ok a => f a
  | TypeError => TypeError
  | NotNumberGrid => NotNumberGrid
  | OutOfFuel => OutOfFuel
  end.

(** ** Data model *)

(** [type TetrominoShape = number[][]]; the board has the same type. *)
Abbreviation Grid := (list (list Z)).
Abbreviation TetrominoShape := (list (list Z)).

Definition BOARD_WIDTH : Z := 10.
Definition BOARD_HEIGHT : Z := 20.

(** The keys of the object [TETROMINOS], in insertion order. *)
Module Tetromino.
Inductive name : Set := I | O | T | S | Z | J | L.
End Tetromino.

Definition TETROMINOS (k : Tetromino.name) : TetrominoShape :=
  match k with
  | Tetromino.I => [[1; 1; 1; 1]]
  | Tetromino.O => [[1; 1]; [1; 1]]
  | Tetromino.T => [[0; 1; 0]; [1; 1; 1]]
  | Tetromino.S => [[0; 1; 1]; [1; 1; 0]]
  | Tetromino.Z => [[1; 1; 0]; [0; 1; 1]]
  | Tetromino.J => [[1; 0; 0]; [1; 1; 1]]
  | Tetromino.L => [[0; 0; 1]; [1; 1; 1]]
  end.

Definition all_names : list Tetromino.name :=
  [Tetromino.I; Tetromino.O; Tetromino.T; Tetromino.S; Tetromino.Z;
   Tetromino.J; Tetromino.L].

(** [Object.values(TETROMINOS)] *)
Definition pieces : list TetrominoShape := TETROMINOS <$> all_names.

(** [getRandomPiece]: [pieces[Math.floor(Math.random() * pieces.length)]].
    The draw of [Math.random] is an input of the model, given as the key of
    the entry it selects. *)
Definition getRandomPiece (rnd : Tetromino.name) : TetrominoShape :=
  TETROMINOS rnd.

(** A JavaScript number used as a condition: [0] is falsy. *)
Definition truthy (n : Z) : bool := negb (n =? 0).

(** [a[i]] on a dense array for an integer [i]: [None] is [undefined]. *)
Definition js_get {A : Type} (a : list A) (i : Z) : option A :=
  if i <? 0 then None else a !! Z.to_nat i.

(** [a[i] = v] on a dense array of numbers.  Below the length the cell is
    replaced, at the length the array grows by one cell, beyond it the array
    would get holes.  A negative [i] sets a property that is no element of
    the array: no cell changes, and nothing in this program reads it back
    (every read is guarded by [>= 0], copies and [every] skip it). *)
Definition js_set (a : list Z) (i : Z) (v : Z) : result (list Z) :=
  if i <? 0 then Ok a
  else if i <? Z.of_nat (length a) then Ok (<[Z.to_nat i := v]> a)
  else if i =? Z.of_nat (length a) then Ok (a ++ [v])
  else NotNumberGrid.

(** [g[y][x]] as a condition.  [g[y]] undefined makes the read throw;
    [g[y][x]] undefined is falsy. *)
Definition cellTruthy (g : Grid) (y x : Z) : result bool :=
  match js_get g y with
  | None => TypeError
  | Some r => Ok (from_option truthy false (js_get r x))
  end.

(** [g[y][x] = v] *)
Definition setCell (g : Grid) (y x : Z) (v : Z) : result Grid :=
  match js_get g y with
  | None => TypeError
  | Some r => r' ← js_set r x v; Ok (<[Z.to_nat y := r']> g)
  end.

(** ** canMove (App.tsx, lines 53-73)

    The board is the [board] of the render whose closure is running; it is
    an explicit argument here.  [Ok false] is an early [return false],
    [Ok true] in the loops means that the loop ran through. *)

(** The inner loop over [col], from [col] on, for the cells left in the row. *)
Fixpoint canMove_cols (board : Grid) (x y row : Z) (cells : list Z) (col : Z)
  : result bool :=
  match cells with
  | [] => Ok true
  | c :: cells' =>
      if truthy c then
        let newX := x + col in
        let newY := y + row in
        if (newX <? 0) || (newX >=? BOARD_WIDTH) || (newY >=? BOARD_HEIGHT)
        then Ok false
        else
          hit ← (if newY >=? 0 then cellTruthy board newY newX else Ok false);
          if (hit : bool) then Ok false
          else canMove_cols board x y row cells' (col + 1)
      else canMove_cols board x y row cells' (col + 1)
  end.

(** The outer loop over [row]. *)
Fixpoint canMove_rows (board : Grid) (x y : Z) (rows : TetrominoShape) (row : Z)
  : result bool :=
  match rows with
  | [] => Ok true
  | r :: rows' =>
      through ← canMove_cols board x y row r 0;
      if (through : bool) then canMove_rows board x y rows' (row + 1)
      else Ok false
  end.

Definition canMove (board : Grid) (piece : TetrominoShape) (x y : Z)
  : result bool :=
  canMove_rows board x y piece 0.

(** ** placePiece, first part (lines 79-92): the piece is written into a copy

    [board.map(row => [...row])] copies every row; on lists the copy is the
    list itself.  Every occupied cell of the piece whose board row is not
    negative is set to [1]. *)

Module Position.
Record t : Set := mk { x : Z; y : Z }.
End Position.

Fixpoint place_cols (newBoard : Grid) (pos : Position.t) (row : Z)
    (cells : list Z) (col : Z) : result Grid :=
  match cells with
  | [] => Ok newBoard
  | c :: cells' =>
      if truthy c then
        let y := Position.y pos + row in
        let x := Position.x pos + col in
        newBoard' ← (if y >=? 0 then setCell newBoard y x 1 else Ok newBoard);
        place_cols newBoard' pos row cells' (col + 1)
      else place_cols newBoard pos row cells' (col + 1)
  end.

Fixpoint place_rows (newBoard : Grid) (pos : Position.t)
    (rows : TetrominoShape) (row : Z) : result Grid :=
  match rows with
  | [] => Ok newBoard
  | r :: rows' =>
      newBoard' ← place_cols newBoard pos row r 0;
      place_rows newBoard' pos rows' (row + 1)
  end.

Definition place (board : Grid) (piece : TetrominoShape) (pos : Position.t)
  : result Grid :=
  place_rows board pos piece 0.

(** ** placePiece, second part (lines 95-103): completed lines

    [newBoard[row].every(cell => cell === 1)] *)
Definition rowComplete (r : list Z) : bool := forallb (fun cell => cell =? 1) r.

(** [Array(BOARD_WIDTH).fill(0)] *)
Definition emptyRow : list Z := replicate (Z.to_nat BOARD_WIDTH) 0.

(** The loop [for (let row = BOARD_HEIGHT - 1; row >= 0; row--)], one
    iteration per unit of fuel.  A completed line is removed with [splice],
    an empty line is put on top with [unshift], and [row++] before the
    [row--] of the loop makes the next iteration look at the same index. *)
Fixpoint clearLoop (fuel : nat) (newBoard : Grid) (row : Z) (linesCleared : Z)
  : result (Grid * Z) :=
  match fuel with
  | O => OutOfFuel
  | S fuel' =>
      if row >=? 0 then
        match js_get newBoard row with
        | None => TypeError
        | Some r =>
            if rowComplete r then
              let spliced := delete (Z.to_nat row) newBoard in
              let unshifted := emptyRow :: spliced in
              clearLoop fuel' unshifted (row + 1 - 1) (linesCleared + 1)
            else clearLoop fuel' newBoard (row - 1) linesCleared
        end
      else Ok (newBoard, linesCleared)
  end.

(** Every iteration either moves [row] down or removes a completed line, so
    twice the height and one more test of the loop condition are enough
    (lemma [clearFullRows_result] below). *)
Definition clearFuel : nat := S (2 * Z.to_nat BOARD_HEIGHT).

Definition clearFullRows (newBoard : Grid) : result (Grid * Z) :=
  clearLoop clearFuel newBoard (BOARD_HEIGHT - 1) 0.

(** ** The state of the component *)

(** Frames sent with [ws.current.send(JSON.stringify(...))]. *)
Inductive OutMsg : Type :=
| game_over (score : Z)
| game_state (board : Grid) (score : Z).

(** Frames handled by [ws.current.onmessage], with the payload the
    protocol gives them; [other_type] is a frame of any other type. *)
Inductive InMsg : Type :=
| player_id (id : string)
| player_joined (id : string)
| opponent_state (board : Grid) (score : Z)
| player_game_over (score : Z)
| other_type (type : string).

Record State : Type := mkState {
  board : Grid;
  currentPiece : option TetrominoShape;       (* [null] is [None] *)
  piecePosition : Position.t;
  score : Z;                     (* a double in the code, see [exactScores] *)
  gameOver : bool;
  gameStarted : bool;
  roomId : string;
  playerId : string;
  connected : bool;
  opponentBoard : Grid;
  ws_current : bool                           (* [ws.current] is not [null] *)
}.

(** [Array(BOARD_HEIGHT).fill(null).map(() => Array(BOARD_WIDTH).fill(0))] *)
Definition emptyBoard : Grid := replicate (Z.to_nat BOARD_HEIGHT) emptyRow.

(** The initial values of the hooks (lines 26-44). *)
Definition initialState : State :=
  {| board := emptyBoard; currentPiece := None;
     piecePosition := Position.mk 0 0; score := 0;
     gameOver := false; gameStarted := false;
     roomId := ""; playerId := ""; connected := false;
     opponentBoard := emptyBoard; ws_current := false |}.

Definition setBoard (v : Grid) (st : State) : State :=
  mkState v (currentPiece st) (piecePosition st) (score st) (gameOver st)
    (gameStarted st) (roomId st) (playerId st) (connected st)
    (opponentBoard st) (ws_current st).
Definition setCurrentPiece (v : option TetrominoShape) (st : State) : State :=
  mkState (board st) v (piecePosition st) (score st) (gameOver st)
    (gameStarted st) (roomId st) (playerId st) (connected st)
    (opponentBoard st) (ws_current st).
Definition setPiecePosition (v : Position.t) (st : State) : State :=
  mkState (board st) (currentPiece st) v (score st) (gameOver st)
    (gameStarted st) (roomId st) (playerId st) (connected st)
    (opponentBoard st) (ws_current st).
Definition setScore (v : Z) (st : State) : State :=
  mkState (board st) (currentPiece st) (piecePosition st) v (gameOver st)
    (gameStarted st) (roomId st) (playerId st) (connected st)
    (opponentBoard st) (ws_current st).
Definition setGameOver (v : bool) (st : State) : State :=
  mkState (board st) (currentPiece st) (piecePosition st) (score st) v
    (gameStarted st) (roomId st) (playerId st) (connected st)
    (opponentBoard st) (ws_current st).
Definition setGameStarted (v : bool) (st : State) : State :=
  mkState (board st) (currentPiece st) (piecePosition st) (score st)
    (gameOver st) v (roomId st) (playerId st) (connected st)
    (opponentBoard st) (ws_current st).
Definition setRoomId (v : string) (st : State) : State :=
  mkState (board st) (currentPiece st) (piecePosition st) (score st)
    (gameOver st) (gameStarted st) v (playerId st) (connected st)
    (opponentBoard st) (ws_current st).
Definition setPlayerId (v : string) (st : State) : State :=
  mkState (board st) (currentPiece st) (piecePosition st) (score st)
    (gameOver st) (gameStarted st) (roomId st) v (connected st)
    (opponentBoard st) (ws_current st).
Definition setConnected (v : bool) (st : State) : State :=
  mkState (board st) (currentPiece st) (piecePosition st) (score st)
    (gameOver st) (gameStarted st) (roomId st) (playerId st) v
    (opponentBoard st) (ws_current st).
Definition setOpponentBoard (v : Grid) (st : State) : State :=
  mkState (board st) (currentPiece st) (piecePosition st) (score st)
    (gameOver st) (gameStarted st) (roomId st) (playerId st) (connected st)
    v (ws_current st).
Definition set_ws_current (v : bool) (st : State) : State :=
  mkState (board st) (currentPiece st) (piecePosition st) (score st)
    (gameOver st) (gameStarted st) (roomId st) (playerId st) (connected st)
    (opponentBoard st) v.

(** ** placePiece (lines 76-139) *)

(** [piece[0].length]; reading [length] of [undefined] throws. *)
Definition firstRowLength (piece : TetrominoShape) : result Z :=
  match piece !! 0%nat with
  | None => TypeError
  | Some r => Ok (Z.of_nat (length r))
  end.

(** [Math.floor(BOARD_WIDTH / 2) - Math.floor(len / 2)] *)
Definition startColumn (len : Z) : Z := BOARD_WIDTH / 2 - len / 2.

(** [if (ws.current && connected) ws.current.send(JSON.stringify(m))] *)
Definition sendIfConnected (st : State) (m : OutMsg) : list OutMsg :=
  if ws_current st && connected st then [m] else [].

(** The callback reads [currentPiece], [piecePosition], [board], [score] and
    [connected] of the render that created it, here [st].  [canMove] is the
    function of that same render, so it tests against [board st], and the
    frames carry [score st]; [setScore] gets an updater and so adds to the
    pending score. *)
Definition placePiece (rnd : Tetromino.name) (st : State)
  : result (State * list OutMsg) :=
  match currentPiece st with
  | None => Ok (st, [])
  | Some piece =>
      placed ← place (board st) piece (piecePosition st);
      '(newBoard, linesCleared) ← clearFullRows placed;
      let st1 :=
        if linesCleared >? 0 then setScore (score st + linesCleared * 100) st
        else st in
      let st2 := setBoard newBoard st1 in
      let newPiece := getRandomPiece rnd in
      len ← firstRowLength newPiece;
      let startX := startColumn len in
      spawn ← canMove (board st) newPiece startX 0;
      if negb spawn then
        Ok (setGameOver true st2, sendIfConnected st (game_over (score st)))
      else
        let st3 := setCurrentPiece (Some newPiece) st2 in
        let st4 := setPiecePosition (Position.mk startX 0) st3 in
        Ok (st4, sendIfConnected st (game_state newBoard (score st)))
  end.

(** ** moveDown (lines 142-153) *)
Definition moveDown (rnd : Tetromino.name) (st : State)
  : result (State * list OutMsg) :=
  match currentPiece st with
  | None => Ok (st, [])
  | Some piece =>
      if gameOver st then Ok (st, [])
      else
        let pos := piecePosition st in
        let newY := Position.y pos + 1 in
        free ← canMove (board st) piece (Position.x pos) newY;
        if (free : bool) then
          Ok (setPiecePosition (Position.mk (Position.x pos) newY) st, [])
        else placePiece rnd st
  end.

(** ** The rotation of handleKeyPress (lines 178-180)

    [currentPiece.map(row => row[i])]: a row without index [i] gives an
    [undefined] cell. *)
Definition column (piece : TetrominoShape) (i : nat) : result (list Z) :=
  mapM (fun row : list Z =>
          match row !! i with Some c => Ok c | None => NotNumberGrid end) piece.

(** [currentPiece[0].map((_, i) => currentPiece.map(row => row[i]).reverse())] *)
Definition rotateClockwise (piece : TetrominoShape) : result TetrominoShape :=
  match piece !! 0%nat with
  | None => TypeError
  | Some first =>
      mapM (fun i => col ← column piece i; Ok (reverse col))
           (seq 0 (length first))
  end.

(** ** handleKeyPress (lines 156-186) *)
Inductive Key : Set := ArrowLeft | ArrowRight | ArrowDown | ArrowUp | OtherKey.

Definition handleKeyPress (key : Key) (rnd : Tetromino.name) (st : State)
  : result (State * list OutMsg) :=
  match currentPiece st with
  | None => Ok (st, [])
  | Some piece =>
      if gameOver st then Ok (st, [])
      else
        let pos := piecePosition st in
        match key with
        | ArrowLeft =>
            free ← canMove (board st) piece (Position.x pos - 1) (Position.y pos);
            if (free : bool) then
              Ok (setPiecePosition
                    (Position.mk (Position.x pos - 1) (Position.y pos)) st, [])
            else Ok (st, [])
        | ArrowRight =>
            free ← canMove (board st) piece (Position.x pos + 1) (Position.y pos);
            if (free : bool) then
              Ok (setPiecePosition
                    (Position.mk (Position.x pos + 1) (Position.y pos)) st, [])
            else Ok (st, [])
        | ArrowDown => moveDown rnd st
        | ArrowUp =>
            rotated ← rotateClockwise piece;
            free ← canMove (board st) rotated (Position.x pos) (Position.y pos);
            if (free : bool) then Ok (setCurrentPiece (Some rotated) st, [])
            else Ok (st, [])
        | OtherKey => Ok (st, [])
        end
  end.

(** ** The game loop (lines 195-203): the interval exists only while the
    game is started and not over, and calls [moveDown]. *)
Definition tick (rnd : Tetromino.name) (st : State)
  : result (State * list OutMsg) :=
  if negb (gameStarted st) || gameOver st then Ok (st, [])
  else moveDown rnd st.

(** ** The WebSocket (lines 206-260) *)

(** [connectWebSocket] stores the new socket in [ws.current]; its three
    handlers are [onopen], [onmessage] and [onclose] below. *)
Definition connectWebSocket (roomId : string) (st : State) : State :=
  set_ws_current true st.

Definition joinRoom (roomIdInput : string) (st : State) : State :=
  connectWebSocket roomIdInput (setRoomId roomIdInput st).

(** [createRoom] once the request is over: [data] is the room the server
    answered with, [None] when the request failed and only the error was
    logged. *)
Definition createRoom (data : option string) (st : State) : State :=
  match data with
  | Some newRoomId => connectWebSocket newRoomId (setRoomId newRoomId st)
  | None => st
  end.

Definition onopen (st : State) : State := setConnected true st.
Definition onclose (st : State) : State := setConnected false st.

Definition onmessage (message : InMsg) (st : State) : State :=
  match message with
  | player_id id => setPlayerId id st
  | player_joined _ => st
  | opponent_state b _ => setOpponentBoard b st
  | player_game_over _ => st
  | other_type _ => st
  end.

(** ** startGame (lines 263-278) *)
Definition startGame (rnd : Tetromino.name) (st : State) : result State :=
  let st1 := setBoard emptyBoard st in
  let st2 := setScore 0 st1 in
  let st3 := setGameOver false st2 in
  let firstPiece := getRandomPiece rnd in
  let st4 := setCurrentPiece (Some firstPiece) st3 in
  len ← firstRowLength firstPiece;
  let st5 := setPiecePosition (Position.mk (startColumn len) 0) st4 in
  Ok (setGameStarted true st5).

(** ** renderBoard (lines 281-297): the grid [displayBoard] that is painted *)
Fixpoint render_cols (displayBoard : Grid) (pos : Position.t) (row : Z)
    (cells : list Z) (col : Z) : result Grid :=
  match cells with
  | [] => Ok displayBoard
  | c :: cells' =>
      if truthy c then
        let y := Position.y pos + row in
        let x := Position.x pos + col in
        displayBoard' ←
          (if (y >=? 0) && (y <? BOARD_HEIGHT) && (x >=? 0) && (x <? BOARD_WIDTH)
           then setCell displayBoard y x 2 else Ok displayBoard);
        render_cols displayBoard' pos row cells' (col + 1)
      else render_cols displayBoard pos row cells' (col + 1)
  end.

Fixpoint render_rows (displayBoard : Grid) (pos : Position.t)
    (rows : TetrominoShape) (row : Z) : result Grid :=
  match rows with
  | [] => Ok displayBoard
  | r :: rows' =>
      displayBoard' ← render_cols displayBoard pos row r 0;
      render_rows displayBoard' pos rows' (row + 1)
  end.

Definition renderBoard (st : State) (boardData : Grid) (isOpponent : bool)
  : result Grid :=
  let displayBoard := boardData in
  match currentPiece st with
  | Some piece =>
      if negb isOpponent then render_rows displayBoard (piecePosition st) piece 0
      else Ok displayBoard
  | None => Ok displayBoard
  end.

(** What the component returns (lines 315-364), as far as the state decides
    it: the lobby while not connected, the start button while the game is
    not started, and otherwise the score, the own board painted with the
    falling piece, the game-over banner and the opponent's board. *)
Inductive View : Type :=
| Lobby
| StartButton
| Boards (score : Z) (own : Grid) (over : bool) (opponent : Grid).

Definition render (st : State) : result View :=
  if negb (connected st) then Ok Lobby
  else if negb (gameStarted st) then Ok StartButton
  else
    own ← renderBoard st (board st) false;
    opp ← renderBoard st (opponentBoard st) true;
    Ok (Boards (score st) own (gameOver st) opp).

(** ** Events and runs *)
Inductive Event : Type :=
| KeyDown (key : Key) (rnd : Tetromino.name)
| Interval (rnd : Tetromino.name)
| ClickStart (rnd : Tetromino.name)
| RoomInput (value : string)
| CreateRoom (data : option string)
| JoinRoom (roomIdInput : string)
| WsOpen
| WsClose
| WsMessage (message : InMsg).

Definition step (e : Event) (st : State) : result (State * list OutMsg) :=
  match e with
  | KeyDown key rnd => handleKeyPress key rnd st
  | Interval rnd => tick rnd st
  | ClickStart rnd => st' ← startGame rnd st; Ok (st', [])
  | RoomInput v => Ok (setRoomId v st, [])
  | CreateRoom data => Ok (createRoom data st, [])
  | JoinRoom r => Ok (joinRoom r st, [])
  | WsOpen => Ok (onopen st, [])
  | WsClose => Ok (onclose st, [])
  | WsMessage m => Ok (onmessage m st, [])
  end.

(** A run handles the events one after the other and collects the frames
    sent, oldest first. *)
Fixpoint run (es : list Event) (st : State) : result (State * list OutMsg) :=
  match es with
  | [] => Ok (st, [])
  | e :: es' =>
      '(st1, out1) ← step e st;
      '(st2, out2) ← run es' st1;
      Ok (st2, out1 ++ out2)
  end.

(** ** Arrays as objects

    Where the code writes into an array, it matters which array object is
    written.  For those parts the arrays live in a store: an array of
    numbers or an array of rows at an address, and a new array is put at
    the end of the store. *)
Inductive object : Type :=
| Numbers (cells : list Z)
| Rows (rows : list nat).

Abbreviation store := (list object).

Definition alloc (h : store) (o : object) : store * nat := (h ++ [o], length h).

Definition numbersAt (h : store) (a : nat) : option (list Z) :=
  match h !! a with Some (Numbers cells) => Some cells | _ => None end.

Definition rowsAt (h : store) (a : nat) : option (list nat) :=
  match h !! a with Some (Rows rows) => Some rows | _ => None end.

(** The grid that the array of rows at [a] holds. *)
Definition gridAt (h : store) (a : nat) : option Grid :=
  rows ← rowsAt h a; mapM (numbersAt h) rows.

(** [row[i]] for the row at address [r] *)
Definition cellS (h : store) (i : nat) (r : nat) : result Z :=
  match numbersAt h r with
  | None => TypeError
  | Some cells => match cells !! i with Some c => Ok c | None => NotNumberGrid end
  end.

(** [currentPiece.map(row => row[i]).reverse()] for the shape at address
    [piece]: [map] makes a new array and [reverse] turns that array around
    in place. *)
Definition columnReversedS (h : store) (piece : nat) (i : nat)
  : result (store * nat) :=
  match rowsAt h piece with
  | None => TypeError
  | Some rows =>
      cells ← mapM (cellS h i) rows;
      let '(h1, a) := alloc h (Numbers cells) in
      match numbersAt h1 a with
      | None => TypeError
      | Some cells1 => Ok (<[a := Numbers (reverse cells1)]> h1, a)
      end
  end.

Fixpoint rotateColumnsS (h : store) (piece : nat) (indices : list nat)
  : result (store * list nat) :=
  match indices with
  | [] => Ok (h, [])
  | i :: indices' =>
      '(h1, a) ← columnReversedS h piece i;
      '(h2, rest) ← rotateColumnsS h1 piece indices';
      Ok (h2, a :: rest)
  end.

(** The rotation of handleKeyPress on the store; the outer [map] makes the
    array of the new rows. *)
Definition rotateClockwiseS (h : store) (piece : nat) : result (store * nat) :=
  match rowsAt h piece with
  | None => TypeError
  | Some rows =>
      match rows !! 0%nat with
      | None => TypeError
      | Some r0 =>
          match numbersAt h r0 with
          | None => TypeError
          | Some first =>
              '(h1, newRows) ← rotateColumnsS h piece (seq 0 (length first));
              Ok (alloc h1 (Rows newRows))
          end
      end
  end.

(** [[...row]] for every row: a new array with the same cells. *)
Fixpoint copyRowsS (h : store) (rows : list nat) : result (store * list nat) :=
  match rows with
  | [] => Ok (h, [])
  | r :: rows' =>
      match numbersAt h r with
      | None => TypeError
      | Some cells =>
          let '(h1, a) := alloc h (Numbers cells) in
          '(h2, rest) ← copyRowsS h1 rows';
          Ok (h2, a :: rest)
      end
  end.

(** [boardData.map(row => [...row])] *)
Definition copyGridS (h : store) (g : nat) : result (store * nat) :=
  match rowsAt h g with
  | None => TypeError
  | Some rows =>
      '(h1, newRows) ← copyRowsS h rows; Ok (alloc h1 (Rows newRows))
  end.

(** [g[y][x] = v] for the array of rows at [g] *)
Definition setCellS (h : store) (g : nat) (y x v : Z) : result store :=
  match rowsAt h g with
  | None => TypeError
  | Some rows =>
      match js_get rows y with
      | None => TypeError
      | Some r =>
          match numbersAt h r with
          | None => TypeError
          | Some cells =>
              cells' ← js_set cells x v; Ok (<[r := Numbers cells']> h)
          end
      end
  end.

(** The loops of renderBoard, writing into the array at [displayBoard]. *)
Fixpoint render_colsS (h : store) (displayBoard : nat) (pos : Position.t)
    (row : Z) (cells : list Z) (col : Z) : result store :=
  match cells with
  | [] => Ok h
  | c :: cells' =>
      if truthy c then
        let y := Position.y pos + row in
        let x := Position.x pos + col in
        h' ←
          (if (y >=? 0) && (y <? BOARD_HEIGHT) && (x >=? 0) && (x <? BOARD_WIDTH)
           then setCellS h displayBoard y x 2 else Ok h);
        render_colsS h' displayBoard pos row cells' (col + 1)
      else render_colsS h displayBoard pos row cells' (col + 1)
  end.

Fixpoint render_rowsS (h : store) (displayBoard : nat) (pos : Position.t)
    (rows : TetrominoShape) (row : Z) : result store :=
  match rows with
  | [] => Ok h
  | r :: rows' =>
      h' ← render_colsS h displayBoard pos row r 0;
      render_rowsS h' displayBoard pos rows' (row + 1)
  end.

(** renderBoard on the store: the copy is made first, the piece is written
    into the copy, and the address of the copy is what is painted. *)
Definition renderBoardS (st : State) (h : store) (boardData : nat)
    (isOpponent : bool) : result (store * nat) :=
  '(h1, displayBoard) ← copyGridS h boardData;
  match currentPiece st with
  | Some piece =>
      if negb isOpponent then
        h2 ← render_rowsS h1 displayBoard (piecePosition st) piece 0;
        Ok (h2, displayBoard)
      else Ok (h1, displayBoard)
  | None => Ok (h1, displayBoard)
  end.

(** ** Arrays as objects: the lock

    The loops of placePiece (lines 82-92), writing into the array of rows
    at [newBoard]. *)
Fixpoint place_colsS (h : store) (newBoard : nat) (pos : Position.t)
    (row : Z) (cells : list Z) (col : Z) : result store :=
  match cells with
  | [] => Ok h
  | c :: cells' =>
      if truthy c then
        let y := Position.y pos + row in
        let x := Position.x pos + col in
        h' ← (if y >=? 0 then setCellS h newBoard y x 1 else Ok h);
        place_colsS h' newBoard pos row cells' (col + 1)
      else place_colsS h newBoard pos row cells' (col + 1)
  end.

Fixpoint place_rowsS (h : store) (newBoard : nat) (pos : Position.t)
    (rows : TetrominoShape) (row : Z) : result store :=
  match rows with
  | [] => Ok h
  | r :: rows' =>
      h' ← place_colsS h newBoard pos row r 0;
      place_rowsS h' newBoard pos rows' (row + 1)
  end.

(** The loop of lines 96-103: [splice] takes the row out of the array at
    [newBoard], [Array(BOARD_WIDTH).fill(0)] makes a new row, and [unshift]
    puts it in front, all in the same array of rows. *)
Fixpoint clearLoopS (fuel : nat) (h : store) (newBoard : nat) (row : Z)
    (linesCleared : Z) : result (store * Z) :=
  match fuel with
  | O => OutOfFuel
  | S fuel' =>
      if row >=? 0 then
        match rowsAt h newBoard with
        | None => TypeError
        | Some rows =>
            match js_get rows row with
            | None => TypeError
            | Some r =>
                match numbersAt h r with
                | None => TypeError
                | Some cells =>
                    if rowComplete cells then
                      let h1 :=
                        <[newBoard := Rows (delete (Z.to_nat row) rows)]> h in
                      let '(h2, a) := alloc h1 (Numbers emptyRow) in
                      match rowsAt h2 newBoard with
                      | None => TypeError
                      | Some rows2 =>
                          let h3 := <[newBoard := Rows (a :: rows2)]> h2 in
                          clearLoopS fuel' h3 newBoard (row + 1 - 1)
                            (linesCleared + 1)
                      end
                    else clearLoopS fuel' h newBoard (row - 1) linesCleared
                end
            end
        end
      else Ok (h, linesCleared)
  end.

(** Lines 79-103 of placePiece on the store: the copy of the board, the
    piece written into it, the completed lines cleared in it.  The result
    is the address of [newBoard] and [linesCleared]. *)
Definition lockBoardS (h : store) (board : nat) (pos : Position.t)
    (piece : TetrominoShape) : result (store * nat * Z) :=
  '(h1, newBoard) ← copyGridS h board;
  h2 ← place_rowsS h1 newBoard pos piece 0;
  '(h3, linesCleared) ← clearLoopS clearFuel h2 newBoard (BOARD_HEIGHT - 1) 0;
  Ok (h3, newBoard, linesCleared).

(** * Vocabulary of the specification *)

(** The three cell values. *)
Definition Empty : Z := 0.
Definition Settled : Z := 1.
Definition Active : Z := 2.

(** The cell of a grid at row [y] and column [x], if there is one. *)
Definition cellAt (g : Grid) (y x : Z) : option Z :=
  r ← js_get g y; js_get r x.

(** A grid of [BOARD_HEIGHT] rows of [BOARD_WIDTH] cells. *)
Definition sized (g : Grid) : Prop :=
  length g = Z.to_nat BOARD_HEIGHT ∧
  Forall (λ r : list Z, length r = Z.to_nat BOARD_WIDTH) g.

(** A board as the engine stores it: no cell other than [Empty], [Settled]. *)
Definition stored (g : Grid) : Prop :=
  Forall (Forall (λ c : Z, c = Empty ∨ c = Settled)) g.

(** The cell of a shape at ([row], [col]) is occupied. *)
Definition occupied (piece : TetrominoShape) (row col : nat) : Prop :=
  ∃ r c, piece !! row = Some r ∧ r !! col = Some c ∧ c ≠ 0.

(** The board cell ([Y], [X]) lies under an occupied cell of the shape put
    at offset ([x], [y]). *)
Definition covered (piece : TetrominoShape) (x y : Z) (Y X : Z) : Prop :=
  ∃ row col, occupied piece row col ∧ Y = y + Z.of_nat row ∧ X = x + Z.of_nat col.

(** Every occupied cell is inside the columns and above the bottom. *)
Definition inBounds (piece : TetrominoShape) (x y : Z) : Prop :=
  ∀ row col, occupied piece row col →
    0 ≤ x + Z.of_nat col < BOARD_WIDTH ∧ y + Z.of_nat row < BOARD_HEIGHT.

(** The cell ([Y], [X]) can take a cell of the piece: it is inside the
    columns, above the bottom, and the board holds nothing truthy there. *)
Definition free (board : Grid) (Y X : Z) : Prop :=
  0 ≤ X < BOARD_WIDTH ∧ Y < BOARD_HEIGHT ∧
  (0 ≤ Y → cellAt board Y X = Some 0).

(** What the specification asks of one occupied cell of the shape. *)
Definition fits (board : Grid) (x y : Z) (row col : nat) : Prop :=
  0 ≤ x + Z.of_nat col < BOARD_WIDTH ∧
  y + Z.of_nat row < BOARD_HEIGHT ∧
  (0 ≤ y + Z.of_nat row →
   cellAt board (y + Z.of_nat row) (x + Z.of_nat col) ≠ Some Settled).

(** [marks v P b b']: [b'] is [b] with the cells that satisfy [P] and lie in
    a row [>= 0] set to [v], and nothing else changed. *)
Definition marks (v : Z) (P : Z → Z → Prop) (b b' : Grid) : Prop :=
  sized b' ∧
  ∀ Y X, (P Y X → 0 ≤ Y → cellAt b' Y X = Some v) ∧
         (cellAt b' Y X = cellAt b Y X ∨
          (P Y X ∧ 0 ≤ Y ∧ cellAt b' Y X = Some v)).

(** The lines that the test of the loop, [rowComplete], takes for
    completed: their number, and the other lines. *)
Definition completeCount (g : Grid) : nat := length (List.filter rowComplete g).
Definition remaining (g : Grid) : Grid :=
  List.filter (λ r, negb (rowComplete r)) g.

(** A full line, by its cells: every cell of it is [Settled]. *)
Definition fullLine (r : list Z) : Prop := Forall (λ c : Z, c = Settled) r.

#[global] Instance fullLine_dec (r : list Z) : Decision (fullLine r) :=
  decide (Forall (λ c : Z, c = Settled) r).

(** The number of full lines of a grid, and its other lines in their
    order. *)
Definition fullCount (g : Grid) : nat := length (filter fullLine g).
Definition notFull (g : Grid) : Grid := filter (λ r, ¬ fullLine r) g.

(** A line of [BOARD_WIDTH] empty cells. *)
Definition emptyLine : list Z := replicate (Z.to_nat BOARD_WIDTH) Empty.

(** Every row of the grid has an empty cell. *)
Definition gap (g : Grid) : Prop :=
  ∀ Y, 0 ≤ Y < BOARD_HEIGHT →
    ∃ X, 0 ≤ X < BOARD_WIDTH ∧ cellAt g Y X = Some Empty.

(** The score is a JavaScript number, a double; the model has an integer.
    The integers from [- maxSafe] to [maxSafe] are doubles, and a sum of two
    of them that lies in this range again is the sum of the integers.
    [exactScores s n]: the score [s], and every score that [n] events can
    lead to from [s] or from the 0 of a new game, is in this range; one
    event adds at most 100 times [BOARD_HEIGHT]. *)
Definition maxSafe : Z := 2 ^ 53.
Definition exactScores (s : Z) (n : nat) : Prop :=
  - maxSafe ≤ s ∧
  Z.max 0 s + 100 * BOARD_HEIGHT * Z.of_nat n ≤ maxSafe.

(** A grid of [h] rows of [w] cells. *)
Definition rect (h w : nat) (p : Grid) : Prop :=
  length p = h ∧ Forall (λ r : list Z, length r = w) p.

(** The cell of a grid at row [i] and column [j]. *)
Definition entry (p : Grid) (i j : nat) : option Z := r ← p !! i; r !! j.

(** The transposed grid: row [i] is column [i] of [p], top to bottom. *)
Definition transpose (p : Grid) (w : nat) : Grid :=
  (λ i, (λ row : list Z, default 0 (row !! i)) <$> p) <$> seq 0 w.

(** Transposed, and every row reversed. *)
Definition transposedReversed (p : Grid) (w : nat) : Grid :=
  reverse <$> transpose p w.

(** [n] quarter turns, one after the other. *)
Fixpoint rotations (n : nat) (p : TetrominoShape) : result TetrominoShape :=
  match n with
  | O => Ok p
  | S n' => q ← rotations n' p; rotateClockwise q
  end.

(** The length of the first row, [0] without one. *)
Definition width (p : TetrominoShape) : nat := length (default [] (p !! 0%nat)).

(** A shape with at least one row and one column, all rows of one length. *)
Definition shaped (p : TetrominoShape) : Prop := ∃ h w, rect (S h) (S w) p.

(** A board after the completed lines were cleared. *)
Definition cleared (g : Grid) : Grid :=
  replicate (completeCount g) emptyRow ++ remaining g.

Record Inv (st : State) : Prop := mkInv {
  inv_sized : sized (board st);
  inv_stored : stored (board st);
  inv_piece : ∀ p, currentPiece st = Some p →
    shaped p ∧
    inBounds p (Position.x (piecePosition st)) (Position.y (piecePosition st))
}.

(** The state and the frames after [placePiece] ran with a piece: [placed]
    is the board with the piece written in, [spawn] the answer of [canMove]
    for the new piece. *)
Record Locked (rnd : Tetromino.name) (st : State) (piece : TetrominoShape)
    (placed : Grid) (spawn : bool) (st' : State) (out : list OutMsg) : Prop :=
  mkLocked {
  locked_board : board st' = cleared placed;
  locked_score : score st' = score st + 100 * Z.of_nat (completeCount placed);
  locked_gameOver : gameOver st' = if spawn then gameOver st else true;
  locked_piece :
    currentPiece st' = if spawn then Some (getRandomPiece rnd) else Some piece;
  locked_position :
    piecePosition st' =
    if spawn
    then Position.mk (startColumn (Z.of_nat (width (getRandomPiece rnd)))) 0
    else piecePosition st;
  locked_out :
    out = sendIfConnected st
            (if spawn then game_state (cleared placed) (score st)
             else game_over (score st));
  locked_gameStarted : gameStarted st' = gameStarted st;
  locked_roomId : roomId st' = roomId st;
  locked_playerId : playerId st' = playerId st;
  locked_connected : connected st' = connected st;
  locked_opponentBoard : opponentBoard st' = opponentBoard st;
  locked_ws_current : ws_current st' = ws_current st
}.

(** A frame whose board, if it carries one, is 20x10 with cells 0 or 1. *)
Definition wireMsg (m : OutMsg) : Prop :=
  match m with
  | game_state b _ => sized b ∧ stored b
  | game_over _ => True
  end.

Record Good (st st' : State) (out : list OutMsg) : Prop := mkGood {
  good_inv : Inv st';
  good_wire : Forall wireMsg out;
  good_score : score st ≤ score st'
}.

Definition isStart (e : Event) : bool :=
  match e with ClickStart _ => true | _ => false end.

(** Every object of [h] is in [h'], unchanged, at its address. *)
Definition extends (h h' : store) : Prop :=
  ∀ a o, h !! a = Some o → h' !! a = Some o.

(** The rows at [rows] hold the grid [g]. *)
Definition holds (h : store) (rows : list nat) (g : Grid) : Prop :=
  Forall2 (λ r cells, numbersAt h r = Some cells) rows g.

(** The objects below address [n] are the same in [h] and [h']. *)
Definition agree (n : nat) (h h' : store) : Prop :=
  ∀ a, (a < n)%nat → h' !! a = h !! a.

(** The array of rows at [d] and its rows were made at or after address
    [n], the rows are different arrays, and together they hold [g]. *)
Definition owned (n : nat) (h : store) (d : nat) (g : Grid) : Prop :=
  ∃ rows, rowsAt h d = Some rows ∧ NoDup rows ∧
          Forall (λ r, (n ≤ r)%nat) rows ∧ holds h rows g.

Definition keys (key : Key) (n : nat) : list Event :=
  replicate n (KeyDown key Tetromino.I).
Definition ticks (n : nat) (rnd : Tetromino.name) : list Event :=
  replicate n (Interval rnd).

(** Connected play: nine O pieces fall straight down and pile up in columns
    4 and 5 up to row 2; the tenth O has been spawned on rows 0 and 1. *)
Definition nineSquares : list Event :=
  [JoinRoom "room"; WsOpen; ClickStart Tetromino.O]
  ++ ticks 19 Tetromino.O ++ ticks 17 Tetromino.O ++ ticks 15 Tetromino.O
  ++ ticks 13 Tetromino.O ++ ticks 11 Tetromino.O ++ ticks 9 Tetromino.O
  ++ ticks 7 Tetromino.O ++ ticks 5 Tetromino.O ++ ticks 3 Tetromino.O.

(** Connected play: an I piece is laid on the bottom row at the left, a
    second one at the right, and an O piece has come down between them to
    rows 18 and 19; its lock is the next tick. *)
Definition bottomLine : list Event :=
  [JoinRoom "room"; WsOpen; ClickStart Tetromino.I]
  ++ keys ArrowLeft 3 ++ ticks 20 Tetromino.I
  ++ keys ArrowRight 3 ++ ticks 20 Tetromino.O
  ++ ticks 18 Tetromino.O.

(** Connected play: an L piece at the bottom left and an I piece at the
    bottom right leave column 3 of the bottom row open; ten O pieces fill
    columns 4 and 5 to the top; the I piece spawned next is turned upright
    in column 3 and has come down to rows 16 to 19. *)
Definition lastLine : list Event :=
  [JoinRoom "room"; WsOpen; ClickStart Tetromino.L]
  ++ keys ArrowLeft 4 ++ ticks 19 Tetromino.I
  ++ keys ArrowRight 3 ++ ticks 20 Tetromino.O
  ++ ticks 19 Tetromino.O ++ ticks 17 Tetromino.O ++ ticks 15 Tetromino.O
  ++ ticks 13 Tetromino.O ++ ticks 11 Tetromino.O ++ ticks 9 Tetromino.O
  ++ ticks 7 Tetromino.O ++ ticks 5 Tetromino.O ++ ticks 3 Tetromino.O
  ++ ticks 1 Tetromino.I
  ++ keys ArrowUp 1 ++ ticks 16 Tetromino.O.

(** The state a run ends in, [initialState] if the run fails. *)
Definition stateAfter (es : list Event) : State :=
  match run es initialState with
  | Ok (st, _) => st
  | _ => initialState
  end.

Definition beforeLineLock : State := Eval vm_compute in stateAfter bottomLine.

(** A board whose bottom row is complete. *)
Definition oneLineBoard : Grid :=
  replicate 19 emptyRow ++ [replicate 10 Settled].

(** A board with one full line, row 18, between two lines that are not
    full; and the board with that line taken out and an empty line on top. *)
Definition shiftBoard : Grid :=
  replicate 17 emptyLine
  ++ [[1; 0; 0; 0; 0; 0; 0; 0; 0; 0]; replicate 10 Settled;
      [0; 1; 1; 1; 1; 1; 1; 1; 1; 1]].
Definition shiftedBoard : Grid :=
  replicate 18 emptyLine
  ++ [[1; 0; 0; 0; 0; 0; 0; 0; 0; 0]; [0; 1; 1; 1; 1; 1; 1; 1; 1; 1]].

(** A board with two full lines, rows 17 and 19, and one settled cell in
    row 18; and the board with only that cell, in row 19. *)
Definition twoLineBoard : Grid :=
  replicate 17 emptyLine
  ++ [replicate 10 Settled; [1; 0; 0; 0; 0; 0; 0; 0; 0; 0];
      replicate 10 Settled].
Definition twoLinesCleared : Grid :=
  replicate 19 emptyLine ++ [[1; 0; 0; 0; 0; 0; 0; 0; 0; 0]].

(** The board of [beforeLineLock] with its O piece written in: rows 18 and
    19, of which row 19 is full. *)
Definition lineBoard : Grid :=
  replicate 18 emptyLine
  ++ [[0; 0; 0; 0; 1; 1; 0; 0; 0; 0]; replicate 10 Settled].

(** A store with the two rows of the T shape and, at address 2, the shape. *)
Definition shapeStore : store :=
  [Numbers [0; 1; 0]; Numbers [1; 1; 1]; Rows [0; 1]%nat].

(** A store with the rows of the board of [beforeLineLock] at the addresses
    0 to 19 and the board at address 20. *)
Definition boardStore : store :=
  (Numbers <$> board beforeLineLock) ++ [Rows (seq 0 20)].

(** ** What one event does to the engine *)

(** The fields of the engine: board, piece, position, score and the two
    flags of the game. *)
Definition sameEngine (st st' : State) : Prop :=
  board st' = board st ∧ currentPiece st' = currentPiece st ∧
  piecePosition st' = piecePosition st ∧ score st' = score st ∧
  gameOver st' = gameOver st ∧ gameStarted st' = gameStarted st.

(** The fields of the lobby and of the connection. *)
Definition sameSession (st st' : State) : Prop :=
  roomId st' = roomId st ∧ playerId st' = playerId st ∧
  connected st' = connected st ∧ opponentBoard st' = opponentBoard st ∧
  ws_current st' = ws_current st.

(** The four things a key or a tick can do while a game runs: nothing, move
    the piece to a position that [canMove] accepts, replace the piece by its
    rotation where [canMove] accepts it, or lock it when it cannot go down. *)
Inductive Effect (rnd : Tetromino.name) (st st' : State) (out : list OutMsg)
  : Prop :=
| effect_none :
    st' = st → out = [] → Effect rnd st st' out
| effect_move (piece : TetrominoShape) (x y : Z) :
    currentPiece st = Some piece → gameOver st = false →
    canMove (board st) piece x y = Ok true →
    (y = Position.y (piecePosition st) ∧
     (x = Position.x (piecePosition st) - 1 ∨
      x = Position.x (piecePosition st) + 1) ∨
     y = Position.y (piecePosition st) + 1 ∧
     x = Position.x (piecePosition st)) →
    st' = setPiecePosition (Position.mk x y) st → out = [] →
    Effect rnd st st' out
| effect_rotate (piece rotated : TetrominoShape) :
    currentPiece st = Some piece → gameOver st = false →
    rotateClockwise piece = Ok rotated →
    canMove (board st) rotated (Position.x (piecePosition st))
      (Position.y (piecePosition st)) = Ok true →
    st' = setCurrentPiece (Some rotated) st → out = [] →
    Effect rnd st st' out
| effect_lock (piece : TetrominoShape) (placed : Grid) (spawn : bool) :
    currentPiece st = Some piece → gameOver st = false →
    canMove (board st) piece (Position.x (piecePosition st))
      (Position.y (piecePosition st) + 1) = Ok false →
    marks Settled (covered piece (Position.x (piecePosition st))
                     (Position.y (piecePosition st))) (board st) placed →
    canMove (board st) (getRandomPiece rnd)
      (startColumn (Z.of_nat (width (getRandomPiece rnd)))) 0 = Ok spawn →
    Locked rnd st piece placed spawn st' out →
    Effect rnd st st' out.

(** The events that can move or lock the piece, with the draw they carry. *)
Definition engineDraw (e : Event) : option Tetromino.name :=
  match e with
  | KeyDown _ rnd => Some rnd
  | Interval rnd => Some rnd
  | _ => None
  end.

(** The events that can lock the piece: a tick and the down key. *)
Definition isDrop (e : Event) : bool :=
  match e with
  | KeyDown ArrowDown _ => true
  | Interval _ => true
  | _ => false
  end.

Definition isOpen (e : Event) : bool :=
  match e with WsOpen => true | _ => false end.

(** What every state of a run from [initialState] has, beside [Inv]. *)
Record Reached (st : State) : Prop := mkReached {
  reached_inv : Inv st;
  reached_no_line : completeCount (board st) = 0%nat;
  reached_score : ∃ k, 0 ≤ k ∧ score st = 100 * k;
  reached_row : 0 ≤ Position.y (piecePosition st);
  reached_started : gameStarted st = true ↔ is_Some (currentPiece st);
  reached_occupied :
    ∀ p, currentPiece st = Some p → ∃ row col, occupied p row col
}.

(** A frame as a run from [initialState] sends it: the board of a
    [game_state] frame is a board of the engine, without a completed line,
    and the score carried is a multiple of 100 that is not negative. *)
Definition frameOK (m : OutMsg) : Prop :=
  match m with
  | game_state b s =>
      sized b ∧ stored b ∧ completeCount b = 0%nat ∧ ∃ k, 0 ≤ k ∧ s = 100 * k
  | game_over s => ∃ k, 0 ≤ k ∧ s = 100 * k
  end.

(** Connected play that ends in game over: [lastLine] and the tick that
    locks its last piece. *)
Definition lostGame : list Event := lastLine ++ [Interval Tetromino.O].

Definition afterLostGame : State := Eval vm_compute in stateAfter lostGame.

(** A game just started with the T piece. *)
Definition freshGame : State :=
  Eval vm_compute in stateAfter [ClickStart Tetromino.T].

(** The number of settled cells of a grid. *)
Definition settledCells (g : Grid) : Z :=
  Z.of_nat (length (List.filter (λ c, c =? Settled) (concat g))).

(** The state with the engine of [st] and the lobby and connection of [s]. *)
Definition withSession (s st : State) : State :=
  mkState (board st) (currentPiece st) (piecePosition st) (score st)
    (gameOver st) (gameStarted st) (roomId s) (playerId s) (connected s)
    (opponentBoard s) (ws_current s).

(** * Properties *)

Ltac unfold_consts :=
  unfold BOARD_WIDTH, BOARD_HEIGHT, Empty, Settled, Active in *.
Ltac zlia := unfold_consts; lia.

(** ** Reading and writing cells *)

Lemma js_get_Some {A : Type} (a : list A) (i : Z) (v : A) :
  js_get a i = Some v ↔ 0 ≤ i ∧ a !! Z.to_nat i = Some v.
Proof.
  unfold js_get. destruct (Z.ltb_spec i 0); split.
  - discriminate.
  - intros [? _]; lia.
  - auto.
  - tauto.
Qed.

Lemma js_get_nat {A : Type} (a : list A) (n : nat) :
  js_get a (Z.of_nat n) = a !! n.
Proof.
  unfold js_get. destruct (Z.ltb_spec (Z.of_nat n) 0); [lia|].
  by rewrite Nat2Z.id.
Qed.

Lemma js_get_in_range {A : Type} (a : list A) (i : Z) :
  0 ≤ i < Z.of_nat (length a) → ∃ v, js_get a i = Some v.
Proof.
  intros Hi. destruct (lookup_lt_is_Some_2 a (Z.to_nat i)) as [v Hv]; [lia|].
  exists v. apply js_get_Some. split; [lia|done].
Qed.

Lemma sized_row (g : Grid) (y : Z) :
  sized g → 0 ≤ y < BOARD_HEIGHT →
  ∃ r, js_get g y = Some r ∧ length r = Z.to_nat BOARD_WIDTH.
Proof.
  intros [Hlen Hrows] Hy.
  destruct (js_get_in_range g y) as [r Hr]; [zlia|].
  exists r. split; [done|].
  apply js_get_Some in Hr as [_ Hr].
  by apply (Forall_lookup_1 _ _ _ _ Hrows Hr).
Qed.

Lemma sized_cellAt (g : Grid) (y x : Z) :
  sized g → 0 ≤ y < BOARD_HEIGHT → 0 ≤ x < BOARD_WIDTH →
  ∃ c, cellAt g y x = Some c.
Proof.
  intros Hg Hy Hx. destruct (sized_row g y Hg Hy) as (r & Hr & Hlen).
  destruct (js_get_in_range r x) as [c Hc]; [zlia|].
  exists c. unfold cellAt. by rewrite Hr.
Qed.

Lemma cellTruthy_cellAt (g : Grid) (y x c : Z) :
  cellAt g y x = Some c → cellTruthy g y x = Ok (truthy c).
Proof.
  unfold cellAt, cellTruthy. destruct (js_get g y) as [r|]; [|done].
  simpl. by intros ->.
Qed.

Lemma truthy_false (c : Z) : truthy c = false ↔ c = 0.
Proof. unfold truthy. destruct (Z.eqb_spec c 0); naive_solver. Qed.

Lemma truthy_true (c : Z) : truthy c = true ↔ c ≠ 0.
Proof. unfold truthy. destruct (Z.eqb_spec c 0); naive_solver. Qed.

Lemma stored_cellAt (g : Grid) (y x c : Z) :
  stored g → cellAt g y x = Some c → c = Empty ∨ c = Settled.
Proof.
  unfold cellAt. intros Hg Hc.
  destruct (js_get g y) as [r|] eqn:Hr; [|done]. simpl in Hc.
  apply js_get_Some in Hr as [_ Hr]. apply js_get_Some in Hc as [_ Hc].
  pose proof (Forall_lookup_1 _ _ _ _ Hg Hr) as Hrow.
  by apply (Forall_lookup_1 _ _ _ _ Hrow Hc).
Qed.

(** ** canMove *)

Lemma canMove_cols_spec (board : Grid) (x y row : Z) (cells : list Z) (col : Z) :
  sized board →
  ∃ b, canMove_cols board x y row cells col = Ok b ∧
       (b = true ↔
        ∀ j c, cells !! j = Some c → c ≠ 0 →
               free board (y + row) (x + (col + Z.of_nat j))).
Proof.
  intros Hsized. revert col.
  induction cells as [|c cells IH]; intros col; simpl.
  { exists true. split; [done|]. split; [|done]. intros _ j c Hj. done. }
  destruct (IH (col + 1)) as (b & Hb & Hspec).
  assert (Hshift : (∀ j c', cells !! j = Some c' → c' ≠ 0 →
                      free board (y + row) (x + (col + 1 + Z.of_nat j))) ↔
                   (∀ j c', (c :: cells) !! S j = Some c' → c' ≠ 0 →
                      free board (y + row) (x + (col + Z.of_nat (S j))))).
  { split; intros H j c' Hj Hc'.
    - replace (col + Z.of_nat (S j)) with (col + 1 + Z.of_nat j) by lia. eauto.
    - replace (col + 1 + Z.of_nat j) with (col + Z.of_nat (S j)) by lia. eauto. }
  destruct (truthy c) eqn:Hc.
  - apply truthy_true in Hc.
    destruct ((x + col <? 0) || (x + col >=? BOARD_WIDTH)
              || (y + row >=? BOARD_HEIGHT)) eqn:Hout.
    + exists false. split; [done|]. split; [done|]. intros H.
      destruct (H 0%nat c eq_refl Hc) as (HX & HY & _).
      rewrite Z.add_0_r in HX.
      rewrite !orb_true_iff in Hout. destruct Hout as [[Ho|Ho]|Ho]; lia.
    + rewrite !orb_false_iff in Hout. destruct Hout as [[Ho1 Ho2] Ho3].
      assert (0 ≤ x + col < BOARD_WIDTH ∧ y + row < BOARD_HEIGHT) as [HX HY] by lia.
      destruct (Z.geb_spec (y + row) 0) as [Hpos|Hneg].
      * destruct (sized_cellAt board (y + row) (x + col) Hsized) as [v Hv];
          [lia|lia|].
        rewrite (cellTruthy_cellAt _ _ _ _ Hv). simpl.
        destruct (truthy v) eqn:Htv.
        -- exists false. split; [done|]. split; [done|]. intros H.
           destruct (H 0%nat c eq_refl Hc) as (_ & _ & Hcell).
           rewrite Z.add_0_r, Hv in Hcell. apply truthy_true in Htv.
           specialize (Hcell ltac:(lia)). congruence.
        -- exists b. split; [done|]. rewrite Hspec, Hshift.
           apply truthy_false in Htv. subst v.
           split; intros H j c' Hj Hc'.
           ++ destruct j as [|j]; [|eauto].
              injection Hj as <-. rewrite Z.add_0_r. repeat split; auto; lia.
           ++ eauto.
      * simpl. exists b. split; [done|]. rewrite Hspec, Hshift.
        split; intros H j c' Hj Hc'.
        -- destruct j as [|j]; [|eauto].
           injection Hj as <-. rewrite Z.add_0_r. repeat split; auto; lia.
        -- eauto.
  - apply truthy_false in Hc. exists b. split; [done|]. rewrite Hspec, Hshift.
    split; intros H j c' Hj Hc'.
    + destruct j as [|j]; [|eauto]. injection Hj as <-. done.
    + eauto.
Qed.

Lemma canMove_rows_spec (board : Grid) (x y : Z) (rows : TetrominoShape) (row : Z) :
  sized board →
  ∃ b, canMove_rows board x y rows row = Ok b ∧
       (b = true ↔
        ∀ i r j c, rows !! i = Some r → r !! j = Some c → c ≠ 0 →
                   free board (y + (row + Z.of_nat i)) (x + Z.of_nat j)).
Proof.
  intros Hsized. revert row.
  induction rows as [|r rows IH]; intros row; simpl.
  { exists true. split; [done|]. split; [|done]. intros _ i r j c Hi. done. }
  destruct (canMove_cols_spec board x y row r 0 Hsized) as (b1 & -> & Hb1).
  destruct (IH (row + 1)) as (b2 & Hb2 & Hspec2). simpl.
  destruct b1.
  - exists b2. split; [done|]. rewrite Hspec2.
    destruct Hb1 as [Hb1 _]. specialize (Hb1 eq_refl).
    split; intros H i r' j c Hi Hj Hc.
    + destruct i as [|i].
      * injection Hi as <-. rewrite Z.add_0_r.
        specialize (Hb1 j c Hj Hc). by rewrite Z.add_0_l in Hb1.
      * replace (row + Z.of_nat (S i)) with (row + 1 + Z.of_nat i) by lia. eauto.
    + replace (row + 1 + Z.of_nat i) with (row + Z.of_nat (S i)) by lia.
      by apply (H (S i) r' j c).
  - exists false. split; [done|]. split; [done|]. intros H.
    destruct Hb1 as [_ Hb1]. apply Hb1. intros j c Hj Hc.
    specialize (H 0%nat r j c eq_refl Hj Hc).
    by rewrite Z.add_0_r in H; rewrite Z.add_0_l.
Qed.

(** On a board of the right size [canMove] returns, and it returns [true]
    exactly when every occupied cell is [free]. *)
Lemma canMove_free (board : Grid) (piece : TetrominoShape) (x y : Z) :
  sized board →
  ∃ b, canMove board piece x y = Ok b ∧
       (b = true ↔
        ∀ row col, occupied piece row col →
                   free board (y + Z.of_nat row) (x + Z.of_nat col)).
Proof.
  intros Hsized.
  destruct (canMove_rows_spec board x y piece 0 Hsized) as (b & Hb & Hspec).
  exists b. split; [done|]. rewrite Hspec. unfold occupied.
  split.
  - intros H row col (r & c & Hr & Hc & Hne).
    specialize (H row r col c Hr Hc Hne). by rewrite Z.add_0_l in H.
  - intros H i r j c Hr Hc Hne. rewrite Z.add_0_l. apply H. eauto.
Qed.

Lemma canMove_true_inBounds (board : Grid) (piece : TetrominoShape) (x y : Z) :
  sized board → canMove board piece x y = Ok true → inBounds piece x y.
Proof.
  intros Hsized Hmove.
  destruct (canMove_free board piece x y Hsized) as (b & Hb & Hspec).
  rewrite Hmove in Hb. injection Hb as <-.
  intros row col Hocc. destruct Hspec as [Hspec _].
  destruct (Hspec eq_refl row col Hocc) as (? & ? & _). done.
Qed.

Lemma free_fits (board : Grid) (x y : Z) (row col : nat) :
  sized board → stored board →
  free board (y + Z.of_nat row) (x + Z.of_nat col) ↔ fits board x y row col.
Proof.
  intros Hsized Hstored. unfold free, fits.
  split; intros (HX & HY & Hcell); repeat split; try lia.
  - intros Hpos. rewrite (Hcell Hpos). unfold Settled. congruence.
  - intros Hpos. specialize (Hcell Hpos).
    destruct (sized_cellAt board (y + Z.of_nat row) (x + Z.of_nat col) Hsized)
      as [c Hc]; [lia|lia|].
    destruct (stored_cellAt _ _ _ _ Hstored Hc) as [->| ->]; [done|].
    by rewrite Hc in Hcell.
Qed.

(** ** Writing the piece into the board *)

Lemma cellAt_insert_row (g : Grid) (y : nat) (r : list Z) (Y X : Z) :
  (y < length g)%nat →
  cellAt (<[y := r]> g) Y X =
  if decide (Y = Z.of_nat y) then js_get r X else cellAt g Y X.
Proof.
  intros Hy. unfold cellAt, js_get.
  destruct (Z.ltb_spec Y 0) as [Hneg|Hpos].
  { case_decide; [lia|done]. }
  case_decide as HY.
  - subst Y. rewrite Nat2Z.id, list_lookup_insert_eq by done. done.
  - rewrite list_lookup_insert_ne by lia. done.
Qed.

Lemma setCell_spec (g : Grid) (y x v : Z) :
  sized g → 0 ≤ y < BOARD_HEIGHT → 0 ≤ x < BOARD_WIDTH →
  ∃ g', setCell g y x v = Ok g' ∧ sized g' ∧
        ∀ Y X, cellAt g' Y X =
               if decide (Y = y ∧ X = x) then Some v else cellAt g Y X.
Proof.
  intros Hg Hy Hx. destruct (sized_row g y Hg Hy) as (r & Hr & Hlen).
  unfold setCell, js_set. rewrite Hr.
  destruct (Z.ltb_spec x 0); [lia|].
  destruct (Z.ltb_spec x (Z.of_nat (length r))); [|zlia].
  simpl. eexists. split; [done|].
  destruct Hg as [Hglen Hrows].
  assert (Hylt : (Z.to_nat y < length g)%nat) by zlia.
  split.
  - split; [by rewrite length_insert|].
    apply Forall_insert; [done|]. by rewrite length_insert.
  - intros Y X. rewrite cellAt_insert_row by done.
    rewrite Z2Nat.id by lia.
    destruct (decide (Y = y)) as [->|HY].
    + destruct (decide (X = x)) as [->|HX].
      * rewrite decide_True by done. apply js_get_Some. split; [lia|].
        apply list_lookup_insert_eq. lia.
      * rewrite decide_False by tauto. unfold cellAt. rewrite Hr. simpl.
        unfold js_get. destruct (X <? 0) eqn:HX0; [done|].
        apply Z.ltb_ge in HX0. apply list_lookup_insert_ne. lia.
    + rewrite decide_False by tauto. done.
Qed.

Lemma marks_none (v : Z) (P : Z → Z → Prop) (b : Grid) :
  sized b → (∀ Y X, P Y X → Y < 0) → marks v P b b.
Proof.
  intros Hb HP. split; [done|]. intros Y X. split; [|by left].
  intros HPYX HY. specialize (HP Y X HPYX). lia.
Qed.

Lemma marks_then (v : Z) (P Q R : Z → Z → Prop) (b b1 b2 : Grid) :
  marks v P b b1 → marks v Q b1 b2 →
  (∀ Y X, R Y X ↔ P Y X ∨ Q Y X) → marks v R b b2.
Proof.
  intros [_ H1] [Hs2 H2] HR. split; [done|]. intros Y X.
  destruct (H1 Y X) as [H1a H1b]. destruct (H2 Y X) as [H2a H2b].
  rewrite HR. split.
  - intros [HP|HQ] HY; [|auto].
    destruct H2b as [->|(_ & _ & ->)]; auto.
  - destruct H2b as [Heq|(HQ & HY & H2b)]; [|right; auto].
    rewrite Heq. destruct H1b as [H1b|(HP & HY & H1b)]; [by left|].
    right. auto.
Qed.

Lemma marks_setCell (b : Grid) (y x : Z) :
  sized b → y < BOARD_HEIGHT → 0 ≤ x < BOARD_WIDTH →
  ∃ b', (if y >=? 0 then setCell b y x 1 else Ok b) = Ok b' ∧
        marks Settled (λ Y X, Y = y ∧ X = x) b b'.
Proof.
  intros Hb Hy Hx. destruct (Z.geb_spec y 0) as [Hpos|Hneg].
  - destruct (setCell_spec b y x 1 Hb) as (b' & Hset & Hs & Hcells); [lia|done|].
    exists b'. split; [done|]. split; [done|]. intros Y X.
    rewrite Hcells. case_decide as Hdec.
    + split; [done|]. right. split; [done|]. split; [lia|done].
    + split; [tauto|by left].
  - exists b. split; [done|]. apply marks_none; [done|]. intros Y X [-> _]. lia.
Qed.

Lemma place_cols_spec (b : Grid) (pos : Position.t) (row : Z)
    (cells : list Z) (col : Z) :
  sized b →
  (∀ j c, cells !! j = Some c → c ≠ 0 →
     0 ≤ Position.x pos + (col + Z.of_nat j) < BOARD_WIDTH ∧
     Position.y pos + row < BOARD_HEIGHT) →
  ∃ b', place_cols b pos row cells col = Ok b' ∧
        marks Settled (λ Y X, ∃ j c, cells !! j = Some c ∧ c ≠ 0 ∧
                 Y = Position.y pos + row ∧
                 X = Position.x pos + (col + Z.of_nat j)) b b'.
Proof.
  revert b col. induction cells as [|c cells IH]; intros b col Hb Hin; simpl.
  { exists b. split; [done|]. apply marks_none; [done|].
    intros Y X (j & c & Hj & _). done. }
  assert (Hin' : ∀ j c', cells !! j = Some c' → c' ≠ 0 →
            0 ≤ Position.x pos + (col + 1 + Z.of_nat j) < BOARD_WIDTH ∧
            Position.y pos + row < BOARD_HEIGHT).
  { intros j c' Hj Hc'. specialize (Hin (S j) c' Hj Hc').
    replace (col + 1 + Z.of_nat j) with (col + Z.of_nat (S j)) by lia. done. }
  destruct (truthy c) eqn:Hc.
  - apply truthy_true in Hc.
    destruct (Hin 0%nat c eq_refl Hc) as [HX HY]. rewrite Z.add_0_r in HX.
    destruct (marks_setCell b (Position.y pos + row) (Position.x pos + col)
                Hb HY HX) as (b1 & -> & Hm1).
    simpl. destruct (IH b1 (col + 1) (proj1 Hm1) Hin') as (b' & Hb' & Hm2).
    exists b'. split; [done|]. eapply marks_then; [exact Hm1|exact Hm2|].
    intros Y X. split.
    + intros (j & c' & Hj & Hc' & -> & ->). destruct j as [|j].
      * left. split; [done|lia].
      * right. exists j, c'. repeat split; auto. lia.
    + intros [[-> ->]|(j & c' & Hj & Hc' & -> & ->)].
      * exists 0%nat, c. repeat split; auto. lia.
      * exists (S j), c'. repeat split; auto. lia.
  - apply truthy_false in Hc.
    destruct (IH b (col + 1) Hb Hin') as (b' & Hb' & [Hs Hm]).
    exists b'. split; [done|]. split; [done|]. intros Y X.
    destruct (Hm Y X) as [Hma Hmb].
    assert (Hiff : (∃ j c', cells !! j = Some c' ∧ c' ≠ 0 ∧
                      Y = Position.y pos + row ∧
                      X = Position.x pos + (col + 1 + Z.of_nat j)) ↔
                   (∃ j c', (c :: cells) !! j = Some c' ∧ c' ≠ 0 ∧
                      Y = Position.y pos + row ∧
                      X = Position.x pos + (col + Z.of_nat j))).
    { split.
      - intros (j & c' & Hj & Hc' & -> & ->). exists (S j), c'.
        repeat split; auto. lia.
      - intros (j & c' & Hj & Hc' & -> & ->). destruct j as [|j].
        + injection Hj as <-. done.
        + exists j, c'. repeat split; auto. lia. }
    rewrite <- Hiff. done.
Qed.

Lemma place_rows_spec (b : Grid) (pos : Position.t)
    (rows : TetrominoShape) (row : Z) :
  sized b →
  (∀ i r j c, rows !! i = Some r → r !! j = Some c → c ≠ 0 →
     0 ≤ Position.x pos + Z.of_nat j < BOARD_WIDTH ∧
     Position.y pos + (row + Z.of_nat i) < BOARD_HEIGHT) →
  ∃ b', place_rows b pos rows row = Ok b' ∧
        marks Settled
          (λ Y X, ∃ i r j c, rows !! i = Some r ∧ r !! j = Some c ∧ c ≠ 0 ∧
                 Y = Position.y pos + (row + Z.of_nat i) ∧
                 X = Position.x pos + Z.of_nat j) b b'.
Proof.
  revert b row. induction rows as [|r rows IH]; intros b row Hb Hin; simpl.
  { exists b. split; [done|]. apply marks_none; [done|].
    intros Y X (i & r & j & c & Hi & _). done. }
  destruct (place_cols_spec b pos row r 0 Hb) as (b1 & -> & Hm1).
  { intros j c Hj Hc. specialize (Hin 0%nat r j c eq_refl Hj Hc).
    rewrite Z.add_0_r in Hin. rewrite Z.add_0_l. done. }
  simpl. destruct (IH b1 (row + 1) (proj1 Hm1)) as (b' & Hb' & Hm2).
  { intros i r' j c Hi Hj Hc. specialize (Hin (S i) r' j c Hi Hj Hc).
    replace (row + 1 + Z.of_nat i) with (row + Z.of_nat (S i)) by lia. done. }
  exists b'. split; [done|]. eapply marks_then; [exact Hm1|exact Hm2|].
  intros Y X. split.
  - intros (i & r' & j & c & Hi & Hj & Hc & -> & ->). destruct i as [|i].
    + injection Hi as <-. left. exists j, c. repeat split; auto; lia.
    + right. exists i, r', j, c. repeat split; auto. lia.
  - intros [(j & c & Hj & Hc & -> & ->)|(i & r' & j & c & Hi & Hj & Hc & -> & ->)].
    + exists 0%nat, r, j, c. repeat split; auto; lia.
    + exists (S i), r', j, c. repeat split; auto. lia.
Qed.

(** A piece inside the bounds is written without an error, and the result is
    the board with the covered cells of rows [>= 0] settled. *)
Lemma place_marks (board : Grid) (piece : TetrominoShape) (pos : Position.t) :
  sized board → inBounds piece (Position.x pos) (Position.y pos) →
  ∃ b', place board piece pos = Ok b' ∧
        marks Settled (covered piece (Position.x pos) (Position.y pos)) board b'.
Proof.
  intros Hb Hin.
  destruct (place_rows_spec board pos piece 0 Hb) as (b' & Hb' & [Hs Hm]).
  { intros i r j c Hi Hj Hc. rewrite Z.add_0_l. apply Hin. by exists r, c. }
  exists b'. split; [done|]. split; [done|]. intros Y X.
  assert (Hiff : covered piece (Position.x pos) (Position.y pos) Y X ↔
            ∃ i r j c, piece !! i = Some r ∧ r !! j = Some c ∧ c ≠ 0 ∧
              Y = Position.y pos + (0 + Z.of_nat i) ∧
              X = Position.x pos + Z.of_nat j).
  { unfold covered, occupied. split.
    - intros (i & j & (r & c & Hi & Hj & Hc) & -> & ->).
      exists i, r, j, c. repeat split; auto.
    - intros (i & r & j & c & Hi & Hj & Hc & -> & ->).
      exists i, j. split; [by exists r, c|]. split; [lia|done]. }
  rewrite Hiff. apply Hm.
Qed.

(** ** Clearing completed lines *)

Lemma emptyRow_not_complete : rowComplete emptyRow = false.
Proof. reflexivity. Qed.

Lemma completeCount_app (g h : Grid) :
  completeCount (g ++ h) = (completeCount g + completeCount h)%nat.
Proof. unfold completeCount. by rewrite List.filter_app, length_app. Qed.

Lemma remaining_app (g h : Grid) : remaining (g ++ h) = remaining g ++ remaining h.
Proof. apply List.filter_app. Qed.

Lemma completeCount_le (g : Grid) : (completeCount g ≤ length g)%nat.
Proof. apply List.filter_length_le. Qed.

Lemma length_remaining (g : Grid) :
  (length (remaining g) + completeCount g = length g)%nat.
Proof.
  unfold remaining, completeCount. induction g as [|r g IH]; simpl; [done|].
  destruct (rowComplete r); simpl; lia.
Qed.

(** The loop at index [length top - 1] of [top ++ below]: the rows of [top]
    are still to be looked at, those of [below] stay where they are. *)
Lemma clearLoop_spec (fuel : nat) (top below : Grid) (linesCleared : Z) :
  (length top + completeCount top < fuel)%nat →
  clearLoop fuel (top ++ below) (Z.of_nat (length top) - 1) linesCleared =
  Ok (replicate (completeCount top) emptyRow ++ remaining top ++ below,
      linesCleared + Z.of_nat (completeCount top)).
Proof.
  revert top below linesCleared.
  induction fuel as [|fuel IH]; intros top below k Hfuel; [lia|].
  destruct top as [|r top _] using rev_ind.
  { simpl. by rewrite Z.add_0_r. }
  rewrite length_app in *. rewrite completeCount_app in Hfuel.
  cbn [length] in *.
  cbn [clearLoop].
  destruct (Z.geb_spec (Z.of_nat (length top + 1) - 1) 0) as [_|?]; [|lia].
  replace (Z.of_nat (length top + 1) - 1) with (Z.of_nat (length top)) by lia.
  rewrite js_get_nat, Nat2Z.id.
  rewrite <- (assoc_L (++)). cbn [app].
  rewrite list_lookup_middle by done.
  unfold completeCount, remaining in *.
  rewrite !List.filter_app in *. cbn [List.filter] in *.
  destruct (rowComplete r) eqn:Hr; cbn [negb length app] in *.
  - replace (delete (length top) (top ++ r :: below)) with (top ++ below).
    2:{ clear. induction top; simpl; [done|]. by f_equal. }
    replace (Z.of_nat (length top) + 1 - 1)
      with (Z.of_nat (length (emptyRow :: top)) - 1) by (cbn [length]; lia).
    change (emptyRow :: top ++ below) with ((emptyRow :: top) ++ below).
    rewrite IH.
    2:{ unfold completeCount. cbn [List.filter length].
        rewrite emptyRow_not_complete. cbn [length]. lia. }
    unfold completeCount, remaining. cbn [List.filter].
    rewrite emptyRow_not_complete. cbn [negb].
    rewrite length_app. cbn [length]. f_equal. f_equal.
    + rewrite app_nil_r, Nat.add_1_r. cbn [replicate].
      rewrite replicate_cons_app. rewrite <- (assoc_L (++)). done.
    + lia.
  - rewrite IH by (unfold completeCount; lia).
    unfold completeCount, remaining. rewrite length_app. cbn [length].
    rewrite Nat.add_0_r. rewrite <- (assoc_L (++)). done.
Qed.

(** The budget of [clearFullRows] is never used up, whatever the grid. *)
Lemma clearFullRows_result (g : Grid) :
  clearFullRows g =
  if decide (Z.to_nat BOARD_HEIGHT ≤ length g)%nat then
    let top := take (Z.to_nat BOARD_HEIGHT) g in
    Ok (replicate (completeCount top) emptyRow ++ remaining top
          ++ drop (Z.to_nat BOARD_HEIGHT) g,
        Z.of_nat (completeCount top))
  else TypeError.
Proof.
  unfold clearFullRows. case_decide as Hlen.
  - rewrite <- (take_drop (Z.to_nat BOARD_HEIGHT) g) at 1.
    set (top := take (Z.to_nat BOARD_HEIGHT) g).
    assert (Htop : length top = Z.to_nat BOARD_HEIGHT).
    { unfold top. rewrite length_take. lia. }
    replace (BOARD_HEIGHT - 1) with (Z.of_nat (length top) - 1)
      by (rewrite Htop; zlia).
    rewrite clearLoop_spec; [done|].
    pose proof (completeCount_le top). rewrite Htop in *.
    unfold clearFuel. lia.
  - unfold clearFuel. cbn [clearLoop].
    destruct (Z.geb_spec (BOARD_HEIGHT - 1) 0); [|zlia].
    unfold js_get. destruct (Z.ltb_spec (BOARD_HEIGHT - 1) 0); [zlia|].
    rewrite lookup_ge_None_2; [done|]. zlia.
Qed.

Lemma clearFullRows_sized_result (g : Grid) :
  length g = Z.to_nat BOARD_HEIGHT →
  clearFullRows g =
  Ok (replicate (completeCount g) emptyRow ++ remaining g,
      Z.of_nat (completeCount g)).
Proof.
  intros Hlen. rewrite clearFullRows_result.
  rewrite decide_True by lia.
  rewrite <- Hlen, firstn_all, drop_all. cbn zeta. by rewrite app_nil_r.
Qed.

Lemma remaining_none_complete (g : Grid) :
  completeCount g = 0%nat → remaining g = g.
Proof.
  unfold completeCount, remaining. induction g as [|r g IH]; simpl; [done|].
  destruct (rowComplete r); simpl; [done|]. intros H. by rewrite IH.
Qed.

(** The test of the loop, [every(cell => cell === 1)], accepts exactly the
    full lines. *)
Lemma rowComplete_fullLine (r : list Z) : rowComplete r = true ↔ fullLine r.
Proof.
  unfold rowComplete, fullLine, Settled. induction r as [|c r IH]; simpl.
  - split; [constructor|done].
  - split.
    + intros [Hc Hr]%andb_true_iff. constructor; [by apply Z.eqb_eq|].
      by apply IH.
    + intros H. inversion H as [|? ? Hc Hr]; subst.
      apply andb_true_iff. split; [by apply Z.eqb_eq|]. by apply IH.
Qed.

Lemma completeCount_fullCount (g : Grid) : completeCount g = fullCount g.
Proof.
  unfold completeCount, fullCount. induction g as [|r g IH]; [done|].
  cbn [List.filter]. rewrite filter_cons.
  destruct (rowComplete r) eqn:Hr.
  - rewrite decide_True by (by apply rowComplete_fullLine).
    cbn [length]. by rewrite IH.
  - rewrite decide_False; [done|].
    intros Hf. apply rowComplete_fullLine in Hf. congruence.
Qed.

Lemma remaining_notFull (g : Grid) : remaining g = notFull g.
Proof.
  unfold remaining, notFull. induction g as [|r g IH]; [done|].
  cbn [List.filter]. rewrite filter_cons.
  destruct (rowComplete r) eqn:Hr; cbn [negb].
  - rewrite decide_False; [done|].
    intros Hf. apply Hf. by apply rowComplete_fullLine.
  - rewrite decide_True; [by rewrite IH|].
    intros Hf. apply rowComplete_fullLine in Hf. congruence.
Qed.

Lemma fullCount_none (g : Grid) :
  fullCount g = 0%nat ↔ Forall (λ r, ¬ fullLine r) g.
Proof.
  unfold fullCount. induction g as [|r g IH]; [by split; [constructor|]|].
  rewrite filter_cons. case_decide as Hr; cbn [length].
  - split; [done|]. intros H. inversion H; subst. done.
  - rewrite IH. split.
    + intros Hg. by constructor.
    + intros H. by inversion H.
Qed.

Lemma fullCount_app (g h : Grid) :
  fullCount (g ++ h) = (fullCount g + fullCount h)%nat.
Proof. unfold fullCount. by rewrite list.filter_app, length_app. Qed.

Lemma notFull_none (g : Grid) : Forall (λ r, ¬ fullLine r) g → notFull g = g.
Proof.
  unfold notFull. induction 1 as [|r g Hr _ IH]; [done|].
  rewrite filter_cons, decide_True by done. by rewrite IH.
Qed.

(** A line of cells 0 or 1 that is not full has an empty cell. *)
Lemma notFull_gap (g : Grid) :
  sized g → stored g → Forall (λ r, ¬ fullLine r) g → gap g.
Proof.
  intros Hsized Hstored Hnone Y HY.
  destruct (sized_row g Y Hsized HY) as (r & Hr & Hlen).
  pose proof Hr as Hr'. apply js_get_Some in Hr' as [_ Hr'].
  pose proof (Forall_lookup_1 _ _ _ _ Hnone Hr') as Hnf.
  pose proof (Forall_lookup_1 _ _ _ _ Hstored Hr') as Hcells.
  apply not_Forall_Exists in Hnf; [|apply _].
  apply list.Exists_exists in Hnf as (c & Hc & Hne).
  apply list_elem_of_lookup in Hc as [i Hi].
  exists (Z.of_nat i). split.
  - apply lookup_lt_Some in Hi. zlia.
  - unfold cellAt. rewrite Hr. cbn [mbind option_bind].
    rewrite js_get_nat, Hi. f_equal.
    by destruct (Forall_lookup_1 _ _ _ _ Hcells Hi).
Qed.

Lemma sized_cleared (g : Grid) :
  sized g → sized (replicate (completeCount g) emptyRow ++ remaining g).
Proof.
  intros [Hlen Hrows]. split.
  - rewrite length_app, length_replicate. pose proof (length_remaining g). lia.
  - apply Forall_app. split.
    + apply Forall_replicate. reflexivity.
    + unfold remaining. rewrite List.Forall_forall in *. intros r Hr.
      apply Hrows. apply List.filter_In in Hr. tauto.
Qed.

(** ** Rotation *)

Lemma mapM_Ok_fmap {A B : Type} (f : A → result B) (g : A → B) (l : list A) :
  (∀ a, a ∈ l → f a = Ok (g a)) → mapM f l = Ok (g <$> l).
Proof.
  induction l as [|a l IH]; intros Hf; simpl; [done|].
  rewrite (Hf a) by apply list_elem_of_here. simpl.
  rewrite IH; [done|]. intros a' Ha'. apply Hf. by apply list_elem_of_further.
Qed.

Lemma rect_entry (h w : nat) (p : Grid) (i j : nat) :
  rect h w p → (i < h)%nat → (j < w)%nat → ∃ c, entry p i j = Some c.
Proof.
  intros [Hlen Hrows] Hi Hj.
  destruct (lookup_lt_is_Some_2 p i) as [r Hr]; [lia|].
  pose proof (Forall_lookup_1 _ _ _ _ Hrows Hr) as Hw. simpl in Hw.
  destruct (lookup_lt_is_Some_2 r j) as [c Hc]; [lia|].
  exists c. unfold entry. by rewrite Hr.
Qed.

Lemma rect_ext (h w : nat) (p q : Grid) :
  rect h w p → rect h w q →
  (∀ i j, (i < h)%nat → (j < w)%nat → entry p i j = entry q i j) → p = q.
Proof.
  intros [Hlp Hp] [Hlq Hq] Heq.
  apply (list_eq_same_length _ _ h); [done..|].
  intros i r1 r2 Hi Hr1 Hr2.
  pose proof (Forall_lookup_1 _ _ _ _ Hp Hr1) as Hw1.
  pose proof (Forall_lookup_1 _ _ _ _ Hq Hr2) as Hw2. simpl in *.
  apply (list_eq_same_length _ _ w); [done..|].
  intros j c1 c2 Hj Hc1 Hc2. specialize (Heq i j Hi Hj).
  unfold entry in Heq. rewrite Hr1, Hr2 in Heq. simpl in Heq. congruence.
Qed.

Lemma column_rect (h w : nat) (p : Grid) (i : nat) :
  rect h w p → (i < w)%nat →
  column p i = Ok ((λ row : list Z, default 0 (row !! i)) <$> p).
Proof.
  intros [_ Hrows] Hi. unfold column. apply mapM_Ok_fmap.
  intros row Hrow. rewrite List.Forall_forall in Hrows.
  specialize (Hrows row (proj1 (list_elem_of_In _ _) Hrow)).
  destruct (lookup_lt_is_Some_2 row i) as [c Hc]; [lia|]. by rewrite Hc.
Qed.

(** On a grid with at least one row the rotation returns the transposed
    and reversed grid. *)
Lemma rotateClockwise_rect (h w : nat) (p : Grid) :
  rect (S h) w p → rotateClockwise p = Ok (transposedReversed p w).
Proof.
  intros Hp. pose proof Hp as [Hlen Hrows]. unfold rotateClockwise.
  destruct p as [|first p']; [done|].
  change ((first :: p') !! 0%nat) with (Some first). cbv beta iota.
  assert (Hfirst : length first = w).
  { by apply (Forall_lookup_1 _ _ 0%nat _ Hrows). }
  rewrite Hfirst.
  rewrite (mapM_Ok_fmap _
    (λ i, reverse ((λ row : list Z, default 0 (row !! i)) <$> first :: p'))).
  - unfold transposedReversed, transpose. by rewrite <- list_fmap_compose.
  - intros i Hi. apply elem_of_seq in Hi.
    rewrite (column_rect (S h) w (first :: p') i Hp) by lia. done.
Qed.

Lemma rect_transposedReversed (h w : nat) (p : Grid) :
  rect h w p → rect w h (transposedReversed p w).
Proof.
  intros [Hlen _]. unfold transposedReversed, transpose. split.
  - by rewrite !length_fmap, length_seq.
  - rewrite <- list_fmap_compose. apply Forall_fmap, List.Forall_forall.
    intros i _. simpl. by rewrite length_reverse, length_fmap.
Qed.

Lemma entry_transposedReversed (h w : nat) (p : Grid) (i j : nat) :
  rect h w p → (i < w)%nat → (j < h)%nat →
  entry (transposedReversed p w) i j = entry p (h - S j)%nat i.
Proof.
  intros Hp Hi Hj. pose proof Hp as [Hlen Hrows].
  unfold entry at 1, transposedReversed, transpose.
  rewrite <- list_fmap_compose, list_lookup_fmap, lookup_seq_lt by done.
  simpl. rewrite reverse_lookup by (rewrite length_fmap; lia).
  rewrite length_fmap, Hlen, list_lookup_fmap.
  destruct (rect_entry h w p (h - S j)%nat i Hp) as [c Hc]; [lia|done|].
  rewrite Hc. unfold entry in Hc.
  destruct (p !! (h - S j)%nat) as [r|]; [|done]. simpl in *. by rewrite Hc.
Qed.

(** Four quarter turns of a rectangular grid give the grid back. *)
Lemma four_turns (h w : nat) (p : Grid) :
  rect h w p →
  transposedReversed
    (transposedReversed (transposedReversed (transposedReversed p w) h) w) h
  = p.
Proof.
  intros Hp.
  pose proof (rect_transposedReversed h w p Hp) as H1.
  pose proof (rect_transposedReversed w h _ H1) as H2.
  pose proof (rect_transposedReversed h w _ H2) as H3.
  pose proof (rect_transposedReversed w h _ H3) as H4.
  apply (rect_ext h w); [done..|]. intros i j Hi Hj.
  rewrite (entry_transposedReversed w h _ _ _ H3) by lia.
  rewrite (entry_transposedReversed h w _ _ _ H2) by lia.
  rewrite (entry_transposedReversed w h _ _ _ H1) by lia.
  rewrite (entry_transposedReversed h w _ _ _ Hp) by lia.
  f_equal; lia.
Qed.

Lemma TETROMINOS_shaped (k : Tetromino.name) : shaped (TETROMINOS k).
Proof.
  destruct k; simpl;
    [exists 0%nat, 3%nat | exists 1%nat, 1%nat | exists 1%nat, 2%nat
    | exists 1%nat, 2%nat | exists 1%nat, 2%nat | exists 1%nat, 2%nat
    | exists 1%nat, 2%nat];
    (split; [reflexivity | repeat constructor]).
Qed.

Lemma rect_width (h w : nat) (p : Grid) : rect (S h) w p → width p = w.
Proof.
  intros [Hlen Hrows]. destruct p as [|first p]; [done|].
  unfold width. simpl. by apply (Forall_lookup_1 _ _ 0%nat _ Hrows).
Qed.

Lemma rotateClockwise_shaped (p : TetrominoShape) :
  shaped p →
  ∃ q, rotateClockwise p = Ok q ∧ q = transposedReversed p (width p) ∧ shaped q.
Proof.
  intros (h & w & Hp). exists (transposedReversed p (S w)).
  rewrite (rect_width h (S w) p Hp). split; [|split; [done|]].
  - by apply (rotateClockwise_rect h).
  - exists w, h. by apply rect_transposedReversed.
Qed.

Lemma rotations_shaped (n : nat) (p : TetrominoShape) :
  shaped p → ∃ q, rotations n p = Ok q ∧ shaped q.
Proof.
  intros Hp. induction n as [|n (q & Hq & Hsq)]; simpl.
  - by exists p.
  - rewrite Hq. simpl.
    destruct (rotateClockwise_shaped q Hsq) as (q' & Hq' & _ & Hsq'). eauto.
Qed.

Lemma four_rotations (p : TetrominoShape) : shaped p → rotations 4 p = Ok p.
Proof.
  intros (h & w & Hp).
  pose proof (rect_transposedReversed _ _ p Hp) as H1.
  pose proof (rect_transposedReversed _ _ _ H1) as H2.
  pose proof (rect_transposedReversed _ _ _ H2) as H3.
  cbn [rotations mbind result_bind].
  rewrite (rotateClockwise_rect h (S w) p Hp). cbn [mbind result_bind].
  rewrite (rotateClockwise_rect w (S h) _ H1). cbn [mbind result_bind].
  rewrite (rotateClockwise_rect h (S w) _ H2). cbn [mbind result_bind].
  rewrite (rotateClockwise_rect w (S h) _ H3).
  f_equal. by apply four_turns.
Qed.

(** ** The invariant of the engine *)

Lemma emptyBoard_sized : sized emptyBoard.
Proof. split; [reflexivity|]. by apply Forall_replicate. Qed.

Lemma emptyBoard_stored : stored emptyBoard.
Proof.
  apply Forall_replicate, Forall_replicate. by left.
Qed.

Lemma initialState_Inv : Inv initialState.
Proof.
  split; [apply emptyBoard_sized|apply emptyBoard_stored|]. intros p Hp. done.
Qed.

Lemma stored_cells (g : Grid) :
  stored g ↔ ∀ Y X c, cellAt g Y X = Some c → c = Empty ∨ c = Settled.
Proof.
  split; [intros Hg Y X c; by apply stored_cellAt|].
  intros H. apply Forall_lookup. intros i r Hr.
  apply Forall_lookup. intros j c Hc.
  apply (H (Z.of_nat i) (Z.of_nat j)).
  unfold cellAt. rewrite js_get_nat, Hr. simpl. by rewrite js_get_nat.
Qed.

Lemma marks_stored (P : Z → Z → Prop) (b b' : Grid) :
  marks Settled P b b' → stored b → stored b'.
Proof.
  intros [_ Hm] Hb. apply stored_cells. intros Y X c Hc.
  destruct (Hm Y X) as [_ [Heq|(_ & _ & Hone)]].
  - rewrite Heq in Hc. by apply (stored_cellAt b Y X).
  - right. congruence.
Qed.

Lemma cleared_stored (g : Grid) : stored g → stored (cleared g).
Proof.
  intros Hg. apply Forall_app. split.
  - apply Forall_replicate, Forall_replicate. by left.
  - unfold remaining, stored in *. rewrite List.Forall_forall in *.
    intros r Hr. apply Hg. apply List.filter_In in Hr. tauto.
Qed.

(** The spawn column of a catalogue piece. *)
Lemma firstRowLength_shaped (p : TetrominoShape) :
  shaped p → firstRowLength p = Ok (Z.of_nat (width p)).
Proof.
  intros (h & w & [Hlen _]). destruct p as [|first p]; [done|]. done.
Qed.

Lemma spawn_inBounds (rnd : Tetromino.name) :
  inBounds (getRandomPiece rnd)
    (startColumn (Z.of_nat (width (getRandomPiece rnd)))) 0.
Proof.
  apply (canMove_true_inBounds emptyBoard); [apply emptyBoard_sized|].
  by destruct rnd; vm_compute.
Qed.

(** ** What a lock does *)

Lemma placePiece_locked (rnd : Tetromino.name) (st : State)
    (piece : TetrominoShape) :
  Inv st → currentPiece st = Some piece →
  ∃ placed spawn st' out,
    place (board st) piece (piecePosition st) = Ok placed ∧
    marks Settled (covered piece (Position.x (piecePosition st))
                     (Position.y (piecePosition st))) (board st) placed ∧
    clearFullRows placed = Ok (cleared placed, Z.of_nat (completeCount placed)) ∧
    canMove (board st) (getRandomPiece rnd)
      (startColumn (Z.of_nat (width (getRandomPiece rnd)))) 0 = Ok spawn ∧
    placePiece rnd st = Ok (st', out) ∧
    Locked rnd st piece placed spawn st' out.
Proof.
  intros [Hsized Hstored Hpiece] Hcur.
  destruct (Hpiece piece Hcur) as [_ Hin].
  destruct (place_marks (board st) piece (piecePosition st) Hsized Hin)
    as (placed & Hplace & Hmarks).
  pose proof (clearFullRows_sized_result placed (proj1 (proj1 Hmarks))) as Hclear.
  destruct (canMove_free (board st) (getRandomPiece rnd)
              (startColumn (Z.of_nat (width (getRandomPiece rnd)))) 0 Hsized)
    as (spawn & Hspawn & _).
  unfold placePiece. rewrite Hcur, Hplace. cbn [mbind result_bind].
  rewrite Hclear. cbn [mbind result_bind].
  rewrite (firstRowLength_shaped (getRandomPiece rnd) (TETROMINOS_shaped rnd)).
  cbn [mbind result_bind]. rewrite Hspawn. cbn [mbind result_bind].
  exists placed, spawn.
  destruct spawn; cbn [negb]; eexists _, _;
    (split; [done|]); (split; [done|]); (split; [done|]);
    (split; [done|]); (split; [done|]);
    destruct (Z.gtb_spec (Z.of_nat (completeCount placed)) 0);
    split; cbn; try done; lia.
Qed.

Lemma Locked_Inv (rnd : Tetromino.name) (st : State) (piece : TetrominoShape)
    (placed : Grid) (spawn : bool) (st' : State) (out : list OutMsg) :
  Inv st → currentPiece st = Some piece →
  marks Settled (covered piece (Position.x (piecePosition st))
                   (Position.y (piecePosition st))) (board st) placed →
  canMove (board st) (getRandomPiece rnd)
    (startColumn (Z.of_nat (width (getRandomPiece rnd)))) 0 = Ok spawn →
  Locked rnd st piece placed spawn st' out →
  Inv st'.
Proof.
  intros [Hsized Hstored Hpiece] Hcur Hmarks Hspawn HL.
  destruct HL as [Hb _ _ Hp Hpos _ _ _ _ _ _ _].
  split.
  - rewrite Hb. apply sized_cleared, Hmarks.
  - rewrite Hb. by apply cleared_stored, (marks_stored _ _ _ Hmarks).
  - intros p Hp'. rewrite Hp in Hp'. rewrite Hpos. destruct spawn.
    + injection Hp' as <-. split; [apply TETROMINOS_shaped|].
      apply spawn_inBounds.
    + injection Hp' as <-. by apply Hpiece.
Qed.

(** ** Every handler keeps the invariant *)

Lemma Good_same (st : State) : Inv st → Good st st [].
Proof. intros H. split; [done|constructor|lia]. Qed.

Lemma sendIfConnected_wire (st : State) (m : OutMsg) :
  wireMsg m → Forall wireMsg (sendIfConnected st m).
Proof.
  intros Hm. unfold sendIfConnected.
  destruct (ws_current st && connected st); repeat constructor; done.
Qed.

Lemma placePiece_Good (rnd : Tetromino.name) (st : State) :
  Inv st → ∃ st' out, placePiece rnd st = Ok (st', out) ∧ Good st st' out.
Proof.
  intros HI. destruct (currentPiece st) as [piece|] eqn:Hcur.
  - destruct (placePiece_locked rnd st piece HI Hcur)
      as (placed & spawn & st' & out & _ & Hmarks & _ & Hspawn & Hrun & HL).
    exists st', out. split; [done|].
    pose proof (Locked_Inv _ _ _ _ _ _ _ HI Hcur Hmarks Hspawn HL) as HI'.
    split; [done| |].
    + rewrite (locked_out _ _ _ _ _ _ _ HL). apply sendIfConnected_wire.
      destruct spawn; [|done]. simpl.
      rewrite <- (locked_board _ _ _ _ _ _ _ HL). split; apply HI'.
    + rewrite (locked_score _ _ _ _ _ _ _ HL). lia.
  - exists st, []. unfold placePiece. rewrite Hcur. split; [done|].
    by apply Good_same.
Qed.

Lemma Inv_moved (st : State) (piece : TetrominoShape) (x y : Z) :
  Inv st → currentPiece st = Some piece →
  canMove (board st) piece x y = Ok true →
  Inv (setPiecePosition (Position.mk x y) st).
Proof.
  intros [Hsized Hstored Hpiece] Hcur Hmove. split; [done..|].
  simpl. intros p Hp. rewrite Hcur in Hp. injection Hp as <-. split.
  - by apply Hpiece.
  - by apply (canMove_true_inBounds (board st)).
Qed.

Lemma moveDown_Good (rnd : Tetromino.name) (st : State) :
  Inv st → ∃ st' out, moveDown rnd st = Ok (st', out) ∧ Good st st' out.
Proof.
  intros HI. unfold moveDown.
  destruct (currentPiece st) as [piece|] eqn:Hcur;
    [|exists st, []; split; [done|by apply Good_same]].
  destruct (gameOver st); [exists st, []; split; [done|by apply Good_same]|].
  destruct (canMove_free (board st) piece (Position.x (piecePosition st))
              (Position.y (piecePosition st) + 1) (inv_sized _ HI))
    as (free & Hfree & _).
  rewrite Hfree. cbn [mbind result_bind]. destruct free.
  - eexists _, _. split; [done|]. split; [|constructor|simpl; lia].
    by apply (Inv_moved st piece).
  - by apply placePiece_Good.
Qed.

Lemma handleKeyPress_Good (key : Key) (rnd : Tetromino.name) (st : State) :
  Inv st →
  ∃ st' out, handleKeyPress key rnd st = Ok (st', out) ∧ Good st st' out.
Proof.
  intros HI. unfold handleKeyPress.
  destruct (currentPiece st) as [piece|] eqn:Hcur;
    [|exists st, []; split; [done|by apply Good_same]].
  destruct (gameOver st) eqn:Hover;
    [exists st, []; split; [done|by apply Good_same]|].
  destruct key.
  - destruct (canMove_free (board st) piece
                (Position.x (piecePosition st) - 1)
                (Position.y (piecePosition st)) (inv_sized _ HI))
      as (free & Hfree & _).
    rewrite Hfree. cbn [mbind result_bind]. destruct free.
    + eexists _, _. split; [done|]. split; [|constructor|simpl; lia].
      by apply (Inv_moved st piece).
    + exists st, []. split; [done|by apply Good_same].
  - destruct (canMove_free (board st) piece
                (Position.x (piecePosition st) + 1)
                (Position.y (piecePosition st)) (inv_sized _ HI))
      as (free & Hfree & _).
    rewrite Hfree. cbn [mbind result_bind]. destruct free.
    + eexists _, _. split; [done|]. split; [|constructor|simpl; lia].
      by apply (Inv_moved st piece).
    + exists st, []. split; [done|by apply Good_same].
  - destruct (moveDown_Good rnd st HI) as (st' & out & Hrun & HG).
    exists st', out. split; [|done].
    rewrite <- Hrun. unfold moveDown. by rewrite Hcur, Hover.
  - destruct (inv_piece _ HI piece Hcur) as [Hshaped _].
    destruct (rotateClockwise_shaped piece Hshaped) as (q & Hq & _ & Hsq).
    rewrite Hq. cbn [mbind result_bind].
    destruct (canMove_free (board st) q (Position.x (piecePosition st))
                (Position.y (piecePosition st)) (inv_sized _ HI))
      as (free & Hfree & _).
    rewrite Hfree. cbn [mbind result_bind]. destruct free.
    + eexists _, _. split; [done|]. split; [|constructor|simpl; lia].
      destruct HI as [Hsized Hstored Hpiece]. split; [done..|].
      simpl. intros p Hp. injection Hp as <-. split; [done|].
      by apply (canMove_true_inBounds (board st)).
    + exists st, []. split; [done|by apply Good_same].
  - exists st, []. split; [done|by apply Good_same].
Qed.

Lemma tick_Good (rnd : Tetromino.name) (st : State) :
  Inv st → ∃ st' out, tick rnd st = Ok (st', out) ∧ Good st st' out.
Proof.
  intros HI. unfold tick. destruct (negb (gameStarted st) || gameOver st).
  - exists st, []. split; [done|by apply Good_same].
  - by apply moveDown_Good.
Qed.

Lemma startGame_Inv (rnd : Tetromino.name) (st : State) :
  ∃ st', startGame rnd st = Ok st' ∧ Inv st' ∧ score st' = 0 ∧
         board st' = emptyBoard.
Proof.
  unfold startGame.
  rewrite (firstRowLength_shaped (getRandomPiece rnd) (TETROMINOS_shaped rnd)).
  cbn [mbind result_bind]. eexists. split; [done|]. split; [|done].
  split; simpl; [apply emptyBoard_sized|apply emptyBoard_stored|].
  intros p Hp. injection Hp as <-. split; [apply TETROMINOS_shaped|].
  apply spawn_inBounds.
Qed.

Lemma step_Inv (e : Event) (st : State) :
  Inv st →
  ∃ st' out, step e st = Ok (st', out) ∧ Inv st' ∧ Forall wireMsg out ∧
    (isStart e = false → score st ≤ score st') ∧
    (0 ≤ score st → 0 ≤ score st').
Proof.
  intros HI. destruct e as [key rnd|rnd|rnd|v|data|r| | |m]; simpl.
  - destruct (handleKeyPress_Good key rnd st HI) as (st' & out & -> & [H1 H2 H3]).
    exists st', out. do 3 (split; [done|]). split; intros; lia.
  - destruct (tick_Good rnd st HI) as (st' & out & -> & [H1 H2 H3]).
    exists st', out. do 3 (split; [done|]). split; intros; lia.
  - destruct (startGame_Inv rnd st) as (st' & -> & H1 & H2 & _).
    exists st', []. cbn [mbind result_bind]. do 3 (split; [done|]).
    split; [done|]. intros; lia.
  - eexists _, _. split; [done|]. split; [by destruct HI|].
    split; [done|]. split; intros; simpl; lia.
  - eexists _, _. split; [done|]. split; [by destruct HI, data|].
    split; [done|]. split; intros; destruct data; simpl; lia.
  - eexists _, _. split; [done|]. split; [by destruct HI|].
    split; [done|]. split; intros; simpl; lia.
  - eexists _, _. split; [done|]. split; [by destruct HI|].
    split; [done|]. split; intros; simpl; lia.
  - eexists _, _. split; [done|]. split; [by destruct HI|].
    split; [done|]. split; intros; simpl; lia.
  - eexists _, _. split; [done|]. split; [by destruct HI, m|].
    split; [done|]. split; intros; destruct m; simpl; lia.
Qed.

(** Every run from a state with the invariant goes through without an
    error; the invariant holds at the end and on every frame sent. *)
Lemma run_Inv (es : list Event) (st : State) :
  Inv st →
  ∃ st' out, run es st = Ok (st', out) ∧ Inv st' ∧ Forall wireMsg out ∧
    (forallb (λ e, negb (isStart e)) es = true → score st ≤ score st') ∧
    (0 ≤ score st → 0 ≤ score st').
Proof.
  revert st. induction es as [|e es IH]; intros st HI; simpl.
  - exists st, []. do 3 (split; [done|]). split; intros; lia.
  - destruct (step_Inv e st HI) as (st1 & out1 & -> & HI1 & Hw1 & Hm1 & Hn1).
    cbn [mbind result_bind].
    destruct (IH st1 HI1) as (st2 & out2 & -> & HI2 & Hw2 & Hm2 & Hn2).
    cbn [mbind result_bind]. exists st2, (out1 ++ out2).
    split; [done|]. split; [done|]. split; [by apply Forall_app|]. split.
    + intros Hes. apply andb_true_iff in Hes as [He Hes].
      apply negb_true_iff in He. specialize (Hm1 He). specialize (Hm2 Hes). lia.
    + auto.
Qed.

(** ** How far one event takes the score *)

Lemma placePiece_score_le (rnd : Tetromino.name) (st st' : State)
    (out : list OutMsg) :
  Inv st → placePiece rnd st = Ok (st', out) →
  score st' ≤ score st + 100 * BOARD_HEIGHT.
Proof.
  intros HI Hrun. destruct (currentPiece st) as [piece|] eqn:Hcur.
  - destruct (placePiece_locked rnd st piece HI Hcur)
      as (placed & spawn & st1 & out1 & _ & Hmarks & _ & _ & Hrun1 & HL).
    rewrite Hrun in Hrun1. injection Hrun1 as <- <-.
    rewrite (locked_score _ _ _ _ _ _ _ HL).
    pose proof (completeCount_le placed) as Hle.
    destruct Hmarks as [[Hlen _] _]. zlia.
  - unfold placePiece in Hrun. rewrite Hcur in Hrun.
    injection Hrun as <- <-. zlia.
Qed.

Lemma moveDown_score_le (rnd : Tetromino.name) (st st' : State)
    (out : list OutMsg) :
  Inv st → moveDown rnd st = Ok (st', out) →
  score st' ≤ score st + 100 * BOARD_HEIGHT.
Proof.
  intros HI. pose proof (placePiece_score_le rnd st st' out HI) as Hplace.
  unfold moveDown.
  destruct (currentPiece st) as [piece|]; [|intros [= <- <-]; zlia].
  destruct (gameOver st); [intros [= <- <-]; zlia|].
  destruct (canMove (board st) piece (Position.x (piecePosition st))
              (Position.y (piecePosition st) + 1)) as [[]| | |];
    cbn [mbind result_bind]; try discriminate; [|exact Hplace].
  intros [= <- <-]. simpl. zlia.
Qed.

Lemma step_score_le (e : Event) (st st' : State) (out : list OutMsg) :
  Inv st → step e st = Ok (st', out) →
  score st' ≤ Z.max 0 (score st) + 100 * BOARD_HEIGHT.
Proof.
  intros HI.
  destruct e as [key rnd|rnd|rnd|v|data|r| | |m]; cbn [step].
  - pose proof (moveDown_score_le rnd st st' out HI) as Hdown.
    unfold handleKeyPress.
    destruct (currentPiece st) as [piece|] eqn:Hcur; [|intros [= <- <-]; zlia].
    destruct (gameOver st) eqn:Hover; [intros [= <- <-]; zlia|].
    destruct key.
    + destruct (canMove (board st) piece (Position.x (piecePosition st) - 1)
                  (Position.y (piecePosition st))) as [[]| | |];
        cbn [mbind result_bind]; try discriminate;
        intros [= <- <-]; simpl; zlia.
    + destruct (canMove (board st) piece (Position.x (piecePosition st) + 1)
                  (Position.y (piecePosition st))) as [[]| | |];
        cbn [mbind result_bind]; try discriminate;
        intros [= <- <-]; simpl; zlia.
    + intros Hrun. specialize (Hdown Hrun). lia.
    + destruct (rotateClockwise piece) as [rotated| | |];
        cbn [mbind result_bind]; try discriminate.
      destruct (canMove (board st) rotated (Position.x (piecePosition st))
                  (Position.y (piecePosition st))) as [[]| | |];
        cbn [mbind result_bind]; try discriminate;
        intros [= <- <-]; simpl; zlia.
    + intros [= <- <-]. zlia.
  - pose proof (moveDown_score_le rnd st st' out HI) as Hdown.
    unfold tick. destruct (negb (gameStarted st) || gameOver st).
    + intros [= <- <-]. zlia.
    + intros Hrun. specialize (Hdown Hrun). lia.
  - destruct (startGame_Inv rnd st) as (st1 & -> & _ & Hscore & _).
    cbn [mbind result_bind]. intros [= <- <-]. rewrite Hscore. zlia.
  - intros [= <- <-]. simpl. zlia.
  - intros [= <- <-]. destruct data; simpl; zlia.
  - intros [= <- <-]. simpl. zlia.
  - intros [= <- <-]. simpl. zlia.
  - intros [= <- <-]. simpl. zlia.
  - intros [= <- <-]. destruct m; simpl; zlia.
Qed.

Lemma run_score_le (es : list Event) (st st' : State) (out : list OutMsg) :
  Inv st → run es st = Ok (st', out) →
  score st' ≤ Z.max 0 (score st) + 100 * BOARD_HEIGHT * Z.of_nat (length es).
Proof.
  revert st out. induction es as [|e es IH]; intros st out HI; cbn [run].
  - intros [= <- <-]. cbn [length]. zlia.
  - destruct (step_Inv e st HI) as (st1 & out1 & Hstep & HI1 & _).
    rewrite Hstep. cbn [mbind result_bind].
    destruct (run es st1) as [[st2 out2]| | |] eqn:Hrun;
      cbn [mbind result_bind]; try discriminate.
    intros [= <- <-].
    pose proof (step_score_le e st st1 out1 HI Hstep) as H1.
    pose proof (IH st1 out2 HI1 Hrun) as H2.
    cbn [length]. zlia.
Qed.

(** ** Rendering *)

Lemma marks_overlay (d : Grid) (y x : Z) :
  sized d →
  ∃ d', (if (y >=? 0) && (y <? BOARD_HEIGHT) && (x >=? 0) && (x <? BOARD_WIDTH)
         then setCell d y x 2 else Ok d) = Ok d' ∧
        marks Active
          (λ Y X, Y = y ∧ X = x ∧ Y < BOARD_HEIGHT ∧ 0 ≤ X < BOARD_WIDTH) d d'.
Proof.
  intros Hd.
  destruct ((y >=? 0) && (y <? BOARD_HEIGHT) && (x >=? 0) && (x <? BOARD_WIDTH))
    eqn:Hguard.
  - rewrite !andb_true_iff in Hguard. destruct Hguard as [[[H1 H2] H3] H4].
    assert (0 ≤ y < BOARD_HEIGHT ∧ 0 ≤ x < BOARD_WIDTH) as [Hy Hx] by lia.
    destruct (setCell_spec d y x 2 Hd Hy Hx) as (d' & Hset & Hs & Hcells).
    exists d'. split; [done|]. split; [done|]. intros Y X.
    rewrite Hcells. case_decide as Hdec.
    + destruct Hdec as [-> ->]. split; [done|]. right. repeat split; auto; lia.
    + split; [tauto|by left].
  - exists d. split; [done|]. apply marks_none; [done|].
    intros Y X (-> & -> & HY & HX).
    rewrite !andb_false_iff in Hguard. destruct Hguard as [[[H|H]|H]|H]; lia.
Qed.

Lemma render_cols_spec (d : Grid) (pos : Position.t) (row : Z)
    (cells : list Z) (col : Z) :
  sized d →
  ∃ d', render_cols d pos row cells col = Ok d' ∧
        marks Active
          (λ Y X, ∃ j c, cells !! j = Some c ∧ c ≠ 0 ∧
             Y = Position.y pos + row ∧
             X = Position.x pos + (col + Z.of_nat j) ∧
             Y < BOARD_HEIGHT ∧ 0 ≤ X < BOARD_WIDTH) d d'.
Proof.
  revert d col. induction cells as [|c cells IH]; intros d col Hd; simpl.
  { exists d. split; [done|]. apply marks_none; [done|].
    intros Y X (j & c & Hj & _). done. }
  destruct (truthy c) eqn:Hc.
  - apply truthy_true in Hc.
    destruct (marks_overlay d (Position.y pos + row) (Position.x pos + col) Hd)
      as (d1 & -> & Hm1).
    simpl. destruct (IH d1 (col + 1) (proj1 Hm1)) as (d' & Hd' & Hm2).
    exists d'. split; [done|]. eapply marks_then; [exact Hm1|exact Hm2|].
    intros Y X. split.
    + intros (j & c' & Hj & Hc' & -> & -> & HY & HX). destruct j as [|j].
      * left. repeat split; auto; lia.
      * right. exists j, c'. repeat split; auto; lia.
    + intros [(-> & -> & HY & HX)|(j & c' & Hj & Hc' & -> & -> & HY & HX)].
      * exists 0%nat, c. repeat split; auto; lia.
      * exists (S j), c'. repeat split; auto; lia.
  - apply truthy_false in Hc.
    destruct (IH d (col + 1) Hd) as (d' & Hd' & [Hs Hm]).
    exists d'. split; [done|]. split; [done|]. intros Y X.
    destruct (Hm Y X) as [Hma Hmb].
    assert (Hiff : (∃ j c', cells !! j = Some c' ∧ c' ≠ 0 ∧
                      Y = Position.y pos + row ∧
                      X = Position.x pos + (col + 1 + Z.of_nat j) ∧
                      Y < BOARD_HEIGHT ∧ 0 ≤ X < BOARD_WIDTH) ↔
                   (∃ j c', (c :: cells) !! j = Some c' ∧ c' ≠ 0 ∧
                      Y = Position.y pos + row ∧
                      X = Position.x pos + (col + Z.of_nat j) ∧
                      Y < BOARD_HEIGHT ∧ 0 ≤ X < BOARD_WIDTH)).
    { split.
      - intros (j & c' & Hj & Hc' & -> & -> & HY & HX). exists (S j), c'.
        repeat split; auto; lia.
      - intros (j & c' & Hj & Hc' & -> & -> & HY & HX). destruct j as [|j].
        + injection Hj as <-. done.
        + exists j, c'. repeat split; auto; lia. }
    rewrite <- Hiff. done.
Qed.

Lemma render_rows_spec (d : Grid) (pos : Position.t)
    (rows : TetrominoShape) (row : Z) :
  sized d →
  ∃ d', render_rows d pos rows row = Ok d' ∧
        marks Active
          (λ Y X, ∃ i r j c, rows !! i = Some r ∧ r !! j = Some c ∧ c ≠ 0 ∧
             Y = Position.y pos + (row + Z.of_nat i) ∧
             X = Position.x pos + Z.of_nat j ∧
             Y < BOARD_HEIGHT ∧ 0 ≤ X < BOARD_WIDTH) d d'.
Proof.
  revert d row. induction rows as [|r rows IH]; intros d row Hd; simpl.
  { exists d. split; [done|]. apply marks_none; [done|].
    intros Y X (i & r & j & c & Hi & _). done. }
  destruct (render_cols_spec d pos row r 0 Hd) as (d1 & -> & Hm1).
  simpl. destruct (IH d1 (row + 1) (proj1 Hm1)) as (d' & Hd' & Hm2).
  exists d'. split; [done|]. eapply marks_then; [exact Hm1|exact Hm2|].
  intros Y X. split.
  - intros (i & r' & j & c & Hi & Hj & Hc & -> & -> & HY & HX).
    destruct i as [|i].
    + injection Hi as <-. left. exists j, c. repeat split; auto; lia.
    + right. exists i, r', j, c. repeat split; auto; lia.
  - intros [(j & c & Hj & Hc & -> & -> & HY & HX)
           |(i & r' & j & c & Hi & Hj & Hc & -> & -> & HY & HX)].
    + exists 0%nat, r, j, c. repeat split; auto; lia.
    + exists (S i), r', j, c. repeat split; auto; lia.
Qed.

(** The own board is painted as the board with the cells under the falling
    piece set to [Active]; the opponent's board is painted as it is. *)
Lemma render_sized (st : State) :
  sized (board st) →
  ∃ own v, renderBoard st (board st) false = Ok own ∧
    render st = Ok v ∧
    (connected st = true → gameStarted st = true →
     v = Boards (score st) own (gameOver st) (opponentBoard st)) ∧
    ∀ Y X, cellAt own Y X = cellAt (board st) Y X ∨
           (cellAt own Y X = Some Active ∧
            ∃ piece, currentPiece st = Some piece ∧
              covered piece (Position.x (piecePosition st))
                (Position.y (piecePosition st)) Y X).
Proof.
  intros Hsized.
  assert (Hopp : renderBoard st (opponentBoard st) true = Ok (opponentBoard st)).
  { unfold renderBoard. by destruct (currentPiece st). }
  assert (Hown : ∃ own, renderBoard st (board st) false = Ok own ∧
            ∀ Y X, cellAt own Y X = cellAt (board st) Y X ∨
                   (cellAt own Y X = Some Active ∧
                    ∃ piece, currentPiece st = Some piece ∧
                      covered piece (Position.x (piecePosition st))
                        (Position.y (piecePosition st)) Y X)).
  { unfold renderBoard.
    destruct (currentPiece st) as [piece|] eqn:Hcur; cbn [negb].
    - destruct (render_rows_spec (board st) (piecePosition st) piece 0 Hsized)
        as (own & -> & [_ Hm]).
      exists own. split; [done|]. intros Y X.
      destruct (Hm Y X) as [_ [Heq|(HP & _ & Hact)]]; [by left|].
      right. split; [done|]. exists piece. split; [done|].
      destruct HP as (i & r & j & c & Hi & Hj & Hc & -> & -> & _).
      exists i, j. split; [by exists r, c|]. split; [lia|done].
    - exists (board st). split; [done|]. by left. }
  destruct Hown as (own & Hown & Hcells). exists own.
  unfold render. rewrite Hown, Hopp. cbn [mbind result_bind].
  destruct (connected st), (gameStarted st); cbn [negb];
    eexists; (split; [done|]); (split; [done|]); (split; [|done]);
    intros; done.
Qed.

(** ** Arrays as objects: the rotation *)

Lemma extends_refl (h : store) : extends h h.
Proof. by intros a o. Qed.

Lemma extends_trans (h1 h2 h3 : store) :
  extends h1 h2 → extends h2 h3 → extends h1 h3.
Proof. intros H12 H23 a o Ha. by apply H23, H12. Qed.

Lemma extends_alloc (h : store) (o : object) : extends h (alloc h o).1.
Proof. intros a o' Ha. simpl. by apply lookup_app_l_Some. Qed.

Lemma extends_length (h h' : store) : extends h h' → (length h ≤ length h')%nat.
Proof.
  intros He. destruct (decide (length h = 0)%nat) as [->|Hne]; [lia|].
  destruct (lookup_lt_is_Some_2 h (length h - 1)) as [o Ho]; [lia|].
  apply He, lookup_lt_Some in Ho. lia.
Qed.

Lemma extends_numbersAt (h h' : store) (a : nat) (cells : list Z) :
  extends h h' → numbersAt h a = Some cells → numbersAt h' a = Some cells.
Proof.
  unfold numbersAt. intros He Ha.
  destruct (h !! a) as [[cs|rs]|] eqn:Hh; try done.
  by rewrite (He a _ Hh).
Qed.

Lemma extends_rowsAt (h h' : store) (a : nat) (rows : list nat) :
  extends h h' → rowsAt h a = Some rows → rowsAt h' a = Some rows.
Proof.
  unfold rowsAt. intros He Ha.
  destruct (h !! a) as [[cs|rs]|] eqn:Hh; try done.
  by rewrite (He a _ Hh).
Qed.

Lemma gridAt_holds (h : store) (a : nat) (g : Grid) :
  gridAt h a = Some g ↔ ∃ rows, rowsAt h a = Some rows ∧ holds h rows g.
Proof.
  unfold gridAt, holds. destruct (rowsAt h a) as [rows|]; simpl.
  - rewrite mapM_Some. split.
    + intros Hg. by exists rows.
    + by intros (rows' & [= <-] & Hg).
  - split; [done|]. by intros (rows' & Hrows & _).
Qed.

Lemma extends_holds (h h' : store) (rows : list nat) (g : Grid) :
  extends h h' → holds h rows g → holds h' rows g.
Proof.
  intros He. apply List.Forall2_impl. intros r cells. by apply extends_numbersAt.
Qed.

Lemma extends_gridAt (h h' : store) (a : nat) (g : Grid) :
  extends h h' → gridAt h a = Some g → gridAt h' a = Some g.
Proof.
  rewrite !gridAt_holds. intros He (rows & Hrows & Hg). exists rows.
  eauto using extends_rowsAt, extends_holds.
Qed.

Lemma mapM_Ok_inv {A B : Type} (f : A → result B) (l : list A) (k : list B) :
  mapM f l = Ok k → Forall2 (λ a b, f a = Ok b) l k.
Proof.
  revert k. induction l as [|a l IH]; intros k; simpl.
  - intros [= <-]. constructor.
  - destruct (f a) as [b| | |] eqn:Hb; try done. simpl.
    destruct (mapM f l) as [k'| | |]; try done. simpl.
    intros [= <-]. constructor; auto.
Qed.

Lemma mapM_Forall2 {A B C : Type} (f : A → result C) (g : B → result C)
    (l : list A) (k : list B) :
  Forall2 (λ a b, f a = g b) l k → mapM f l = mapM g k.
Proof.
  induction 1 as [|a b l k Hab _ IH]; simpl; [done|]. by rewrite Hab, IH.
Qed.

Lemma column_holds (h : store) (rows : list nat) (p : Grid) (i : nat) :
  holds h rows p → mapM (cellS h i) rows = column p i.
Proof.
  intros Hp. unfold column. apply mapM_Forall2.
  eapply List.Forall2_impl; [|exact Hp]. intros r cells Hr. simpl in Hr.
  unfold cellS. by rewrite Hr.
Qed.

Lemma columnReversedS_spec (h : store) (piece : nat) (p : Grid) (i : nat)
    (col : list Z) :
  gridAt h piece = Some p → column p i = Ok col →
  ∃ h1 a, columnReversedS h piece i = Ok (h1, a) ∧
    extends h h1 ∧ numbersAt h1 a = Some (reverse col).
Proof.
  intros Hp Hcol. apply gridAt_holds in Hp as (rows & Hrows & Hp).
  unfold columnReversedS. rewrite Hrows.
  rewrite (column_holds h rows p i Hp), Hcol. cbn [mbind result_bind alloc].
  unfold numbersAt at 1. rewrite list_lookup_middle by done.
  eexists _, _. split; [done|]. split.
  - intros a o Ha. rewrite list_lookup_insert_ne.
    + by apply lookup_app_l_Some.
    + apply lookup_lt_Some in Ha. lia.
  - unfold numbersAt. rewrite list_lookup_insert_eq; [done|].
    rewrite length_app. simpl. lia.
Qed.

Lemma rotateColumnsS_spec (h : store) (piece : nat) (p : Grid)
    (indices : list nat) (q : Grid) :
  gridAt h piece = Some p →
  mapM (λ i, col ← column p i; Ok (reverse col)) indices = Ok q →
  ∃ h' newRows, rotateColumnsS h piece indices = Ok (h', newRows) ∧
    extends h h' ∧ holds h' newRows q.
Proof.
  revert h q. induction indices as [|i indices IH]; intros h q Hp Hq; simpl in *.
  - injection Hq as <-. exists h, []. split; [done|].
    split; [apply extends_refl|constructor].
  - destruct (column p i) as [col| | |] eqn:Hcol; try done.
    cbn [mbind result_bind] in Hq.
    destruct (mapM (λ i, col ← column p i; Ok (reverse col)) indices)
      as [q'| | |] eqn:Hq'; try done.
    cbn [mbind result_bind] in Hq. injection Hq as <-.
    destruct (columnReversedS_spec h piece p i col Hp Hcol)
      as (h1 & a & -> & He1 & Ha).
    cbn [mbind result_bind].
    destruct (IH h1 q' (extends_gridAt _ _ _ _ He1 Hp) eq_refl)
      as (h2 & rest & -> & He2 & Hrest).
    cbn [mbind result_bind]. exists h2, (a :: rest). split; [done|].
    split; [by eapply extends_trans|].
    constructor; [by apply (extends_numbersAt h1)|done].
Qed.

(** The rotation on the store computes the rotation of the grid it reads,
    stores it in new arrays, and leaves every array that was there as it
    was. *)
Lemma rotateClockwiseS_spec (h : store) (piece : nat) (p q : Grid) :
  gridAt h piece = Some p → rotateClockwise p = Ok q →
  ∃ h' a, rotateClockwiseS h piece = Ok (h', a) ∧
    gridAt h' a = Some q ∧ extends h h' ∧ (length h ≤ a)%nat.
Proof.
  intros Hgrid Hq. pose proof Hgrid as Hp.
  apply gridAt_holds in Hp as (rows & Hrows & Hp).
  unfold rotateClockwiseS, rotateClockwise in *. rewrite Hrows.
  destruct p as [|first p]; [done|].
  inversion Hp as [|r0 first' rows' p' Hr0 Hrest]; subst.
  cbn [lookup list_lookup] in *. rewrite Hr0.
  destruct (rotateColumnsS_spec h piece (first :: p) _ q Hgrid Hq)
    as (h1 & newRows & -> & He & Hnew).
  cbn [mbind result_bind alloc]. eexists _, _. split; [done|].
  split; [|split].
  - apply gridAt_holds. exists newRows. split.
    + unfold rowsAt. by rewrite list_lookup_middle.
    + apply (extends_holds h1); [|done]. apply (extends_alloc h1).
  - eapply extends_trans; [exact He|]. apply (extends_alloc h1).
  - by apply extends_length.
Qed.

(** ** Arrays as objects: rendering *)

Lemma agree_refl (n : nat) (h : store) : agree n h h.
Proof. by intros a Ha. Qed.

Lemma agree_trans (n : nat) (h1 h2 h3 : store) :
  agree n h1 h2 → agree n h2 h3 → agree n h1 h3.
Proof. intros H12 H23 a Ha. by rewrite H23, H12. Qed.

Section OwnedCopy.

(** The copy at address [d], made at or after address [n]. *)
Context (n d : nat).

Lemma setCellS_spec (h : store) (g g' : Grid) (y x v : Z) :
  owned n h d g → setCell g y x v = Ok g' →
  ∃ h', setCellS h d y x v = Ok h' ∧ owned n h' d g' ∧ agree n h h'.
Proof.
  intros (rows & Hrows & Hnodup & Hfresh & Hg) Hset.
  unfold setCell in Hset. destruct (js_get g y) as [cells|] eqn:Hy; [|done].
  destruct (js_set cells x v) as [cells'| | |] eqn:Hx; try done.
  cbn [mbind result_bind] in Hset. injection Hset as <-.
  apply js_get_Some in Hy as [Hy0 Hy].
  destruct (Forall2_lookup_r _ _ _ _ _ Hg Hy) as (r & Hr & Hcells).
  simpl in Hcells.
  unfold setCellS. rewrite Hrows.
  rewrite (proj2 (js_get_Some rows y r)) by done.
  rewrite Hcells, Hx. cbn [mbind result_bind].
  assert (Hrlt : (r < length h)%nat).
  { unfold numbersAt in Hcells. destruct (h !! r) eqn:Hh; [|done].
    by apply lookup_lt_Some in Hh. }
  assert (Hdr : d ≠ r).
  { intros ->. unfold rowsAt, numbersAt in *.
    destruct (h !! r) as [[?|?]|]; done. }
  eexists. split; [done|]. split.
  - exists rows. split; [|split; [done|split; [done|]]].
    + unfold rowsAt. by rewrite list_lookup_insert_ne.
    + apply Forall2_same_length_lookup_2.
      { rewrite length_insert. by apply Forall2_length in Hg. }
      intros i ri ci Hri Hci. simpl.
      destruct (decide (i = Z.to_nat y)) as [->|Hi].
      * rewrite Hr in Hri. injection Hri as <-.
        rewrite list_lookup_insert_eq in Hci by by apply lookup_lt_Some in Hy.
        injection Hci as <-. unfold numbersAt.
        by rewrite list_lookup_insert_eq.
      * rewrite list_lookup_insert_ne in Hci by done.
        assert (ri ≠ r).
        { intros ->. apply Hi. by apply (NoDup_lookup rows _ _ r). }
        unfold numbersAt. rewrite list_lookup_insert_ne by done.
        by apply (Forall2_lookup_lr _ _ _ _ _ _ Hg Hri Hci).
  - intros a Ha. apply list_lookup_insert_ne.
    rewrite Forall_lookup in Hfresh. specialize (Hfresh _ _ Hr). simpl in *. lia.
Qed.

Lemma render_colsS_spec (h : store) (g g' : Grid)
    (pos : Position.t) (row : Z) (cells : list Z) (col : Z) :
  owned n h d g → render_cols g pos row cells col = Ok g' →
  ∃ h', render_colsS h d pos row cells col = Ok h' ∧ owned n h' d g' ∧
        agree n h h'.
Proof.
  revert h g col. induction cells as [|c cells IH]; intros h g col Hd Hg; simpl in *.
  { injection Hg as <-. exists h. split; [done|]. split; [done|apply agree_refl]. }
  destruct (truthy c); [|by apply (IH h g)].
  destruct ((Position.y pos + row >=? 0) && (Position.y pos + row <? BOARD_HEIGHT)
            && (Position.x pos + col >=? 0) && (Position.x pos + col <? BOARD_WIDTH)).
  - destruct (setCell g (Position.y pos + row) (Position.x pos + col) 2)
      as [g1| | |] eqn:Hset; try done.
    cbn [mbind result_bind] in Hg.
    destruct (setCellS_spec h g g1 _ _ _ Hd Hset) as (h1 & -> & Hd1 & Ha1).
    cbn [mbind result_bind].
    destruct (IH h1 g1 (col + 1) Hd1 Hg) as (h' & Hh' & Hd' & Ha').
    exists h'. split; [done|]. split; [done|]. by eapply agree_trans.
  - cbn [mbind result_bind] in *. by apply (IH h g).
Qed.

Lemma render_rowsS_spec (h : store) (g g' : Grid)
    (pos : Position.t) (rows : TetrominoShape) (row : Z) :
  owned n h d g → render_rows g pos rows row = Ok g' →
  ∃ h', render_rowsS h d pos rows row = Ok h' ∧ owned n h' d g' ∧
        agree n h h'.
Proof.
  revert h g row. induction rows as [|r rows IH]; intros h g row Hd Hg; simpl in *.
  { injection Hg as <-. exists h. split; [done|]. split; [done|apply agree_refl]. }
  destruct (render_cols g pos row r 0) as [g1| | |] eqn:Hcols; try done.
  cbn [mbind result_bind] in Hg.
  destruct (render_colsS_spec h g g1 _ _ _ _ Hd Hcols) as (h1 & -> & Hd1 & Ha1).
  cbn [mbind result_bind].
  destruct (IH h1 g1 (row + 1) Hd1 Hg) as (h' & Hh' & Hd' & Ha').
  exists h'. split; [done|]. split; [done|]. by eapply agree_trans.
Qed.

End OwnedCopy.

Lemma copyRowsS_spec (h : store) (rows : list nat) (g : Grid) :
  holds h rows g →
  ∃ h1, copyRowsS h rows = Ok (h1, seq (length h) (length rows)) ∧
    extends h h1 ∧ holds h1 (seq (length h) (length rows)) g ∧
    length h1 = (length h + length rows)%nat.
Proof.
  revert h g. induction rows as [|r rows IH]; intros h g Hg.
  - inversion Hg; subst. exists h. split; [done|]. split; [apply extends_refl|].
    split; [constructor|simpl; lia].
  - inversion Hg as [|? cells ? g' Hr Hrest]; subst. simpl in Hr.
    cbn [copyRowsS]. rewrite Hr. cbn [alloc].
    assert (He : extends h (h ++ [Numbers cells])) by apply (extends_alloc h).
    destruct (IH (h ++ [Numbers cells]) g' (extends_holds _ _ _ _ He Hrest))
      as (h1 & Hcopy & He1 & Hh1 & Hlen).
    rewrite length_app in *. cbn [length] in *.
    replace (length h + 1)%nat with (S (length h)) in * by lia.
    rewrite Hcopy. cbn [mbind result_bind]. exists h1. split; [done|].
    split; [by eapply extends_trans|]. split; [|lia].
    cbn [seq]. constructor; [|done].
    apply (extends_numbersAt (h ++ [Numbers cells])); [done|].
    unfold numbersAt. by rewrite list_lookup_middle.
Qed.

Lemma copyGridS_spec (h : store) (b : nat) (g : Grid) :
  gridAt h b = Some g →
  ∃ h1 d, copyGridS h b = Ok (h1, d) ∧ extends h h1 ∧
    owned (length h) h1 d g ∧ (length h ≤ d)%nat.
Proof.
  intros Hg. apply gridAt_holds in Hg as (rows & Hrows & Hg).
  unfold copyGridS. rewrite Hrows.
  destruct (copyRowsS_spec h rows g Hg) as (h1 & -> & He & Hh1 & Hlen).
  cbn [mbind result_bind alloc]. eexists _, _. split; [done|].
  assert (He' : extends h1 (h1 ++ [Rows (seq (length h) (length rows))]))
    by apply (extends_alloc h1).
  split; [by eapply extends_trans|]. split; [|lia].
  exists (seq (length h) (length rows)). split; [|split; [|split]].
  - unfold rowsAt. by rewrite list_lookup_middle.
  - apply NoDup_seq.
  - apply Forall_seq. intros; lia.
  - by apply (extends_holds h1).
Qed.

Lemma owned_gridAt (n : nat) (h : store) (d : nat) (g : Grid) :
  owned n h d g → gridAt h d = Some g.
Proof.
  intros (rows & Hrows & _ & _ & Hg). apply gridAt_holds. by exists rows.
Qed.

(** renderBoard on the store paints what renderBoard computes from the grid
    it reads, in arrays made for this render, and leaves every array that
    was there as it was. *)
Lemma renderBoardS_spec (st : State) (h : store) (b : nat) (g d : Grid)
    (isOpponent : bool) :
  gridAt h b = Some g → renderBoard st g isOpponent = Ok d →
  ∃ h' a, renderBoardS st h b isOpponent = Ok (h', a) ∧
    gridAt h' a = Some d ∧ extends h h' ∧ (length h ≤ a)%nat.
Proof.
  intros Hg Hd.
  destruct (copyGridS_spec h b g Hg) as (h1 & a & Hcopy & He & Hown & Ha).
  unfold renderBoardS, renderBoard in *. rewrite Hcopy.
  cbn [mbind result_bind].
  assert (Hplain : d = g →
    ∃ h' a', Ok (h1, a) = Ok (h', a') ∧
      gridAt h' a' = Some d ∧ extends h h' ∧ (length h ≤ a')%nat).
  { intros ->. exists h1, a. split; [done|]. split; [|done].
    by apply (owned_gridAt (length h)). }
  destruct (currentPiece st) as [piece|]; [|apply Hplain; congruence].
  destruct isOpponent; cbn [negb] in *; [apply Hplain; congruence|].
  destruct (render_rowsS_spec _ _ _ _ _ _ _ _ Hown Hd) as (h2 & -> & Hown2 & Hag).
  cbn [mbind result_bind]. exists h2, a. split; [done|].
  split; [by apply (owned_gridAt (length h))|]. split; [|done].
  intros l o Hl. rewrite Hag by by apply lookup_lt_Some in Hl. by apply He.
Qed.

(** ** The example games *)

Ltac solve_sized := split; [reflexivity | repeat constructor].
Ltac solve_stored :=
  repeat ((left; reflexivity) || (right; reflexivity) || constructor).

Ltac solve_Inv :=
  split;
  [ solve_sized
  | vm_compute; solve_stored
  | let p := fresh "p" in let Hp := fresh "Hp" in
    intros p Hp; injection Hp as <-; split;
    [ eexists _, _; split; [reflexivity | repeat constructor]
    | apply (canMove_true_inBounds emptyBoard);
      [solve_sized | vm_compute; reflexivity] ] ].

Lemma beforeLineLock_Inv : Inv beforeLineLock.
Proof. solve_Inv. Qed.

Lemma boardStore_grid : gridAt boardStore 20 = Some (board beforeLineLock).
Proof. vm_compute. reflexivity. Qed.

Lemma boards_after_message :
  ∃ own, render (onmessage (opponent_state oneLineBoard 300) beforeLineLock)
         = Ok (Boards 0 own false oneLineBoard).
Proof. eexists. vm_compute. reflexivity. Qed.

Lemma bottomLine_runs :
  ∃ out, run bottomLine initialState = Ok (beforeLineLock, out).
Proof. eexists. vm_compute. reflexivity. Qed.

Lemma beforeLineLock_placed :
  place (board beforeLineLock) (TETROMINOS Tetromino.O)
    (piecePosition beforeLineLock) = Ok lineBoard.
Proof. vm_compute. reflexivity. Qed.

Lemma lineBoard_fullCount : fullCount lineBoard = 1%nat.
Proof. vm_compute. reflexivity. Qed.

Lemma twoLineBoard_cleared :
  clearFullRows twoLineBoard = Ok (twoLinesCleared, 2).
Proof. vm_compute. reflexivity. Qed.

(** ** The frames of a lock *)

(** While connected a lock sends exactly one frame: [game_over] when
    [canMove] refuses the new piece on the board of the render, and
    [game_state] with the new board otherwise; both carry the score of the
    render. *)
Lemma lock_sends_one_frame (rnd : Tetromino.name) (st : State)
    (piece : TetrominoShape) :
  Inv st → currentPiece st = Some piece →
  ws_current st = true → connected st = true →
  ∃ spawn st' m,
    canMove (board st) (getRandomPiece rnd)
      (startColumn (Z.of_nat (width (getRandomPiece rnd)))) 0 = Ok spawn ∧
    placePiece rnd st = Ok (st', [m]) ∧
    (if spawn
     then gameOver st' = gameOver st ∧ m = game_state (board st') (score st)
     else gameOver st' = true ∧ m = game_over (score st)).
Proof.
  intros HI Hcur Hws Hconn.
  destruct (placePiece_locked rnd st piece HI Hcur)
    as (placed & spawn & st' & out & _ & _ & _ & Hspawn & Hrun & HL).
  destruct HL as [Hb _ Hover _ _ Hout _ _ _ _ _ _].
  unfold sendIfConnected in Hout. rewrite Hws, Hconn in Hout. simpl in Hout.
  subst out. eexists spawn, st', _. split; [done|]. split; [done|].
  destruct spawn; rewrite ?Hb; done.
Qed.

(** * Main results *)

(** C1. For every 20x10 board of the engine, every shape and every integer
    offset (x, y), [canMove] returns, and it returns true if and only if
    every occupied cell of the shape, at board position (x+col, y+row), has
    its column in [0, width), its row below height (negative rows are
    allowed) and, when its row is not negative, a board cell that is not
    Settled; otherwise it returns false. *)
Theorem canMove_iff_every_cell_fits
    (board : Grid) (piece : TetrominoShape) (x y : Z) :
  sized board → stored board →
  (canMove board piece x y = Ok true ↔
   ∀ row col, occupied piece row col → fits board x y row col) ∧
  (canMove board piece x y = Ok false ↔
   ¬ ∀ row col, occupied piece row col → fits board x y row col).
Proof.
  intros Hsized Hstored.
  destruct (canMove_free board piece x y Hsized) as (b & Hb & Hspec).
  assert (Hiff : b = true ↔
            ∀ row col, occupied piece row col → fits board x y row col).
  { rewrite Hspec. split; intros H row col Hocc.
    - apply free_fits; auto.
    - apply free_fits; auto. }
  rewrite Hb. split.
  - rewrite <- Hiff. split; congruence.
  - rewrite <- Hiff. destruct b; split; intros H; congruence.
Qed.

Lemma canMove_iff_every_cell_fits_witness :
  sized emptyBoard ∧ stored emptyBoard ∧
  (canMove emptyBoard (TETROMINOS Tetromino.T) 4 0 = Ok true ↔
   ∀ row col, occupied (TETROMINOS Tetromino.T) row col →
              fits emptyBoard 4 0 row col).
Proof.
  assert (Hs : sized emptyBoard) by solve_sized.
  assert (Ht : stored emptyBoard) by (vm_compute; solve_stored).
  split; [exact Hs|]. split; [exact Ht|].
  exact (proj1 (canMove_iff_every_cell_fits emptyBoard
                  (TETROMINOS Tetromino.T) 4 0 Hs Ht)).
Defined.

(** C2. The spawn test of a lock reads the board from before the lock.
    First run: nine O pieces are piled up in columns 4 and 5 and the tenth
    is locked on rows 0 and 1; on the board that results no O piece fits at
    the spawn position, yet the engine is not in game over and has sent a
    [game_state] frame.  Second run: the lock of [lastLine] clears the
    bottom line, an I piece fits at its spawn position on the board that
    results, yet the engine is in game over and has sent [game_over]. *)
Theorem spawn_test_reads_board_before_lock :
  (∃ st0 out0 st out,
     run nineSquares initialState = Ok (st0, out0) ∧
     step (Interval Tetromino.O) st0 = Ok (st, out) ∧
     placePiece Tetromino.O st0 = Ok (st, out) ∧
     canMove (board st) (getRandomPiece Tetromino.O)
       (startColumn (Z.of_nat (width (getRandomPiece Tetromino.O)))) 0
       = Ok false ∧
     gameOver st = false ∧
     out = [game_state (board st) 0]) ∧
  (∃ st0 out0 st out,
     run lastLine initialState = Ok (st0, out0) ∧
     step (Interval Tetromino.I) st0 = Ok (st, out) ∧
     placePiece Tetromino.I st0 = Ok (st, out) ∧
     canMove (board st) (getRandomPiece Tetromino.I)
       (startColumn (Z.of_nat (width (getRandomPiece Tetromino.I)))) 0
       = Ok true ∧
     gameOver st = true ∧
     out = [game_over 0]).
Proof.
  split; eexists _, _, _, _.
  - split; [vm_compute; reflexivity|].
    split; [vm_compute; reflexivity|]. by vm_compute.
  - split; [vm_compute; reflexivity|].
    split; [vm_compute; reflexivity|]. by vm_compute.
Qed.

(** C3. The frames of a lock carry the score from before the lock.  First
    run: the lock of [bottomLine] clears one line and is not terminal; the
    score becomes 100, and the [game_state] frame carries the board after
    the clearing with score 0.  Second run: the lock of [lastLine] clears
    one line and ends the game; the score becomes 100, and the [game_over]
    frame carries 0. *)
Theorem frames_carry_score_before_lock :
  (∃ out0 st out,
     run bottomLine initialState = Ok (beforeLineLock, out0) ∧
     step (Interval Tetromino.T) beforeLineLock = Ok (st, out) ∧
     placePiece Tetromino.T beforeLineLock = Ok (st, out) ∧
     score beforeLineLock = 0 ∧ score st = 100 ∧ gameOver st = false ∧
     out = [game_state (board st) 0]) ∧
  (∃ st0 out0 st out,
     run lastLine initialState = Ok (st0, out0) ∧
     step (Interval Tetromino.O) st0 = Ok (st, out) ∧
     placePiece Tetromino.O st0 = Ok (st, out) ∧
     score st0 = 0 ∧ score st = 100 ∧ gameOver st = true ∧
     out = [game_over 0]).
Proof.
  split.
  - eexists _, _, _. split; [vm_compute; reflexivity|].
    split; [vm_compute; reflexivity|]. by vm_compute.
  - eexists _, _, _, _. split; [vm_compute; reflexivity|].
    split; [vm_compute; reflexivity|]. by vm_compute.
Qed.

(** C4. For every 20x10 board, every shape and every offset (x, y) with
    [canMove] true: placing the shape there succeeds; every occupied cell in
    a board row >= 0 lands on a cell that was not Settled and is Settled
    afterwards; and every cell that changed is such a cell, so that occupied
    cells in rows < 0 write nothing. *)
Theorem place_after_canMove_never_overlaps
    (board : Grid) (piece : TetrominoShape) (x y : Z) :
  sized board → canMove board piece x y = Ok true →
  ∃ placed, place board piece (Position.mk x y) = Ok placed ∧
    (∀ row col, occupied piece row col → 0 ≤ y + Z.of_nat row →
       cellAt board (y + Z.of_nat row) (x + Z.of_nat col) ≠ Some Settled ∧
       cellAt placed (y + Z.of_nat row) (x + Z.of_nat col) = Some Settled) ∧
    (∀ Y X, cellAt placed Y X ≠ cellAt board Y X →
       covered piece x y Y X ∧ 0 ≤ Y ∧
       cellAt board Y X ≠ Some Settled ∧ cellAt placed Y X = Some Settled).
Proof.
  intros Hsized Hmove.
  destruct (canMove_free board piece x y Hsized) as (b & Hb & Hspec).
  rewrite Hmove in Hb. injection Hb as <-.
  destruct Hspec as [Hfree _]. specialize (Hfree eq_refl).
  destruct (place_marks board piece (Position.mk x y) Hsized)
    as (placed & Hplace & [Hs Hm]).
  { by apply (canMove_true_inBounds board). }
  simpl in Hm. exists placed. split; [done|]. split.
  - intros row col Hocc Hpos. destruct (Hfree row col Hocc) as (_ & _ & Hcell).
    split.
    + rewrite (Hcell Hpos). unfold Settled. congruence.
    + apply (Hm (y + Z.of_nat row) (x + Z.of_nat col)); [|done].
      by exists row, col.
  - intros Y X Hneq. destruct (Hm Y X) as [_ [Heq|(Hcov & HY & Hone)]]; [done|].
    repeat split; auto.
    destruct Hcov as (row & col & Hocc & -> & ->).
    destruct (Hfree row col Hocc) as (_ & _ & Hcell).
    rewrite (Hcell HY). unfold Settled. congruence.
Qed.

Lemma place_after_canMove_never_overlaps_witness :
  ∃ placed,
    place emptyBoard (TETROMINOS Tetromino.T) (Position.mk 4 (-1)) = Ok placed ∧
    (∀ row col, occupied (TETROMINOS Tetromino.T) row col →
       0 ≤ -1 + Z.of_nat row →
       cellAt emptyBoard (-1 + Z.of_nat row) (4 + Z.of_nat col) ≠ Some Settled ∧
       cellAt placed (-1 + Z.of_nat row) (4 + Z.of_nat col) = Some Settled) ∧
    (∀ Y X, cellAt placed Y X ≠ cellAt emptyBoard Y X →
       covered (TETROMINOS Tetromino.T) 4 (-1) Y X ∧ 0 ≤ Y ∧
       cellAt emptyBoard Y X ≠ Some Settled ∧ cellAt placed Y X = Some Settled).
Proof.
  apply (place_after_canMove_never_overlaps emptyBoard
           (TETROMINOS Tetromino.T) 4 (-1)).
  - solve_sized.
  - vm_compute. reflexivity.
Defined.

(** C5. For every 20x10 grid the line-clearing step returns.  It returns
    the number of full lines, the lines whose cells are all [Settled], and
    the grid made of that many lines of empty cells on top of the lines
    that are not full, in their order; the result is again 20x10.  Without
    a full line it returns 0 and the grid itself; with exactly one, it
    returns 1 and the grid with one empty line on top, the lines above the
    removed one moved down by one and those below left in place. *)
Theorem clearFullRows_removes_completed_lines (g : Grid) :
  sized g →
  ∃ g' k, clearFullRows g = Ok (g', k) ∧
    k = Z.of_nat (fullCount g) ∧
    g' = replicate (fullCount g) emptyLine ++ notFull g ∧
    sized g' ∧
    (Forall (λ r, ¬ fullLine r) g → k = 0 ∧ g' = g) ∧
    (∀ above r below,
       g = above ++ r :: below → fullLine r →
       Forall (λ r, ¬ fullLine r) above → Forall (λ r, ¬ fullLine r) below →
       k = 1 ∧ g' = emptyLine :: above ++ below).
Proof.
  intros Hg. eexists _, _. split.
  { apply clearFullRows_sized_result. apply Hg. }
  rewrite completeCount_fullCount, remaining_notFull.
  change emptyRow with emptyLine.
  split; [done|]. split; [done|]. split.
  { rewrite <- completeCount_fullCount, <- remaining_notFull.
    by apply sized_cleared. }
  split.
  - intros Hnone. rewrite (proj2 (fullCount_none g) Hnone).
    split; [done|]. by rewrite (notFull_none g Hnone).
  - intros above r below -> Hr Habove Hbelow.
    assert (Hcount : fullCount (above ++ r :: below) = 1%nat).
    { change (r :: below) with ([r] ++ below).
      rewrite !fullCount_app, (proj2 (fullCount_none above) Habove),
        (proj2 (fullCount_none below) Hbelow).
      unfold fullCount. by rewrite filter_cons, decide_True. }
    rewrite Hcount. split; [done|].
    unfold notFull. rewrite list.filter_app, filter_cons, decide_False by tauto.
    fold (notFull above). fold (notFull below).
    by rewrite (notFull_none above Habove), (notFull_none below Hbelow).
Qed.

Lemma clearFullRows_removes_completed_lines_witness :
  clearFullRows shiftBoard = Ok (shiftedBoard, 1).
Proof.
  destruct (clearFullRows_removes_completed_lines shiftBoard)
    as (g' & k & Hrun & _ & _ & _ & _ & Hone); [solve_sized|].
  destruct (Hone (replicate 17 emptyLine ++ [[1; 0; 0; 0; 0; 0; 0; 0; 0; 0]])
              (replicate 10 Settled) [[0; 1; 1; 1; 1; 1; 1; 1; 1; 1]])
    as [Hk Hg'].
  - reflexivity.
  - repeat constructor.
  - apply (bool_decide_unpack _). vm_compute. exact I.
  - apply (bool_decide_unpack _). vm_compute. exact I.
  - rewrite Hk, Hg' in Hrun. exact Hrun.
Defined.

(** C6. A lock changes the score by exactly 100 times the number of full
    lines, the lines whose cells are all [Settled], of the board with the
    piece written in: more than before when there is one, unchanged when
    there is none.  So from a state of the engine the score never goes down
    as long as no new game is started, and a score that is not negative
    stays so.  The scores are those the code computes as integers: the
    score at the start and the number of events are such that no sum leaves
    the range from [- maxSafe] to [maxSafe], and none does. *)
Theorem lock_scores_hundred_per_line (st : State) :
  Inv st →
  (∀ rnd piece, currentPiece st = Some piece → exactScores (score st) 1 →
     ∃ placed newBoard linesCleared st' out,
       place (board st) piece (piecePosition st) = Ok placed ∧
       clearFullRows placed = Ok (newBoard, linesCleared) ∧
       linesCleared = Z.of_nat (fullCount placed) ∧
       placePiece rnd st = Ok (st', out) ∧
       score st' = score st + 100 * linesCleared ∧
       - maxSafe ≤ score st' ≤ maxSafe ∧
       (linesCleared = 0 → score st' = score st) ∧
       (0 < linesCleared → score st < score st')) ∧
  (∀ es, exactScores (score st) (length es) →
     forallb (λ e, negb (isStart e)) es = true →
     ∃ st' out, run es st = Ok (st', out) ∧
       score st ≤ score st' ∧ score st' ≤ maxSafe) ∧
  (∀ es, exactScores (score st) (length es) → 0 ≤ score st →
     ∃ st' out, run es st = Ok (st', out) ∧
       0 ≤ score st' ∧ score st' ≤ maxSafe).
Proof.
  intros HI. split; [|split].
  - intros rnd piece Hcur [Hlow Hhigh].
    destruct (placePiece_locked rnd st piece HI Hcur)
      as (placed & spawn & st' & out & Hplace & Hmarks & Hclear & _ & Hrun & HL).
    exists placed, (cleared placed), (Z.of_nat (completeCount placed)), st', out.
    do 2 (split; [done|]). split; [by rewrite completeCount_fullCount|].
    split; [done|].
    rewrite (locked_score _ _ _ _ _ _ _ HL).
    pose proof (completeCount_le placed) as Hle.
    destruct Hmarks as [[Hlen _] _].
    split; [done|]. split; [zlia|]. split; lia.
  - intros es [Hlow Hhigh] Hes.
    destruct (run_Inv es st HI) as (st' & out & Hrun & _ & _ & Hmono & _).
    pose proof (run_score_le es st st' out HI Hrun) as Hle.
    exists st', out. split; [done|]. split; [by apply Hmono|lia].
  - intros es [Hlow Hhigh] Hscore.
    destruct (run_Inv es st HI) as (st' & out & Hrun & _ & _ & _ & Hnn).
    pose proof (run_score_le es st st' out HI Hrun) as Hle.
    exists st', out. split; [done|]. split; [by apply Hnn|lia].
Qed.

Lemma lock_scores_hundred_per_line_witness :
  (∃ st' out,
     place (board beforeLineLock) (TETROMINOS Tetromino.O)
       (piecePosition beforeLineLock) = Ok lineBoard ∧
     fullCount lineBoard = 1%nat ∧
     placePiece Tetromino.T beforeLineLock = Ok (st', out) ∧
     score beforeLineLock = 0 ∧ score st' = 100) ∧
  (∃ st' out,
     run [Interval Tetromino.T; KeyDown ArrowDown Tetromino.I] beforeLineLock
     = Ok (st', out) ∧
     score beforeLineLock ≤ score st' ∧ score st' ≤ maxSafe) ∧
  (∃ st' out,
     run [Interval Tetromino.T; ClickStart Tetromino.I; Interval Tetromino.I]
       beforeLineLock = Ok (st', out) ∧
     0 ≤ score st' ∧ score st' ≤ maxSafe).
Proof.
  destruct (lock_scores_hundred_per_line beforeLineLock beforeLineLock_Inv)
    as (Hlock & Hmono & Hnn).
  split; [|split].
  - destruct (Hlock Tetromino.T (TETROMINOS Tetromino.O))
      as (placed & newBoard & k & st' & out & Hplace & _ & Hk & Hrun & Hscore & _).
    + reflexivity.
    + split; by vm_compute.
    + rewrite beforeLineLock_placed in Hplace. injection Hplace as <-.
      rewrite lineBoard_fullCount in Hk. rewrite Hk in Hscore.
      exists st', out. split; [exact beforeLineLock_placed|].
      split; [exact lineBoard_fullCount|]. split; [exact Hrun|].
      split; [reflexivity|exact Hscore].
  - apply (Hmono [Interval Tetromino.T; KeyDown ArrowDown Tetromino.I]).
    + split; by vm_compute.
    + reflexivity.
  - apply (Hnn [Interval Tetromino.T; ClickStart Tetromino.I;
                Interval Tetromino.I]).
    + split; by vm_compute.
    + by vm_compute.
Defined.

(** C7. Every shape reached from one of the seven catalogue shapes by any
    number of quarter turns is reached without an error; four more quarter
    turns give it back, equal cell for cell; one quarter turn of it returns
    the transposed grid with every row reversed, whose cell (i, j) is the
    cell (height - 1 - j, i) of the shape; and with the arrays in a store
    the turned shape is put into new arrays, while the arrays of the shape
    and every other array that was there stay as they were. *)
Theorem four_rotations_give_shape_back (k : Tetromino.name) (n : nat) :
  ∃ p, rotations n (TETROMINOS k) = Ok p ∧
    rotations 4 p = Ok p ∧
    rotateClockwise p = Ok (transposedReversed p (width p)) ∧
    (∀ i j, (i < width p)%nat → (j < length p)%nat →
       entry (transposedReversed p (width p)) i j
       = entry p (length p - S j)%nat i) ∧
    ∀ h a, gridAt h a = Some p →
      ∃ h' a', rotateClockwiseS h a = Ok (h', a') ∧
        gridAt h' a' = Some (transposedReversed p (width p)) ∧
        extends h h' ∧ (length h ≤ a')%nat.
Proof.
  destruct (rotations_shaped n (TETROMINOS k) (TETROMINOS_shaped k))
    as (p & Hp & Hsp).
  exists p. split; [done|]. split; [by apply four_rotations|].
  destruct (rotateClockwise_shaped p Hsp) as (q & Hq & -> & _).
  split; [done|]. split.
  - destruct Hsp as (h & w & Hrect).
    rewrite (rect_width h (S w) p Hrect). intros i j Hi Hj.
    pose proof Hrect as [Hlen _]. rewrite Hlen in *.
    by apply (entry_transposedReversed (S h) (S w)).
  - intros h a Ha. by apply (rotateClockwiseS_spec h a p).
Qed.

Lemma four_rotations_give_shape_back_witness :
  gridAt shapeStore 2 = Some (TETROMINOS Tetromino.T) ∧
  ∃ h' a', rotateClockwiseS shapeStore 2 = Ok (h', a') ∧
    gridAt h' a' = Some (transposedReversed (TETROMINOS Tetromino.T) 3) ∧
    extends shapeStore h' ∧ (length shapeStore ≤ a')%nat.
Proof.
  split; [reflexivity|].
  destruct (four_rotations_give_shape_back Tetromino.T 0)
    as (p & Hp & _ & _ & _ & Hstore).
  injection Hp as <-. apply (Hstore shapeStore 2%nat). reflexivity.
Defined.

(** C8. An [opponent_state] frame with a grid replaces the stored opponent
    snapshot by that grid, whatever the state of the own engine, which it
    leaves as it is; rendering the snapshot as the opponent's board gives
    exactly that grid, without the falling piece, and so every render that
    shows the boards shows that grid on the opponent's side. *)
Theorem opponent_state_replaces_snapshot (st : State) (g : Grid) (s : Z) :
  ∃ st', step (WsMessage (opponent_state g s)) st = Ok (st', []) ∧
    opponentBoard st' = g ∧
    renderBoard st' (opponentBoard st') true = Ok g ∧
    (∀ sc own over opp, render st' = Ok (Boards sc own over opp) → opp = g) ∧
    board st' = board st ∧ currentPiece st' = currentPiece st ∧
    piecePosition st' = piecePosition st ∧ score st' = score st ∧
    gameOver st' = gameOver st ∧ gameStarted st' = gameStarted st ∧
    connected st' = connected st.
Proof.
  eexists. split; [reflexivity|]. simpl.
  split; [done|].
  assert (Hopp : ∀ st0, renderBoard st0 g true = Ok g).
  { intros st0. unfold renderBoard. by destruct (currentPiece st0). }
  split; [apply Hopp|]. split; [|done].
  intros sc own over opp. unfold render. simpl. rewrite Hopp.
  destruct (connected st), (gameStarted st); cbn [negb]; try done.
  destruct (renderBoard _ (board st) false); cbn [mbind result_bind];
    congruence.
Qed.

Lemma opponent_state_replaces_snapshot_witness :
  ∃ st' own,
    step (WsMessage (opponent_state oneLineBoard 300)) beforeLineLock
      = Ok (st', []) ∧
    opponentBoard st' = oneLineBoard ∧
    render st' = Ok (Boards 0 own false oneLineBoard).
Proof.
  destruct (opponent_state_replaces_snapshot beforeLineLock oneLineBoard 300)
    as (st' & Hstep & Hopp & _ & Hrender & _).
  destruct boards_after_message as [own Hr].
  exists st', own. split; [exact Hstep|]. split; [exact Hopp|].
  injection Hstep as <-. exact Hr.
Defined.

(** C9. In every run from the initial state no handler fails, every cell of
    the stored board is 0 or 1, and so is every cell of every board sent in
    a [game_state] frame.  The grid painted for the own board differs from
    the stored board only by cells set to 2 under the falling piece, and
    with the arrays in a store it is written into arrays made for that
    render: the array of the stored board, its rows and every other array
    that was there stay as they were. *)
Theorem stored_and_sent_boards_hold_zero_or_one (es : list Event) :
  ∃ st out, run es initialState = Ok (st, out) ∧
    (∀ Y X c, cellAt (board st) Y X = Some c → c = Empty ∨ c = Settled) ∧
    (∀ b s, game_state b s ∈ out →
       ∀ Y X c, cellAt b Y X = Some c → c = Empty ∨ c = Settled) ∧
    ∃ own v, renderBoard st (board st) false = Ok own ∧
      render st = Ok v ∧
      (connected st = true → gameStarted st = true →
       v = Boards (score st) own (gameOver st) (opponentBoard st)) ∧
      (∀ Y X, cellAt own Y X = cellAt (board st) Y X ∨
              cellAt own Y X = Some Active) ∧
      ∀ h b, gridAt h b = Some (board st) →
        ∃ h' d, renderBoardS st h b false = Ok (h', d) ∧
          gridAt h' d = Some own ∧ extends h h' ∧ (length h ≤ d)%nat.
Proof.
  destruct (run_Inv es initialState initialState_Inv)
    as (st & out & Hrun & HI & Hwire & _).
  exists st, out. split; [done|]. split; [|split].
  - intros Y X c. by apply stored_cellAt, HI.
  - intros b s Hin Y X c. rewrite Forall_lookup in Hwire.
    apply list_elem_of_lookup in Hin as [i Hi].
    destruct (Hwire i _ Hi) as [_ Hb]. by apply stored_cellAt.
  - destruct (render_sized st (inv_sized _ HI))
      as (own & v & Hown & Hrender & Hshown & Hcells).
    exists own, v. do 3 (split; [done|]). split.
    + intros Y X. destruct (Hcells Y X) as [?|[? _]]; auto.
    + intros h b Hb. by apply (renderBoardS_spec st h b (board st)).
Qed.

Lemma stored_and_sent_boards_hold_zero_or_one_witness :
  gridAt boardStore 20 = Some (board beforeLineLock) ∧
  ∃ own h' d,
    render beforeLineLock
      = Ok (Boards 0 own false (opponentBoard beforeLineLock)) ∧
    renderBoardS beforeLineLock boardStore 20 false = Ok (h', d) ∧
    gridAt h' d = Some own ∧ extends boardStore h' ∧
    (length boardStore ≤ d)%nat.
Proof.
  split; [exact boardStore_grid|].
  destruct (stored_and_sent_boards_hold_zero_or_one bottomLine)
    as (st & out & Hrun & _ & _ & own & v & _ & Hrender & Hshown & _ & Hstore).
  destruct bottomLine_runs as [out0 Hrun0]. rewrite Hrun0 in Hrun.
  assert (Hst : st = beforeLineLock) by congruence. clear Hrun. subst st.
  destruct (Hstore boardStore 20%nat boardStore_grid) as (h' & d & Hd).
  exists own, h', d. split; [|exact Hd].
  rewrite Hrender. f_equal. exact (Hshown eq_refl eq_refl).
Defined.

(** C10. Without an active piece ([currentPiece] is null) the lock does
    nothing: the state, with board, score, game-over flag, position and
    connection, is the one before, and no frame is sent. *)
Theorem placePiece_without_piece (rnd : Tetromino.name) (st : State) :
  currentPiece st = None → placePiece rnd st = Ok (st, []).
Proof. intros Hcur. unfold placePiece. by rewrite Hcur. Qed.

Lemma placePiece_without_piece_witness :
  placePiece Tetromino.S initialState = Ok (initialState, []).
Proof. apply placePiece_without_piece. reflexivity. Defined.

(** * Further properties of the code *)

(** ** What one event does to the engine *)

Lemma moveDown_effect (rnd : Tetromino.name) (st : State) :
  Inv st → ∃ st' out, moveDown rnd st = Ok (st', out) ∧ Effect rnd st st' out.
Proof.
  intros HI. unfold moveDown.
  destruct (currentPiece st) as [piece|] eqn:Hcur;
    [|exists st, []; split; [done|by apply effect_none]].
  destruct (gameOver st) eqn:Hover;
    [exists st, []; split; [done|by apply effect_none]|].
  destruct (canMove_free (board st) piece (Position.x (piecePosition st))
              (Position.y (piecePosition st) + 1) (inv_sized _ HI))
    as (free & Hfree & _).
  rewrite Hfree. cbn [mbind result_bind]. destruct free.
  - eexists _, _. split; [done|].
    eapply effect_move; [done..| |done|done]. right. done.
  - destruct (placePiece_locked rnd st piece HI Hcur)
      as (placed & spawn & st' & out & _ & Hmarks & _ & Hspawn & -> & HL).
    exists st', out. split; [done|]. by eapply effect_lock.
Qed.

Lemma handleKeyPress_effect (key : Key) (rnd : Tetromino.name) (st : State) :
  Inv st →
  ∃ st' out, handleKeyPress key rnd st = Ok (st', out) ∧ Effect rnd st st' out.
Proof.
  intros HI. unfold handleKeyPress.
  destruct (currentPiece st) as [piece|] eqn:Hcur;
    [|exists st, []; split; [done|by apply effect_none]].
  destruct (gameOver st) eqn:Hover;
    [exists st, []; split; [done|by apply effect_none]|].
  destruct key.
  - destruct (canMove (board st) piece (Position.x (piecePosition st) - 1)
                (Position.y (piecePosition st))) as [[|]| | |] eqn:Hfree;
      try (destruct (canMove_free (board st) piece
                       (Position.x (piecePosition st) - 1)
                       (Position.y (piecePosition st)) (inv_sized _ HI))
             as (b & Hb & _); congruence);
      cbn [mbind result_bind]; eexists _, _; (split; [done|]).
    + eapply effect_move; [done..| |done|done]. left. auto.
    + by apply effect_none.
  - destruct (canMove (board st) piece (Position.x (piecePosition st) + 1)
                (Position.y (piecePosition st))) as [[|]| | |] eqn:Hfree;
      try (destruct (canMove_free (board st) piece
                       (Position.x (piecePosition st) + 1)
                       (Position.y (piecePosition st)) (inv_sized _ HI))
             as (b & Hb & _); congruence);
      cbn [mbind result_bind]; eexists _, _; (split; [done|]).
    + eapply effect_move; [done..| |done|done]. left. auto.
    + by apply effect_none.
  - destruct (moveDown_effect rnd st HI) as (st' & out & Hrun & HE).
    exists st', out. split; [|done].
    rewrite <- Hrun. unfold moveDown. by rewrite Hcur, Hover.
  - destruct (inv_piece _ HI piece Hcur) as [Hshaped _].
    destruct (rotateClockwise_shaped piece Hshaped) as (q & Hq & _ & Hsq).
    rewrite Hq. cbn [mbind result_bind].
    destruct (canMove_free (board st) q (Position.x (piecePosition st))
                (Position.y (piecePosition st)) (inv_sized _ HI))
      as (free & Hfree & _).
    rewrite Hfree. cbn [mbind result_bind]. destruct free.
    + eexists _, _. split; [done|]. by eapply effect_rotate.
    + exists st, []. split; [done|by apply effect_none].
  - exists st, []. split; [done|by apply effect_none].
Qed.

Lemma tick_effect (rnd : Tetromino.name) (st : State) :
  Inv st → ∃ st' out, tick rnd st = Ok (st', out) ∧ Effect rnd st st' out.
Proof.
  intros HI. unfold tick. destruct (negb (gameStarted st) || gameOver st).
  - exists st, []. split; [done|by apply effect_none].
  - by apply moveDown_effect.
Qed.

(** An event that is no key and no tick is the start of a game or leaves
    the engine alone; none of them sends a frame. *)
Lemma step_other (e : Event) (st : State) :
  engineDraw e = None →
  ∃ st', step e st = Ok (st', []) ∧
    ((∃ rnd, e = ClickStart rnd ∧ startGame rnd st = Ok st') ∨
     (isStart e = false ∧ sameEngine st st')).
Proof.
  intros He. destruct e as [key rnd|rnd|rnd|v|data|r| | |m]; try done; simpl.
  - destruct (startGame_Inv rnd st) as (st' & Hst' & _).
    rewrite Hst'. exists st'. split; [done|]. left. by exists rnd.
  - eexists. split; [done|]. right. by repeat split.
  - eexists. split; [done|]. right. destruct data; by repeat split.
  - eexists. split; [done|]. right. by repeat split.
  - eexists. split; [done|]. right. by repeat split.
  - eexists. split; [done|]. right. by repeat split.
  - eexists. split; [done|]. right. destruct m; by repeat split.
Qed.

Lemma step_engine (e : Event) (rnd : Tetromino.name) (st : State) :
  engineDraw e = Some rnd → Inv st →
  ∃ st' out, step e st = Ok (st', out) ∧ Effect rnd st st' out.
Proof.
  intros He HI. destruct e as [key rnd'|rnd'|rnd'|v|data|r| | |m]; try done;
    injection He as ->; simpl.
  - by apply handleKeyPress_effect.
  - by apply tick_effect.
Qed.

(** The keys other than the down key: no frame, and the piece is where it
    was or at a place in the same row that [canMove] accepts. *)
Lemma handleKeyPress_sideways (key : Key) (rnd : Tetromino.name)
    (st st' : State) (out : list OutMsg) :
  key ≠ ArrowDown → handleKeyPress key rnd st = Ok (st', out) →
  out = [] ∧ board st' = board st ∧ score st' = score st ∧
  gameOver st' = gameOver st ∧ gameStarted st' = gameStarted st ∧
  sameSession st st' ∧
  Position.y (piecePosition st') = Position.y (piecePosition st) ∧
  (st' = st ∨
   ∃ piece, currentPiece st' = Some piece ∧
     canMove (board st') piece (Position.x (piecePosition st'))
       (Position.y (piecePosition st')) = Ok true).
Proof.
  intros Hkey Hrun. unfold handleKeyPress in Hrun.
  assert (Hsame : Ok (st, []) = Ok (st', out) →
    out = [] ∧ board st' = board st ∧ score st' = score st ∧
    gameOver st' = gameOver st ∧ gameStarted st' = gameStarted st ∧
    sameSession st st' ∧
    Position.y (piecePosition st') = Position.y (piecePosition st) ∧
    (st' = st ∨
     ∃ piece, currentPiece st' = Some piece ∧
       canMove (board st') piece (Position.x (piecePosition st'))
         (Position.y (piecePosition st')) = Ok true)).
  { intros [= <- <-]. repeat split; auto. }
  destruct (currentPiece st) as [piece|] eqn:Hcur; [|by apply Hsame].
  destruct (gameOver st) eqn:Hover; [by apply Hsame|].
  destruct key; try done; try by apply Hsame.
  - destruct (canMove (board st) piece (Position.x (piecePosition st) - 1)
                (Position.y (piecePosition st))) as [[|]| | |] eqn:Hfree;
      try done; cbn [mbind result_bind] in Hrun; [|by apply Hsame].
    injection Hrun as <- <-. repeat split; auto. right. by exists piece.
  - destruct (canMove (board st) piece (Position.x (piecePosition st) + 1)
                (Position.y (piecePosition st))) as [[|]| | |] eqn:Hfree;
      try done; cbn [mbind result_bind] in Hrun; [|by apply Hsame].
    injection Hrun as <- <-. repeat split; auto. right. by exists piece.
  - destruct (rotateClockwise piece) as [rotated| | |] eqn:Hrot; try done.
    cbn [mbind result_bind] in Hrun.
    destruct (canMove (board st) rotated (Position.x (piecePosition st))
                (Position.y (piecePosition st))) as [[|]| | |] eqn:Hfree;
      try done; cbn [mbind result_bind] in Hrun; [|by apply Hsame].
    injection Hrun as <- <-. repeat split; auto. right. by exists rotated.
Qed.

Lemma Effect_session (rnd : Tetromino.name) (st st' : State)
    (out : list OutMsg) :
  Effect rnd st st' out → sameSession st st'.
Proof.
  intros [-> _|piece x y _ _ _ _ -> _|piece q _ _ _ _ -> _
         |piece placed spawn _ _ _ _ _ HL]; try by repeat split.
  destruct HL. by repeat split.
Qed.

Lemma Effect_Inv (rnd : Tetromino.name) (st st' : State) (out : list OutMsg) :
  Inv st → Effect rnd st st' out → Inv st'.
Proof.
  intros HI [-> _|piece x y Hcur _ Hmove _ -> _|piece q Hcur _ Hq Hmove -> _
            |piece placed spawn Hcur _ _ Hmarks Hspawn HL].
  - done.
  - by apply (Inv_moved st piece).
  - destruct (inv_piece _ HI piece Hcur) as [Hshaped _].
    destruct (rotateClockwise_shaped piece Hshaped) as (q' & Hq' & _ & Hsq).
    rewrite Hq in Hq'. injection Hq' as <-.
    destruct HI as [Hsized Hstored Hpiece]. split; [done..|].
    simpl. intros p Hp. injection Hp as <-. split; [done|].
    by apply (canMove_true_inBounds (board st)).
  - by apply (Locked_Inv rnd st piece placed spawn st' out).
Qed.

(** ** What every reached state has *)

Lemma completeCount_replicate_emptyRow (n : nat) :
  completeCount (replicate n emptyRow) = 0%nat.
Proof.
  unfold completeCount. induction n as [|n IH]; [done|].
  cbn [replicate List.filter]. rewrite emptyRow_not_complete. exact IH.
Qed.

Lemma completeCount_remaining (g : Grid) : completeCount (remaining g) = 0%nat.
Proof.
  unfold completeCount, remaining. induction g as [|r g IH]; [done|].
  cbn [List.filter]. destruct (rowComplete r) eqn:Hr; cbn [negb]; [done|].
  cbn [List.filter]. by rewrite Hr.
Qed.

Lemma completeCount_cleared (g : Grid) : completeCount (cleared g) = 0%nat.
Proof.
  unfold cleared.
  by rewrite completeCount_app, completeCount_replicate_emptyRow,
    completeCount_remaining.
Qed.

Lemma occupied_entry (p : TetrominoShape) (row col : nat) :
  occupied p row col ↔ ∃ c, entry p row col = Some c ∧ c ≠ 0.
Proof.
  unfold occupied, entry. split.
  - intros (r & c & Hr & Hc & Hne). exists c. by rewrite Hr.
  - intros (c & Hc & Hne). destruct (p !! row) as [r|] eqn:Hr; [|done].
    by exists r, c.
Qed.

(** The occupied cells of the turned shape are those of the shape, turned. *)
Lemma occupied_transposedReversed (h w : nat) (p : Grid) (i j : nat) :
  rect h w p → (i < w)%nat → (j < h)%nat →
  occupied (transposedReversed p w) i j ↔ occupied p (h - S j)%nat i.
Proof.
  intros Hp Hi Hj. rewrite !occupied_entry.
  by rewrite (entry_transposedReversed h w p i j Hp Hi Hj).
Qed.

Lemma rect_occupied (h w : nat) (p : Grid) (row col : nat) :
  rect h w p → occupied p row col → (row < h)%nat ∧ (col < w)%nat.
Proof.
  intros [Hlen Hrows] (r & c & Hr & Hc & _).
  pose proof (Forall_lookup_1 _ _ _ _ Hrows Hr) as Hw. simpl in Hw.
  apply lookup_lt_Some in Hr, Hc. lia.
Qed.

Lemma rotateClockwise_keeps_a_cell (p q : TetrominoShape) :
  shaped p → rotateClockwise p = Ok q →
  (∃ row col, occupied p row col) → ∃ row col, occupied q row col.
Proof.
  intros (h & w & Hp) Hq (row & col & Hocc).
  rewrite (rotateClockwise_rect h (S w) p Hp) in Hq. injection Hq as <-.
  destruct (rect_occupied _ _ _ _ _ Hp Hocc) as [Hrow Hcol].
  exists col, (h - row)%nat.
  apply (occupied_transposedReversed (S h) (S w)); [done|lia|lia|].
  by replace (S h - S (h - row))%nat with row by lia.
Qed.

Lemma TETROMINOS_occupied (k : Tetromino.name) :
  ∃ row col, occupied (TETROMINOS k) row col.
Proof.
  destruct k;
    [exists 0%nat, 0%nat | exists 0%nat, 0%nat | exists 0%nat, 1%nat
    | exists 0%nat, 1%nat | exists 0%nat, 0%nat | exists 0%nat, 0%nat
    | exists 0%nat, 2%nat];
    (eexists _, _; split; [reflexivity|split; [reflexivity|done]]).
Qed.

Lemma Effect_Reached (rnd : Tetromino.name) (st st' : State)
    (out : list OutMsg) :
  Reached st → Effect rnd st st' out → Reached st'.
Proof.
  intros HR HE. pose proof (Effect_Inv rnd st st' out (reached_inv _ HR) HE) as HI'.
  destruct HR as [HI Hline Hscore Hrow Hstarted Hocc].
  destruct HE as [-> _|piece x y Hcur _ Hmove Hpos -> _
                 |piece q Hcur _ Hq Hmove -> _
                 |piece placed spawn Hcur _ _ Hmarks Hspawn HL].
  - by split.
  - split; try done. simpl. lia.
  - split; try done.
    + simpl. split; [by eauto|]. intros _. apply Hstarted. by rewrite Hcur.
    + simpl. intros p Hp. injection Hp as <-.
      apply (rotateClockwise_keeps_a_cell piece); [|done|by apply Hocc].
      by apply (inv_piece _ HI).
  - destruct HL as [Hb Hs _ Hp Hposn _ Hgs _ _ _ _ _]. split; [done|..].
    + rewrite Hb. apply completeCount_cleared.
    + destruct Hscore as (k & Hk & Hsk).
      exists (k + Z.of_nat (completeCount placed)). split; lia.
    + rewrite Hposn. destruct spawn; simpl; lia.
    + rewrite Hgs, Hp. split; [by destruct spawn; eauto|].
      intros _. apply Hstarted. by rewrite Hcur.
    + intros p Hp'. rewrite Hp in Hp'. destruct spawn; injection Hp' as <-.
      * apply TETROMINOS_occupied.
      * by apply Hocc.
Qed.

Lemma sameEngine_Reached (st st' : State) :
  sameEngine st st' → Reached st → Reached st'.
Proof.
  intros (Hb & Hp & Hpos & Hs & Ho & Hg) [[Hsized Hstored Hpiece] H2 H3 H4 H5 H6].
  split; [split|..]; rewrite ?Hb, ?Hp, ?Hpos, ?Hs, ?Ho, ?Hg; done.
Qed.

Lemma initialState_Reached : Reached initialState.
Proof.
  split; [apply initialState_Inv|reflexivity|by exists 0|done| |done].
  simpl. split; [done|]. by intros [p Hp].
Qed.

Lemma startGame_Reached (rnd : Tetromino.name) (st st' : State) :
  startGame rnd st = Ok st' → Reached st'.
Proof.
  intros Hst. destruct (startGame_Inv rnd st) as (st1 & Hst1 & HI & Hs & Hb).
  rewrite Hst in Hst1. injection Hst1 as <-.
  unfold startGame in Hst.
  rewrite (firstRowLength_shaped (getRandomPiece rnd) (TETROMINOS_shaped rnd))
    in Hst.
  cbn [mbind result_bind] in Hst. injection Hst as <-.
  split; [done|reflexivity|by exists 0|simpl; lia|simpl; by eauto|].
  simpl. intros p Hp. injection Hp as <-. apply TETROMINOS_occupied.
Qed.

Lemma Effect_frames (rnd : Tetromino.name) (st st' : State)
    (out : list OutMsg) :
  Reached st → Effect rnd st st' out →
  Forall frameOK out ∧ (length out ≤ 1)%nat ∧
  (connected st = false → out = []).
Proof.
  intros HR HE. pose proof (Effect_Reached rnd st st' out HR HE) as HR'.
  destruct HE as [_ ->|piece x y _ _ _ _ _ ->|piece q _ _ _ _ _ ->
                 |piece placed spawn _ _ _ _ _ HL]; try by repeat constructor.
  rewrite (locked_out _ _ _ _ _ _ _ HL). unfold sendIfConnected.
  destruct (connected st); [|by rewrite andb_false_r; repeat constructor].
  destruct (ws_current st); simpl; [|by repeat constructor].
  split; [|split; [lia|done]]. constructor; [|constructor].
  destruct spawn; simpl.
  - rewrite <- (locked_board _ _ _ _ _ _ _ HL).
    split; [apply HR'|]. split; [apply HR'|]. split; [apply HR'|apply HR].
  - apply HR.
Qed.

Lemma step_Reached (e : Event) (st : State) :
  Reached st →
  ∃ st' out, step e st = Ok (st', out) ∧ Reached st' ∧ Forall frameOK out ∧
    (length out ≤ if isDrop e then 1 else 0)%nat ∧
    (connected st = false → out = [] ∧ (isOpen e = false → connected st' = false)).
Proof.
  intros HR. destruct (engineDraw e) as [rnd|] eqn:He.
  - destruct (step_engine e rnd st He (reached_inv _ HR))
      as (st' & out & Hstep & HE).
    exists st', out. split; [done|].
    split; [by apply (Effect_Reached rnd st st' out)|].
    destruct (Effect_frames rnd st st' out HR HE) as (Hf & Hlen & Hconn).
    split; [done|]. split.
    + destruct (isDrop e) eqn:Hdrop; [done|].
      destruct e as [key rnd'|rnd'|rnd'|v|data|r| | |m]; try done.
      simpl in Hstep.
      destruct (handleKeyPress_sideways key rnd' st st' out) as (-> & _);
        [by destruct key|done|done].
    + intros Hc. split; [by apply Hconn|]. intros _.
      destruct (Effect_session rnd st st' out HE) as (_ & _ & -> & _). done.
  - destruct (step_other e st He) as (st' & Hstep & Hcase).
    exists st', []. split; [done|]. split.
    { destruct Hcase as [(rnd & -> & Hst)|[_ Hsame]].
      - by apply (startGame_Reached rnd st).
      - by apply (sameEngine_Reached st). }
    split; [constructor|]. split; [simpl; lia|].
    intros Hc. split; [done|]. intros Hopen.
    destruct e as [key rnd|rnd|rnd|v|data|r| | |m]; try done; simpl in Hstep;
      try (injection Hstep as <-; simpl; try done).
    + destruct (startGame_Inv rnd st) as (st1 & Hst1 & _).
      unfold startGame in *.
      rewrite (firstRowLength_shaped (getRandomPiece rnd) (TETROMINOS_shaped rnd))
        in Hstep.
      cbn in Hstep. by injection Hstep as <-.
    + by destruct data.
    + by destruct m.
Qed.

Lemma run_Reached (es : list Event) (st : State) :
  Reached st →
  ∃ st' out, run es st = Ok (st', out) ∧ Reached st' ∧ Forall frameOK out ∧
    (length out ≤ length (List.filter isDrop es))%nat ∧
    (connected st = false → forallb (λ e, negb (isOpen e)) es = true →
     out = [] ∧ connected st' = false).
Proof.
  revert st. induction es as [|e es IH]; intros st HR; cbn [run].
  - exists st, []. split; [done|]. split; [done|]. split; [constructor|].
    split; [simpl; lia|]. by intros.
  - destruct (step_Reached e st HR)
      as (st1 & out1 & -> & HR1 & Hf1 & Hlen1 & Hconn1).
    cbn [mbind result_bind].
    destruct (IH st1 HR1) as (st2 & out2 & -> & HR2 & Hf2 & Hlen2 & Hconn2).
    cbn [mbind result_bind]. exists st2, (out1 ++ out2).
    split; [done|]. split; [done|]. split; [by apply Forall_app|]. split.
    + rewrite length_app. cbn [List.filter].
      destruct (isDrop e); cbn [length]; lia.
    + intros Hc Hes. cbn [forallb] in Hes.
      apply andb_true_iff in Hes as [He Hes]. apply negb_true_iff in He.
      destruct (Hconn1 Hc) as [-> Hc1].
      destruct (Hconn2 (Hc1 He) Hes) as [-> Hc2]. done.
Qed.

Lemma run_app (es1 es2 : list Event) (st st1 : State) (out1 : list OutMsg) :
  run es1 st = Ok (st1, out1) →
  run (es1 ++ es2) st =
  '(st2, out2) ← run es2 st1; Ok (st2, out1 ++ out2).
Proof.
  revert st out1. induction es1 as [|e es1 IH]; intros st out1 Hrun.
  - injection Hrun as <- <-. simpl.
    destruct (run es2 st) as [[st2 out2]| | |]; done.
  - cbn [run app] in *.
    destruct (step e st) as [[sta outa]| | |]; try done.
    cbn [mbind result_bind] in *.
    destruct (run es1 sta) as [[stb outb]| | |] eqn:Hb; try done.
    cbn [mbind result_bind] in Hrun. injection Hrun as <- <-.
    rewrite (IH sta outb Hb).
    destruct (run es2 stb) as [[st2 out2]| | |]; cbn [mbind result_bind];
      [|done..].
    by rewrite (assoc_L (++)).
Qed.

(** ** Runs from the initial state *)

(** X1. In every run from the initial state every row of the stored board
    has an empty cell, and so has every row of a board sent in a
    [game_state] frame: no line of [BOARD_WIDTH] settled cells is left on a
    board that is stored or sent. *)
Theorem stored_board_has_no_completed_line (es : list Event) :
  ∃ st out, run es initialState = Ok (st, out) ∧
    gap (board st) ∧
    ∀ b s, game_state b s ∈ out → gap b.
Proof.
  assert (Hgap : ∀ g : Grid, sized g → stored g → completeCount g = 0%nat →
            gap g).
  { intros g Hsized Hstored Hnone. apply notFull_gap; [done..|].
    apply fullCount_none. by rewrite <- completeCount_fullCount. }
  destruct (run_Reached es initialState initialState_Reached)
    as (st & out & Hrun & HR & Hframes & _).
  exists st, out. split; [done|]. split.
  - apply Hgap; [apply HR..].
  - intros b s Hin. rewrite Forall_lookup in Hframes.
    apply list_elem_of_lookup in Hin as [i Hi].
    destruct (Hframes i _ Hi) as (Hsized & Hstored & Hb & _). by apply Hgap.
Qed.

(** X2. In every run from the initial state the score is a multiple of 100
    that is not negative, and so is the score carried by every frame. *)
Theorem score_is_a_multiple_of_hundred (es : list Event) :
  ∃ st out, run es initialState = Ok (st, out) ∧
    (∃ k, 0 ≤ k ∧ score st = 100 * k) ∧
    (∀ b s, game_state b s ∈ out → ∃ k, 0 ≤ k ∧ s = 100 * k) ∧
    (∀ s, game_over s ∈ out → ∃ k, 0 ≤ k ∧ s = 100 * k).
Proof.
  destruct (run_Reached es initialState initialState_Reached)
    as (st & out & Hrun & HR & Hframes & _).
  exists st, out. split; [done|]. split; [apply HR|].
  rewrite Forall_lookup in Hframes. split.
  - intros b s Hin. apply list_elem_of_lookup in Hin as [i Hi].
    by destruct (Hframes i _ Hi) as (_ & _ & _ & Hs).
  - intros s Hin. apply list_elem_of_lookup in Hin as [i Hi].
    exact (Hframes i _ Hi).
Qed.

(** X3. In every run from the initial state there is a piece exactly when
    the game has been started, its row offset is not negative, and every
    occupied cell of it lies inside the grid: the tests [y >= 0] of
    placePiece and the bounds test of renderBoard never fail there. *)
Theorem falling_piece_lies_inside_the_grid (es : list Event) :
  ∃ st out, run es initialState = Ok (st, out) ∧
    (gameStarted st = true ↔ is_Some (currentPiece st)) ∧
    0 ≤ Position.y (piecePosition st) ∧
    ∀ piece row col, currentPiece st = Some piece → occupied piece row col →
      0 ≤ Position.y (piecePosition st) + Z.of_nat row < BOARD_HEIGHT ∧
      0 ≤ Position.x (piecePosition st) + Z.of_nat col < BOARD_WIDTH.
Proof.
  destruct (run_Reached es initialState initialState_Reached)
    as (st & out & Hrun & HR & _).
  exists st, out. split; [done|]. split; [apply HR|]. split; [apply HR|].
  intros piece row col Hcur Hocc.
  destruct (inv_piece _ (reached_inv _ HR) piece Hcur) as [_ Hin].
  destruct (Hin row col Hocc) as [HX HY].
  pose proof (reached_row _ HR). lia.
Qed.


(** X5. After the socket has closed nothing is sent until it opens again:
    a run that goes on after [onclose] with events other than [onopen] has
    sent the frames it had sent before the close, and is not connected. *)
Theorem nothing_is_sent_after_close (es1 es2 : list Event) :
  forallb (λ e, negb (isOpen e)) es2 = true →
  ∃ st1 out1 st2,
    run es1 initialState = Ok (st1, out1) ∧
    run (es1 ++ WsClose :: es2) initialState = Ok (st2, out1) ∧
    connected st2 = false.
Proof.
  intros Hes2.
  destruct (run_Reached es1 initialState initialState_Reached)
    as (st1 & out1 & Hrun1 & HR1 & _).
  assert (HRc : Reached (onclose st1)).
  { apply (sameEngine_Reached st1); [by repeat split|done]. }
  destruct (run_Reached es2 (onclose st1) HRc)
    as (st2 & out2 & Hrun2 & _ & _ & _ & Hconn).
  destruct (Hconn eq_refl Hes2) as [-> Hc2].
  exists st1, out1, st2. split; [done|]. split; [|done].
  rewrite (run_app es1 (WsClose :: es2) initialState st1 out1 Hrun1).
  cbn [run step mbind result_bind]. rewrite Hrun2. cbn [mbind result_bind].
  by rewrite !app_nil_r.
Qed.

Lemma nothing_is_sent_after_close_witness :
  ∃ st1 out1 st2,
    run bottomLine initialState = Ok (st1, out1) ∧
    run (bottomLine ++ WsClose :: [Interval Tetromino.T; KeyDown ArrowLeft Tetromino.J])
      initialState = Ok (st2, out1) ∧
    connected st2 = false.
Proof.
  apply (nothing_is_sent_after_close bottomLine
           [Interval Tetromino.T; KeyDown ArrowLeft Tetromino.J]).
  reflexivity.
Defined.

(** X6. In every state of a run from the initial state the down key does
    what a tick does. *)
Theorem down_key_is_a_tick (es : list Event) (rnd : Tetromino.name) :
  ∃ st out, run es initialState = Ok (st, out) ∧
    step (KeyDown ArrowDown rnd) st = step (Interval rnd) st.
Proof.
  destruct (run_Reached es initialState initialState_Reached)
    as (st & out & Hrun & HR & _).
  exists st, out. split; [done|].
  destruct (reached_started _ HR) as [Hs1 Hs2].
  cbn [step]. unfold handleKeyPress, tick, moveDown.
  destruct (currentPiece st) as [piece|] eqn:Hcur.
  - rewrite (Hs2 (mk_is_Some _ _ eq_refl)). cbn [negb orb].
    by destruct (gameOver st).
  - destruct (gameStarted st); [|done].
    by destruct (Hs1 eq_refl) as [p Hp].
Qed.

(** ** Games that are over, and events that are no input *)

Lemma step_game_over (e : Event) (st : State) :
  gameOver st = true → isStart e = false →
  ∃ st', step e st = Ok (st', []) ∧ sameEngine st st'.
Proof.
  intros Hover He.
  destruct e as [key rnd|rnd|rnd|v|data|r| | |m]; try done; cbn [step].
  - unfold handleKeyPress. rewrite Hover. exists st.
    split; [by destruct (currentPiece st)|by repeat split].
  - unfold tick. rewrite Hover, orb_true_r. exists st. by repeat split.
  - eexists. split; [done|]. by repeat split.
  - eexists. split; [done|]. destruct data; by repeat split.
  - eexists. split; [done|]. by repeat split.
  - eexists. split; [done|]. by repeat split.
  - eexists. split; [done|]. by repeat split.
  - eexists. split; [done|]. destruct m; by repeat split.
Qed.

(** X7. Game over is final until a new game is started: in a run without a
    click on start from a state in game over, no event changes the board,
    the piece, its position, the score or the flags of the game, and no
    frame is sent. *)
Theorem game_over_is_final (es : list Event) (st : State) :
  gameOver st = true → forallb (λ e, negb (isStart e)) es = true →
  ∃ st', run es st = Ok (st', []) ∧ sameEngine st st'.
Proof.
  revert st. induction es as [|e es IH]; intros st Hover Hes; cbn [run].
  - exists st. by repeat split.
  - cbn [forallb] in Hes. apply andb_true_iff in Hes as [He Hes].
    apply negb_true_iff in He.
    destruct (step_game_over e st Hover He) as (st1 & -> & Hsame1).
    cbn [mbind result_bind].
    assert (Hover1 : gameOver st1 = true).
    { destruct Hsame1 as (_ & _ & _ & _ & -> & _). done. }
    destruct (IH st1 Hover1 Hes) as (st2 & -> & Hsame2).
    cbn [mbind result_bind]. exists st2. split; [done|].
    destruct Hsame1 as (H1 & H2 & H3 & H4 & H5 & H6).
    destruct Hsame2 as (G1 & G2 & G3 & G4 & G5 & G6).
    repeat split; congruence.
Qed.

Lemma game_over_is_final_witness :
  gameOver afterLostGame = true ∧
  ∃ st', run [KeyDown ArrowLeft Tetromino.I; Interval Tetromino.S;
              KeyDown ArrowDown Tetromino.Z; WsClose] afterLostGame
         = Ok (st', []) ∧
    sameEngine afterLostGame st'.
Proof.
  split; [reflexivity|].
  apply (game_over_is_final
           [KeyDown ArrowLeft Tetromino.I; Interval Tetromino.S;
            KeyDown ArrowDown Tetromino.Z; WsClose] afterLostGame);
    reflexivity.
Defined.

(** X8. The events of the lobby and of the socket (typing a room, creating
    or joining one, open, close, any frame received) send nothing and leave
    the board, the piece, its position, the score and the flags of the game
    as they are: what the opponent reports never reaches the own engine. *)
Theorem lobby_and_socket_leave_the_engine (e : Event) (st : State) :
  engineDraw e = None → isStart e = false →
  ∃ st', step e st = Ok (st', []) ∧ sameEngine st st'.
Proof.
  intros He Hstart. destruct (step_other e st He) as (st' & Hstep & Hcase).
  exists st'. split; [done|].
  destruct Hcase as [(rnd & -> & _)|[_ Hsame]]; done.
Qed.

Lemma lobby_and_socket_leave_the_engine_witness :
  ∃ st', step (WsMessage (player_game_over 700)) beforeLineLock = Ok (st', []) ∧
    sameEngine beforeLineLock st'.
Proof.
  apply (lobby_and_socket_leave_the_engine
           (WsMessage (player_game_over 700)) beforeLineLock); reflexivity.
Defined.

(** ** Keys, start and lock *)

(** X9. A key other than the down key never locks the piece and never
    sends a frame: board, score, flags, lobby and connection stay as they
    are, the piece stays in its row, and either nothing changed at all or
    the piece is now at a place that [canMove] accepts on the board. *)
Theorem sideways_keys_never_lock (key : Key) (rnd : Tetromino.name)
    (st st' : State) (out : list OutMsg) :
  key ≠ ArrowDown → handleKeyPress key rnd st = Ok (st', out) →
  out = [] ∧ board st' = board st ∧ score st' = score st ∧
  gameOver st' = gameOver st ∧ gameStarted st' = gameStarted st ∧
  sameSession st st' ∧
  Position.y (piecePosition st') = Position.y (piecePosition st) ∧
  (st' = st ∨
   ∃ piece, currentPiece st' = Some piece ∧
     canMove (board st') piece (Position.x (piecePosition st'))
       (Position.y (piecePosition st')) = Ok true).
Proof. apply handleKeyPress_sideways. Qed.

Lemma sideways_keys_never_lock_witness :
  ∃ st', handleKeyPress ArrowUp Tetromino.I freshGame = Ok (st', []) ∧
    currentPiece st' = Some [[1; 0]; [1; 1]; [1; 0]] ∧
    board st' = board freshGame ∧
    canMove (board st') [[1; 0]; [1; 1]; [1; 0]] 4 0 = Ok true.
Proof.
  eexists. split; [vm_compute; reflexivity|].
  destruct (sideways_keys_never_lock ArrowUp Tetromino.I freshGame
              (setCurrentPiece (Some [[1; 0]; [1; 1]; [1; 0]]) freshGame) [])
    as (_ & Hb & _ & _ & _ & _ & _ & Hmove); [done|vm_compute; reflexivity|].
  split; [reflexivity|]. split; [exact Hb|]. vm_compute. reflexivity.
Defined.

(** X10. startGame, from any state: the board is empty, the score 0, the
    game started and not over, the piece is the drawn catalogue shape in
    row 0 at the centred column, where [canMove] accepts it on the new
    board (which startGame does not test); lobby and connection are kept. *)
Theorem startGame_resets_the_engine (rnd : Tetromino.name) (st : State) :
  ∃ st', startGame rnd st = Ok st' ∧
    board st' = emptyBoard ∧ score st' = 0 ∧
    gameOver st' = false ∧ gameStarted st' = true ∧
    currentPiece st' = Some (TETROMINOS rnd) ∧
    piecePosition st' =
      Position.mk (BOARD_WIDTH / 2 - Z.of_nat (width (TETROMINOS rnd)) / 2) 0 ∧
    canMove (board st') (TETROMINOS rnd)
      (Position.x (piecePosition st')) (Position.y (piecePosition st'))
      = Ok true ∧
    sameSession st st'.
Proof.
  unfold startGame.
  rewrite (firstRowLength_shaped (getRandomPiece rnd) (TETROMINOS_shaped rnd)).
  cbn [mbind result_bind]. eexists. split; [done|]. simpl.
  do 6 (split; [done|]). split; [|by repeat split].
  by destruct rnd; vm_compute.
Qed.

(** X11. A lock (placePiece with a piece, in a state of the engine) sends
    exactly one frame when the socket is there and connected, and none
    otherwise.  The frame is [game_over] with the score of the render, and
    [gameOver] is set, exactly when [canMove] refuses the drawn piece at
    the centred column of row 0 on the board before the lock; otherwise it
    is [game_state] with the new board and the score of the render, and the
    drawn piece is the new piece at row 0. *)
Theorem lock_sends_frame_that_matches_game_over
    (rnd : Tetromino.name) (st : State) (piece : TetrominoShape) :
  Inv st → currentPiece st = Some piece →
  ∃ spawn st' out,
    canMove (board st) (getRandomPiece rnd)
      (startColumn (Z.of_nat (width (getRandomPiece rnd)))) 0 = Ok spawn ∧
    placePiece rnd st = Ok (st', out) ∧
    out = (if ws_current st && connected st
           then [if spawn then game_state (board st') (score st)
                 else game_over (score st)]
           else []) ∧
    gameOver st' = (if spawn then gameOver st else true) ∧
    currentPiece st' = (if spawn then Some (getRandomPiece rnd) else Some piece) ∧
    (spawn = true → Position.y (piecePosition st') = 0).
Proof.
  intros HI Hcur.
  destruct (placePiece_locked rnd st piece HI Hcur)
    as (placed & spawn & st' & out & _ & _ & _ & Hspawn & Hrun & HL).
  destruct HL as [Hb _ Hover Hp Hpos Hout _ _ _ _ _ _].
  exists spawn, st', out. do 2 (split; [done|]). split.
  - rewrite Hout, Hb. unfold sendIfConnected.
    by destruct (ws_current st && connected st).
  - do 2 (split; [done|]). intros ->. by rewrite Hpos.
Qed.

Lemma lock_sends_frame_that_matches_game_over_witness :
  ∃ spawn st' out,
    canMove (board beforeLineLock) (getRandomPiece Tetromino.J)
      (startColumn (Z.of_nat (width (getRandomPiece Tetromino.J)))) 0
      = Ok spawn ∧
    placePiece Tetromino.J beforeLineLock = Ok (st', out) ∧
    out = (if ws_current beforeLineLock && connected beforeLineLock
           then [if spawn then game_state (board st') (score beforeLineLock)
                 else game_over (score beforeLineLock)]
           else []) ∧
    gameOver st' = (if spawn then gameOver beforeLineLock else true) ∧
    currentPiece st' =
      (if spawn then Some (getRandomPiece Tetromino.J)
       else Some (TETROMINOS Tetromino.O)) ∧
    (spawn = true → Position.y (piecePosition st') = 0).
Proof.
  apply (lock_sends_frame_that_matches_game_over Tetromino.J beforeLineLock
           (TETROMINOS Tetromino.O) beforeLineLock_Inv).
  reflexivity.
Defined.

(** X12. placePiece writes the piece without asking [canMove]: for a piece
    inside the bounds it never fails, every occupied cell in a row >= 0 is
    settled afterwards, and a cell that was settled stays settled, also
    under the piece. *)
Theorem place_keeps_settled_cells
    (board : Grid) (piece : TetrominoShape) (x y : Z) :
  sized board → inBounds piece x y →
  ∃ placed, place board piece (Position.mk x y) = Ok placed ∧
    sized placed ∧
    (∀ Y X, cellAt board Y X = Some Settled → cellAt placed Y X = Some Settled) ∧
    (∀ row col, occupied piece row col → 0 ≤ y + Z.of_nat row →
       cellAt placed (y + Z.of_nat row) (x + Z.of_nat col) = Some Settled) ∧
    (stored board → stored placed).
Proof.
  intros Hsized Hin.
  destruct (place_marks board piece (Position.mk x y) Hsized Hin)
    as (placed & Hplace & Hmarks).
  exists placed. split; [done|]. split; [apply Hmarks|]. split; [|split].
  - intros Y X Hset. destruct Hmarks as [_ Hm].
    destruct (Hm Y X) as [_ [Heq|(_ & _ & Hone)]]; congruence.
  - intros row col Hocc Hpos. destruct Hmarks as [_ Hm].
    apply (Hm (y + Z.of_nat row) (x + Z.of_nat col)); [|done].
    by exists row, col.
  - by apply (marks_stored _ _ _ Hmarks).
Qed.

Lemma place_keeps_settled_cells_witness :
  ∃ placed,
    place oneLineBoard (TETROMINOS Tetromino.O) (Position.mk 4 18) = Ok placed ∧
    sized placed ∧
    (∀ Y X, cellAt oneLineBoard Y X = Some Settled →
            cellAt placed Y X = Some Settled) ∧
    (∀ row col, occupied (TETROMINOS Tetromino.O) row col →
       0 ≤ 18 + Z.of_nat row →
       cellAt placed (18 + Z.of_nat row) (4 + Z.of_nat col) = Some Settled) ∧
    (stored oneLineBoard → stored placed).
Proof.
  apply (place_keeps_settled_cells oneLineBoard (TETROMINOS Tetromino.O) 4 18).
  - solve_sized.
  - apply (canMove_true_inBounds emptyBoard); [solve_sized|].
    vm_compute. reflexivity.
Defined.

(** ** canMove *)

(** X13. [canMove] reads the board only under the occupied cells of the
    piece: two 20x10 boards that agree there give the same answer; and a
    position accepted on some board is accepted on the empty board. *)
Theorem canMove_reads_only_under_the_piece
    (b b' : Grid) (piece : TetrominoShape) (x y : Z) :
  sized b → sized b' →
  (∀ row col, occupied piece row col → 0 ≤ y + Z.of_nat row →
     cellAt b (y + Z.of_nat row) (x + Z.of_nat col)
     = cellAt b' (y + Z.of_nat row) (x + Z.of_nat col)) →
  canMove b piece x y = canMove b' piece x y ∧
  (canMove b piece x y = Ok true → canMove emptyBoard piece x y = Ok true).
Proof.
  intros Hb Hb' Hagree.
  destruct (canMove_free b piece x y Hb) as (r & Hr & Hspec).
  destruct (canMove_free b' piece x y Hb') as (r' & Hr' & Hspec').
  destruct (canMove_free emptyBoard piece x y emptyBoard_sized)
    as (r0 & Hr0 & Hspec0).
  rewrite Hr, Hr', Hr0. split.
  - f_equal. apply eq_true_iff_eq. rewrite Hspec, Hspec'.
    split; intros H row col Hocc; destruct (H row col Hocc) as (HX & HY & Hcell);
      (split; [done|]); (split; [done|]); intros Hpos.
    + rewrite <- (Hagree row col Hocc Hpos). auto.
    + rewrite (Hagree row col Hocc Hpos). auto.
  - intros [= ->]. f_equal. apply Hspec0. intros row col Hocc.
    destruct (proj1 Hspec eq_refl row col Hocc) as (HX & HY & _).
    split; [done|]. split; [done|]. intros Hpos.
    destruct (sized_cellAt emptyBoard (y + Z.of_nat row) (x + Z.of_nat col)
                emptyBoard_sized) as [c Hc]; [lia|lia|].
    rewrite Hc. f_equal.
    destruct (stored_cellAt _ _ _ _ emptyBoard_stored Hc) as [->|Hone]; [done|].
    exfalso. unfold cellAt in Hc.
    destruct (js_get emptyBoard (y + Z.of_nat row)) as [r1|] eqn:Hr1; [|done].
    simpl in Hc. apply js_get_Some in Hr1 as [_ Hr1].
    apply js_get_Some in Hc as [_ Hc].
    apply lookup_replicate in Hr1 as [-> _].
    apply lookup_replicate in Hc as [-> _]. done.
Qed.

Lemma canMove_reads_only_under_the_piece_witness :
  canMove oneLineBoard (TETROMINOS Tetromino.I) 3 0
  = canMove emptyBoard (TETROMINOS Tetromino.I) 3 0 ∧
  (canMove oneLineBoard (TETROMINOS Tetromino.I) 3 0 = Ok true →
   canMove emptyBoard (TETROMINOS Tetromino.I) 3 0 = Ok true).
Proof.
  apply (canMove_reads_only_under_the_piece oneLineBoard emptyBoard
           (TETROMINOS Tetromino.I) 3 0).
  - solve_sized.
  - solve_sized.
  - intros row col (r & c & Hr & Hc & Hne) _.
    destruct row as [|row]; [|done]. injection Hr as <-.
    destruct col as [|[|[|[|col]]]]; try done; reflexivity.
Defined.

(** ** Clearing completed lines, again *)

Lemma settledCells_app (g h : Grid) :
  settledCells (g ++ h) = settledCells g + settledCells h.
Proof.
  unfold settledCells. rewrite concat_app, List.filter_app, length_app. lia.
Qed.

Lemma settledCells_complete (r : list Z) :
  rowComplete r = true → settledCells [r] = Z.of_nat (length r).
Proof.
  unfold settledCells, rowComplete, Settled. simpl. rewrite app_nil_r.
  induction r as [|c r IH]; simpl; [done|].
  destruct (c =? 1); simpl; [|done]. intros Hr. specialize (IH Hr). lia.
Qed.

Lemma settledCells_replicate_emptyRow (n : nat) :
  settledCells (replicate n emptyRow) = 0.
Proof.
  induction n as [|n IH]; [done|].
  change (replicate (S n) emptyRow) with ([emptyRow] ++ replicate n emptyRow).
  rewrite settledCells_app, IH. reflexivity.
Qed.

Lemma settledCells_remaining (g : Grid) :
  Forall (λ r : list Z, length r = Z.to_nat BOARD_WIDTH) g →
  settledCells g
  = settledCells (remaining g) + BOARD_WIDTH * Z.of_nat (completeCount g).
Proof.
  unfold remaining, completeCount.
  induction 1 as [|r g Hr _ IH]; [done|].
  change (r :: g) with ([r] ++ g). rewrite settledCells_app, IH.
  cbn [app List.filter]. destruct (rowComplete r) eqn:Hc; cbn [negb length].
  - rewrite (settledCells_complete r Hc), Hr. zlia.
  - change (r :: List.filter (λ r0, negb (rowComplete r0)) g)
      with ([r] ++ List.filter (λ r0, negb (rowComplete r0)) g).
    rewrite settledCells_app. lia.
Qed.

(** X14. Clearing a 20x10 grid leaves no full line, no line whose cells
    are all [Settled], so clearing the result again clears nothing and
    returns it unchanged; the count returned is between 0 and the height,
    and the number of settled cells goes down by exactly the width for
    every line cleared. *)
Theorem clearing_leaves_nothing_to_clear (g : Grid) :
  sized g →
  ∃ g' k, clearFullRows g = Ok (g', k) ∧
    0 ≤ k ≤ BOARD_HEIGHT ∧
    Forall (λ r, ¬ fullLine r) g' ∧
    clearFullRows g' = Ok (g', 0) ∧
    settledCells g = settledCells g' + BOARD_WIDTH * k.
Proof.
  intros Hg. pose proof (sized_cleared g Hg) as Hg'.
  exists (cleared g), (Z.of_nat (completeCount g)).
  split; [apply clearFullRows_sized_result, Hg|]. split.
  { pose proof (completeCount_le g). destruct Hg as [Hlen _]. zlia. }
  pose proof (completeCount_cleared g) as Hnone. split; [|split].
  - apply fullCount_none. by rewrite <- completeCount_fullCount.
  - rewrite (clearFullRows_sized_result (cleared g) (proj1 Hg')).
    fold (cleared (cleared g)). unfold cleared at 1.
    rewrite Hnone. cbn [replicate app Z.of_nat].
    by rewrite remaining_none_complete.
  - rewrite (settledCells_remaining g (proj2 Hg)). unfold cleared.
    rewrite settledCells_app, settledCells_replicate_emptyRow. lia.
Qed.

Lemma clearing_leaves_nothing_to_clear_witness :
  clearFullRows twoLineBoard = Ok (twoLinesCleared, 2) ∧
  Forall (λ r, ¬ fullLine r) twoLinesCleared ∧
  clearFullRows twoLinesCleared = Ok (twoLinesCleared, 0) ∧
  settledCells twoLineBoard = settledCells twoLinesCleared + BOARD_WIDTH * 2.
Proof.
  destruct (clearing_leaves_nothing_to_clear twoLineBoard)
    as (g' & k & Hrun & _ & Hnone & Hidem & Hcells); [solve_sized|].
  rewrite twoLineBoard_cleared in Hrun. injection Hrun as <- <-.
  split; [exact twoLineBoard_cleared|]. split; [exact Hnone|].
  split; [exact Hidem|exact Hcells].
Defined.

(** X15. The loop of placePiece starts at row [BOARD_HEIGHT - 1] whatever
    the grid: on a grid with fewer rows it throws at once, and on a grid
    with more rows it clears within the first [BOARD_HEIGHT] rows and leaves
    the rows below them where they are, completed or not.  It never runs
    out of iterations. *)
Theorem clearing_looks_at_the_first_rows_only (g : Grid) :
  clearFullRows g ≠ OutOfFuel ∧
  ((length g < Z.to_nat BOARD_HEIGHT)%nat → clearFullRows g = TypeError) ∧
  (∀ top below, g = top ++ below → length top = Z.to_nat BOARD_HEIGHT →
     clearFullRows g
     = Ok (cleared top ++ below, Z.of_nat (completeCount top))).
Proof.
  rewrite clearFullRows_result. split; [|split].
  - by case_decide.
  - intros Hlen. rewrite decide_False by lia. done.
  - intros top below -> Hlen. rewrite decide_True by (rewrite length_app; lia).
    rewrite <- Hlen, take_app_length, drop_app_length. cbn zeta.
    unfold cleared. by rewrite <- (assoc_L (++)).
Qed.

Lemma clearing_looks_at_the_first_rows_only_witness :
  clearFullRows [[1; 1]; [0; 1]] = TypeError ∧
  clearFullRows (oneLineBoard ++ [replicate 10 1])
  = Ok (cleared oneLineBoard ++ [replicate 10 1], 1).
Proof.
  destruct (clearing_looks_at_the_first_rows_only [[1; 1]; [0; 1]])
    as (_ & Hshort & _).
  destruct (clearing_looks_at_the_first_rows_only
              (oneLineBoard ++ [replicate 10 1])) as (_ & _ & Hlong).
  split; [apply Hshort; vm_compute; lia|].
  exact (Hlong oneLineBoard [replicate 10 1] eq_refl eq_refl).
Defined.

(** ** The rotation, again *)

(** X16. The rotation of a grid of h+1 rows of w cells returns a grid of w
    rows of h+1 cells, and the occupied cells of the result are the
    occupied cells of the grid, turned: cell (row, col) goes to
    (col, h - row). *)
Theorem rotation_turns_the_occupied_cells (h w : nat) (p : TetrominoShape) :
  rect (S h) w p →
  ∃ q, rotateClockwise p = Ok q ∧ rect w (S h) q ∧
    (∀ row col, occupied p row col → occupied q col (h - row)%nat) ∧
    (∀ i j, occupied q i j → (j ≤ h)%nat ∧ occupied p (h - j)%nat i).
Proof.
  intros Hp. exists (transposedReversed p w).
  split; [by apply (rotateClockwise_rect h)|].
  pose proof (rect_transposedReversed _ _ p Hp) as Hq. split; [done|]. split.
  - intros row col Hocc.
    destruct (rect_occupied _ _ _ _ _ Hp Hocc) as [Hrow Hcol].
    apply (occupied_transposedReversed (S h) w); [done|lia|lia|].
    by replace (S h - S (h - row))%nat with row by lia.
  - intros i j Hocc.
    destruct (rect_occupied _ _ _ _ _ Hq Hocc) as [Hi Hj].
    split; [lia|].
    by apply (occupied_transposedReversed (S h) w p i j Hp Hi Hj).
Qed.

Lemma rotation_turns_the_occupied_cells_witness :
  ∃ q, rotateClockwise (TETROMINOS Tetromino.L) = Ok q ∧ rect 3 2 q ∧
    (∀ row col, occupied (TETROMINOS Tetromino.L) row col →
                occupied q col (1 - row)%nat) ∧
    (∀ i j, occupied q i j →
            (j ≤ 1)%nat ∧ occupied (TETROMINOS Tetromino.L) (1 - j)%nat i).
Proof.
  apply (rotation_turns_the_occupied_cells 1 3 (TETROMINOS Tetromino.L)).
  split; [reflexivity|repeat constructor].
Defined.

Lemma column_outcome (p : TetrominoShape) (i : nat) :
  column p i = NotNumberGrid ∨ ∃ col, column p i = Ok col.
Proof.
  unfold column. induction p as [|row p IH]; simpl; [right; by eexists|].
  destruct (row !! i); simpl; [|by left].
  destruct IH as [->|[col ->]]; simpl; [by left|right; by eexists].
Qed.

Lemma column_short_row (p : TetrominoShape) (r : list Z) (i : nat) :
  r ∈ p → (length r ≤ i)%nat → column p i = NotNumberGrid.
Proof.
  intros Hr Hi. destruct (column_outcome p i) as [?|[col Hcol]]; [done|].
  exfalso. apply mapM_Ok_inv in Hcol.
  apply list_elem_of_lookup in Hr as [k Hk].
  destruct (Forall2_lookup_l _ _ _ _ _ Hcol Hk) as (c & _ & Hc).
  simpl in Hc. rewrite (lookup_ge_None_2 r i Hi) in Hc. done.
Qed.

(** X17. The edge cases of the rotation: without a first row it throws; a
    shape whose first row is empty turns into the shape without rows; and a
    shape with a row shorter than the first one gets an undefined cell, so
    the result is no grid of numbers. *)
Theorem rotation_of_shapes_that_are_no_rectangles :
  rotateClockwise [] = TypeError ∧
  (∀ rest, rotateClockwise ([] :: rest) = Ok []) ∧
  (∀ first rest r, r ∈ rest → (length r < length first)%nat →
     rotateClockwise (first :: rest) = NotNumberGrid).
Proof.
  split; [done|]. split; [done|]. intros first rest r Hr Hlen.
  unfold rotateClockwise. cbn [lookup list_lookup].
  set (f := λ i, col ← column (first :: rest) i; Ok (reverse col)).
  assert (Hout : ∀ l, mapM f l = NotNumberGrid ∨ ∃ q, mapM f l = Ok q).
  { induction l as [|i l IH]; [right; by eexists|].
    change (mapM f (i :: l))
      with (f i ≫= λ y, mapM f l ≫= λ k, mret (y :: k)).
    unfold f in *. cbv beta.
    destruct (column_outcome (first :: rest) i) as [->|[col ->]];
      cbn [mbind result_bind]; [by left|].
    destruct IH as [->|[q ->]]; cbn [mbind result_bind];
      [by left|right; by eexists]. }
  destruct (Hout (seq 0 (length first))) as [?|[q Hq]]; [done|].
  exfalso. apply mapM_Ok_inv in Hq.
  assert (Hi : seq 0 (length first) !! length r = Some (length r)).
  { by apply lookup_seq_lt. }
  destruct (Forall2_lookup_l _ _ _ _ _ Hq Hi) as (row & _ & Hrow).
  unfold f in Hrow. cbv beta in Hrow.
  rewrite (column_short_row (first :: rest) r (length r)) in Hrow; [done| |done].
  by apply list_elem_of_further.
Qed.

Lemma rotation_of_shapes_that_are_no_rectangles_witness :
  rotateClockwise [[1; 1; 1]; [1]] = NotNumberGrid.
Proof.
  destruct rotation_of_shapes_that_are_no_rectangles as (_ & _ & Hragged).
  apply (Hragged [1; 1; 1] [[1]] [1]); [apply list_elem_of_here|simpl; lia].
Defined.

(** ** How long a piece falls *)

Lemma ticks_fall (rnd : Tetromino.name) (m : nat) (st : State)
    (piece : TetrominoShape) :
  Reached st → currentPiece st = Some piece →
  gameStarted st = true → gameOver st = false →
  BOARD_HEIGHT - 1 - Position.y (piecePosition st) ≤ Z.of_nat m →
  ∃ n stn, (n ≤ m)%nat ∧
    run (ticks n rnd) st = Ok (stn, []) ∧
    stn = setPiecePosition
            (Position.mk (Position.x (piecePosition st))
               (Position.y (piecePosition st) + Z.of_nat n)) st ∧
    canMove (board st) piece (Position.x (piecePosition st))
      (Position.y (piecePosition st) + Z.of_nat n + 1) = Ok false.
Proof.
  revert st. induction m as [|m IH]; intros st HR Hcur Hstarted Hover Hm.
  - exists 0%nat, st. split; [done|]. split; [done|]. split.
    { rewrite Z.add_0_r. by destruct st as [? ? []]. }
    destruct (canMove_free (board st) piece (Position.x (piecePosition st))
                (Position.y (piecePosition st) + Z.of_nat 0 + 1)
                (inv_sized _ (reached_inv _ HR))) as (b & Hb & Hspec).
    rewrite Hb. f_equal. destruct b; [|done]. exfalso.
    destruct (reached_occupied _ HR piece Hcur) as (row & col & Hocc).
    destruct (proj1 Hspec eq_refl row col Hocc) as (_ & HY & _). zlia.
  - destruct (canMove_free (board st) piece (Position.x (piecePosition st))
                (Position.y (piecePosition st) + 1)
                (inv_sized _ (reached_inv _ HR))) as (b & Hb & Hspec).
    destruct b.
    + set (st1 := setPiecePosition
                    (Position.mk (Position.x (piecePosition st))
                       (Position.y (piecePosition st) + 1)) st).
      assert (Hstep : step (Interval rnd) st = Ok (st1, [])).
      { cbn [step]. unfold tick, moveDown.
        rewrite Hstarted, Hover, Hcur. cbn [negb orb]. by rewrite Hb. }
      assert (HR1 : Reached st1).
      { apply (Effect_Reached rnd st st1 []); [done|].
        eapply effect_move; [done..| |done|done]. right. done. }
      destruct (IH st1 HR1 Hcur Hstarted Hover) as (n & stn & Hn & Hrun & Hstn & Hlast).
      { simpl. lia. }
      exists (S n), stn. split; [lia|]. split.
      { cbn [ticks replicate run]. rewrite Hstep. cbn [mbind result_bind].
        fold (ticks n rnd). rewrite Hrun. done. }
      simpl in Hstn, Hlast. split.
      * rewrite Hstn. unfold st1, setPiecePosition. simpl. do 2 f_equal. lia.
      * rewrite <- Hlast. f_equal. lia.
    + exists 0%nat, st. split; [lia|]. split; [done|]. split.
      { rewrite Z.add_0_r. by destruct st as [? ? []]. }
      by rewrite Z.add_0_r.
Qed.

(** X18. Every piece is locked within [BOARD_HEIGHT] ticks: in a state of a
    run from the initial state with a game running, fewer than
    [BOARD_HEIGHT] ticks take the piece straight down, without a frame and
    without touching the board, to a row where [canMove] refuses the next
    row, and there the next tick is the lock. *)
Theorem piece_locks_within_the_height (es : list Event) (rnd : Tetromino.name) :
  ∃ st out, run es initialState = Ok (st, out) ∧
    (gameStarted st = true → gameOver st = false →
     ∃ n stn piece, (n < Z.to_nat BOARD_HEIGHT)%nat ∧
       run (ticks n rnd) st = Ok (stn, []) ∧
       currentPiece stn = Some piece ∧ board stn = board st ∧
       piecePosition stn =
         Position.mk (Position.x (piecePosition st))
           (Position.y (piecePosition st) + Z.of_nat n) ∧
       canMove (board stn) piece (Position.x (piecePosition stn))
         (Position.y (piecePosition stn) + 1) = Ok false ∧
       step (Interval rnd) stn = placePiece rnd stn).
Proof.
  destruct (run_Reached es initialState initialState_Reached)
    as (st & out & Hrun & HR & _).
  exists st, out. split; [done|]. intros Hstarted Hover.
  destruct (proj1 (reached_started _ HR) Hstarted) as [piece Hcur].
  pose proof (reached_row _ HR) as Hrow.
  destruct (ticks_fall rnd (Z.to_nat (BOARD_HEIGHT - 1)) st piece HR Hcur
              Hstarted Hover) as (n & stn & Hn & Hticks & -> & Hlast);
    [zlia|].
  eexists n, _, piece. split; [zlia|]. split; [done|]. simpl.
  do 3 (split; [done|]). split; [done|].
  unfold tick, moveDown. simpl. rewrite Hstarted, Hover, Hcur. cbn [negb orb].
  rewrite Hlast. cbn [mbind result_bind]. done.
Qed.

Lemma piece_locks_within_the_height_witness :
  ∃ n stn piece, (n < Z.to_nat BOARD_HEIGHT)%nat ∧
    run (ticks n Tetromino.S) freshGame = Ok (stn, []) ∧
    currentPiece stn = Some piece ∧ board stn = board freshGame ∧
    piecePosition stn =
      Position.mk (Position.x (piecePosition freshGame))
        (Position.y (piecePosition freshGame) + Z.of_nat n) ∧
    canMove (board stn) piece (Position.x (piecePosition stn))
      (Position.y (piecePosition stn) + 1) = Ok false ∧
    step (Interval Tetromino.S) stn = placePiece Tetromino.S stn.
Proof.
  destruct (piece_locks_within_the_height [ClickStart Tetromino.T] Tetromino.S)
    as (st & out & Hrun & Hlock).
  assert (Hst : st = freshGame).
  { assert (Hfresh : run [ClickStart Tetromino.T] initialState
                     = Ok (freshGame, [])) by reflexivity.
    congruence. }
  subst st. apply Hlock; reflexivity.
Defined.

(** ** renderBoard, again *)

(** X19. What renderBoard paints for the own board in a state of a run from
    the initial state: a 20x10 grid in which every cell under an occupied
    cell of the falling piece is 2, whatever the board holds there, and
    every other cell is the cell of the stored board, 0 or 1. *)
Theorem renderBoard_paints_piece_over_board (es : list Event) :
  ∃ st out, run es initialState = Ok (st, out) ∧
    ∃ own, renderBoard st (board st) false = Ok own ∧ sized own ∧
      ∀ Y X, 0 ≤ Y < BOARD_HEIGHT → 0 ≤ X < BOARD_WIDTH →
        ((∃ piece, currentPiece st = Some piece ∧
            covered piece (Position.x (piecePosition st))
              (Position.y (piecePosition st)) Y X) →
         cellAt own Y X = Some Active) ∧
        ((∀ piece, currentPiece st = Some piece →
            ¬ covered piece (Position.x (piecePosition st))
                (Position.y (piecePosition st)) Y X) →
         cellAt own Y X = cellAt (board st) Y X ∧
         (cellAt own Y X = Some Empty ∨ cellAt own Y X = Some Settled)).
Proof.
  destruct (run_Inv es initialState initialState_Inv)
    as (st & out & Hrun & HI & _).
  exists st, out. split; [done|].
  pose proof (inv_sized _ HI) as Hsized.
  assert (Hstored : ∀ Y X, 0 ≤ Y < BOARD_HEIGHT → 0 ≤ X < BOARD_WIDTH →
            cellAt (board st) Y X = Some Empty ∨
            cellAt (board st) Y X = Some Settled).
  { intros Y X HY HX. destruct (sized_cellAt (board st) Y X Hsized HY HX) as [c Hc].
    rewrite Hc.
    destruct (stored_cellAt _ _ _ _ (inv_stored _ HI) Hc) as [->| ->]; auto. }
  unfold renderBoard. destruct (currentPiece st) as [piece|] eqn:Hcur; cbn [negb].
  - destruct (render_rows_spec (board st) (piecePosition st) piece 0 Hsized)
      as (own & -> & [Hs Hm]).
    exists own. split; [done|]. split; [done|]. intros Y X HY HX.
    destruct (Hm Y X) as [Hset Hother]. split.
    + intros (p & [= <-] & row & col & (r & c & Hr & Hc & Hne) & -> & ->).
      apply Hset; [|lia]. exists row, r, col, c. repeat split; auto; lia.
    + intros Hnot. destruct Hother as [Heq|(HP & _)].
      * rewrite Heq. split; [done|]. by apply Hstored.
      * exfalso. destruct HP as (i & r & j & c & Hi & Hj & Hc & -> & -> & _).
        apply (Hnot piece eq_refl). exists i, j.
        split; [by exists r, c|]. split; [lia|done].
  - exists (board st). split; [done|]. split; [done|]. intros Y X HY HX. split.
    + by intros (p & Hp & _).
    + intros _. split; [done|]. by apply Hstored.
Qed.

(** ** Arrays as objects: the lock *)

Section OwnedBoard.

(** The copy at address [d], made at or after address [n]. *)
Context (n d : nat).

Lemma place_colsS_spec (h : store) (g g' : Grid)
    (pos : Position.t) (row : Z) (cells : list Z) (col : Z) :
  owned n h d g → place_cols g pos row cells col = Ok g' →
  ∃ h', place_colsS h d pos row cells col = Ok h' ∧ owned n h' d g' ∧
        agree n h h'.
Proof.
  revert h g col. induction cells as [|c cells IH]; intros h g col Hd Hg; simpl in *.
  { injection Hg as <-. exists h. split; [done|]. split; [done|apply agree_refl]. }
  destruct (truthy c); [|by apply (IH h g)].
  destruct (Position.y pos + row >=? 0).
  - destruct (setCell g (Position.y pos + row) (Position.x pos + col) 1)
      as [g1| | |] eqn:Hset; try done.
    cbn [mbind result_bind] in Hg.
    destruct (setCellS_spec n d h g g1 _ _ _ Hd Hset) as (h1 & -> & Hd1 & Ha1).
    cbn [mbind result_bind].
    destruct (IH h1 g1 (col + 1) Hd1 Hg) as (h' & Hh' & Hd' & Ha').
    exists h'. split; [done|]. split; [done|]. by eapply agree_trans.
  - cbn [mbind result_bind] in *. by apply (IH h g).
Qed.

Lemma place_rowsS_spec (h : store) (g g' : Grid)
    (pos : Position.t) (rows : TetrominoShape) (row : Z) :
  owned n h d g → place_rows g pos rows row = Ok g' →
  ∃ h', place_rowsS h d pos rows row = Ok h' ∧ owned n h' d g' ∧
        agree n h h'.
Proof.
  revert h g row. induction rows as [|r rows IH]; intros h g row Hd Hg; simpl in *.
  { injection Hg as <-. exists h. split; [done|]. split; [done|apply agree_refl]. }
  destruct (place_cols g pos row r 0) as [g1| | |] eqn:Hcols; try done.
  cbn [mbind result_bind] in Hg.
  destruct (place_colsS_spec h g g1 _ _ _ _ Hd Hcols) as (h1 & -> & Hd1 & Ha1).
  cbn [mbind result_bind].
  destruct (IH h1 g1 (row + 1) Hd1 Hg) as (h' & Hh' & Hd' & Ha').
  exists h'. split; [done|]. split; [done|]. by eapply agree_trans.
Qed.

Lemma clearLoopS_spec (fuel : nat) (h : store) (g g' : Grid)
    (row k k' : Z) :
  (n ≤ d)%nat → owned n h d g → clearLoop fuel g row k = Ok (g', k') →
  ∃ h', clearLoopS fuel h d row k = Ok (h', k') ∧ owned n h' d g' ∧
        agree n h h'.
Proof.
  intros Hnd. revert h g row k.
  induction fuel as [|fuel IH]; intros h g row k Hd Hg; [done|].
  cbn [clearLoop clearLoopS] in *.
  destruct (row >=? 0).
  2:{ injection Hg as <- <-. exists h. split; [done|].
      split; [done|apply agree_refl]. }
  destruct Hd as (rows & Hrows & Hnodup & Hfresh & Hholds).
  rewrite Hrows.
  destruct (js_get g row) as [r|] eqn:Hrow; [|done].
  apply js_get_Some in Hrow as [Hrow0 Hrow].
  destruct (Forall2_lookup_r _ _ _ _ _ Hholds Hrow) as (a & Ha & Hcells).
  simpl in Hcells.
  rewrite (proj2 (js_get_Some rows row a)) by done. rewrite Hcells.
  destruct (rowComplete r).
  2:{ apply (IH h g); [|done]. by exists rows. }
  assert (Hdlt : (d < length h)%nat).
  { unfold rowsAt in Hrows. destruct (h !! d) eqn:Hh; [|done].
    by apply lookup_lt_Some in Hh. }
  assert (Hnum : ∀ b cells, numbersAt h b = Some cells →
            (b < length h)%nat ∧ b ≠ d).
  { intros b cells Hb. unfold numbersAt, rowsAt in *.
    destruct (h !! b) as [[?|?]|] eqn:Hh; try done.
    split; [by apply lookup_lt_Some in Hh|]. intros ->.
    rewrite Hh in Hrows. done. }
  cbn [alloc]. rewrite length_insert.
  set (rows1 := delete (Z.to_nat row) rows).
  set (h1 := <[d := Rows rows1]> h).
  assert (Hrows2 : rowsAt (h1 ++ [Numbers emptyRow]) d = Some rows1).
  { unfold rowsAt. rewrite lookup_app_l by (unfold h1; by rewrite length_insert).
    unfold h1. by rewrite list_lookup_insert_eq. }
  rewrite Hrows2.
  set (h3 := <[d := Rows (length h :: rows1)]> (h1 ++ [Numbers emptyRow])).
  assert (Hkeep : ∀ b cells, numbersAt h b = Some cells →
            numbersAt h3 b = Some cells).
  { intros b cells Hb. destruct (Hnum b cells Hb) as [Hblt Hbd].
    unfold numbersAt, h3, h1 in *.
    rewrite list_lookup_insert_ne by done.
    rewrite lookup_app_l by (by rewrite length_insert).
    by rewrite list_lookup_insert_ne. }
  apply (IH h3) in Hg.
  - destruct Hg as (h' & Hh' & Hd' & Hag). exists h'. split; [done|].
    split; [done|]. intros b Hb. rewrite (Hag b Hb). unfold h3, h1.
    rewrite list_lookup_insert_ne by lia.
    rewrite lookup_app_l by (rewrite length_insert; lia).
    by rewrite list_lookup_insert_ne by lia.
  - exists (length h :: rows1). split; [|split; [|split]].
    + unfold rowsAt, h3. rewrite list_lookup_insert_eq; [done|].
      rewrite length_app. unfold h1. rewrite length_insert. lia.
    + apply NoDup_cons_2.
      * intros Hin. apply list_elem_of_delete_inv in Hin.
        apply list_elem_of_lookup in Hin as [i Hi].
        destruct (Forall2_lookup_l _ _ _ _ _ Hholds Hi) as (cells & _ & Hc).
        destruct (Hnum _ _ Hc). lia.
      * eapply sublist_NoDup; [exact Hnodup|apply sublist_delete].
    + constructor; [lia|]. apply list.Forall_forall. intros b Hb.
      apply list_elem_of_delete_inv in Hb.
      by apply (proj1 (list.Forall_forall _ _) Hfresh).
    + constructor.
      * unfold numbersAt, h3. rewrite list_lookup_insert_ne by lia.
        unfold h1. rewrite <- (length_insert h d (Rows rows1)).
        by rewrite list_lookup_middle.
      * apply Forall2_delete.
        eapply List.Forall2_impl; [|exact Hholds]. intros b cells Hb.
        by apply Hkeep.
Qed.

End OwnedBoard.

(** X20. The lines 79-103 of placePiece with the arrays in a store: they
    compute the board that [place] and [clearFullRows] compute from the
    grid read at [board], put it into arrays made during the call, and
    leave the array of the stored board, its rows and every other array
    that was there as they were. *)
Theorem lock_builds_board_in_new_arrays
    (h : store) (board : nat) (pos : Position.t) (piece : TetrominoShape)
    (g placed g' : Grid) (k : Z) :
  gridAt h board = Some g →
  place g piece pos = Ok placed → clearFullRows placed = Ok (g', k) →
  ∃ h' d, lockBoardS h board pos piece = Ok (h', d, k) ∧
    gridAt h' d = Some g' ∧ extends h h' ∧ (length h ≤ d)%nat.
Proof.
  intros Hg Hplace Hclear.
  destruct (copyGridS_spec h board g Hg) as (h1 & d & Hcopy & He & Hown & Hd).
  unfold lockBoardS. rewrite Hcopy. cbn [mbind result_bind].
  destruct (place_rowsS_spec (length h) d h1 g placed pos piece 0 Hown Hplace)
    as (h2 & -> & Hown2 & Hag2).
  cbn [mbind result_bind].
  destruct (clearLoopS_spec (length h) d clearFuel h2 placed g' _ 0 k Hd Hown2 Hclear)
    as (h3 & -> & Hown3 & Hag3).
  cbn [mbind result_bind]. exists h3, d. split; [done|].
  split; [by apply (owned_gridAt (length h))|]. split; [|done].
  intros a o Ha. pose proof (lookup_lt_Some _ _ _ Ha) as Hlt.
  rewrite (Hag3 a Hlt), (Hag2 a Hlt). by apply He.
Qed.

Lemma lock_builds_board_in_new_arrays_witness :
  ∃ h' d,
    lockBoardS boardStore 20 (piecePosition beforeLineLock)
      (TETROMINOS Tetromino.O) = Ok (h', d, 1) ∧
    gridAt h' d
    = Some (replicate 19 emptyRow ++ [[0; 0; 0; 0; 1; 1; 0; 0; 0; 0]]) ∧
    extends boardStore h' ∧ (length boardStore ≤ d)%nat.
Proof.
  eapply (lock_builds_board_in_new_arrays boardStore 20
            (piecePosition beforeLineLock) (TETROMINOS Tetromino.O)
            (board beforeLineLock)).
  - exact boardStore_grid.
  - vm_compute. reflexivity.
  - vm_compute. reflexivity.
Defined.

(** ** The engine and the session *)

Lemma placePiece_withSession (rnd : Tetromino.name) (s st st' : State)
    (out : list OutMsg) :
  placePiece rnd st = Ok (st', out) →
  ∃ out', placePiece rnd (withSession s st) = Ok (withSession s st', out') ∧
    (ws_current s && connected s = false → out' = []) ∧
    (ws_current s && connected s = ws_current st && connected st → out' = out).
Proof.
  unfold placePiece, sendIfConnected. cbn [withSession currentPiece board
    piecePosition score ws_current connected].
  destruct (currentPiece st) as [piece|].
  2:{ intros [= <- <-]. by exists []. }
  destruct (place (board st) piece (piecePosition st)) as [placed| | |]; try done.
  cbn [mbind result_bind].
  destruct (clearFullRows placed) as [[newBoard k]| | |]; try done.
  cbn [mbind result_bind].
  destruct (firstRowLength (getRandomPiece rnd)) as [len| | |]; try done.
  cbn [mbind result_bind].
  destruct (canMove (board st) (getRandomPiece rnd) (startColumn len) 0)
    as [spawn| | |]; try done.
  cbn [mbind result_bind].
  destruct spawn, (k >? 0); cbn [negb]; intros [= <- <-];
    (eexists; split; [reflexivity|]);
    (split; [by intros ->|by intros ->]).
Qed.

Lemma moveDown_withSession (rnd : Tetromino.name) (s st st' : State)
    (out : list OutMsg) :
  moveDown rnd st = Ok (st', out) →
  ∃ out', moveDown rnd (withSession s st) = Ok (withSession s st', out') ∧
    (ws_current s && connected s = false → out' = []) ∧
    (ws_current s && connected s = ws_current st && connected st → out' = out).
Proof.
  intros Hrun. pose proof (placePiece_withSession rnd s st st' out) as Hplace.
  revert Hrun. unfold moveDown at 1 2.
  cbn [withSession currentPiece board piecePosition gameOver].
  destruct (currentPiece st) as [piece|].
  2:{ intros [= <- <-]. by exists []. }
  destruct (gameOver st).
  { intros [= <- <-]. by exists []. }
  destruct (canMove (board st) piece (Position.x (piecePosition st))
              (Position.y (piecePosition st) + 1)) as [[]| | |]; try done.
  cbn [mbind result_bind]. intros [= <- <-]. by exists [].
Qed.

(** X21. The engine never reads the lobby or the connection, except to
    decide whether a frame is sent: a key, a tick or a click on start does
    to the board, the piece, its position, the score and the flags what it
    does with any other room, player id, opponent board and socket, and
    leaves those as they are.  Without a connection it sends nothing, with
    the same connection it sends the same frames. *)
Theorem engine_ignores_the_session (e : Event) (s st st' : State)
    (out : list OutMsg) :
  is_Some (engineDraw e) ∨ isStart e = true →
  step e st = Ok (st', out) →
  ∃ out', step e (withSession s st) = Ok (withSession s st', out') ∧
    (ws_current s && connected s = false → out' = []) ∧
    (ws_current s && connected s = ws_current st && connected st → out' = out).
Proof.
  intros He Hstep.
  destruct e as [key rnd|rnd|rnd|v|data|r| | |m];
    try (destruct He as [[? [=]]|[=]]; fail); cbn [step] in *.
  - pose proof (moveDown_withSession rnd s st st' out) as Hdown.
    revert Hstep. unfold handleKeyPress.
    cbn [withSession currentPiece board piecePosition gameOver].
    destruct (currentPiece st) as [piece|].
    2:{ intros [= <- <-]. by exists []. }
    destruct (gameOver st) eqn:Hover.
    { intros [= <- <-]. by exists []. }
    destruct key.
    + destruct (canMove (board st) piece (Position.x (piecePosition st) - 1)
                  (Position.y (piecePosition st))) as [[]| | |]; try done;
        cbn [mbind result_bind]; intros [= <- <-]; by exists [].
    + destruct (canMove (board st) piece (Position.x (piecePosition st) + 1)
                  (Position.y (piecePosition st))) as [[]| | |]; try done;
        cbn [mbind result_bind]; intros [= <- <-]; by exists [].
    + done.
    + destruct (rotateClockwise piece) as [rotated| | |]; try done.
      cbn [mbind result_bind].
      destruct (canMove (board st) rotated (Position.x (piecePosition st))
                  (Position.y (piecePosition st))) as [[]| | |]; try done;
        cbn [mbind result_bind]; intros [= <- <-]; by exists [].
    + intros [= <- <-]. by exists [].
  - pose proof (moveDown_withSession rnd s st st' out) as Hdown.
    revert Hstep. unfold tick.
    cbn [withSession gameStarted gameOver].
    destruct (negb (gameStarted st) || gameOver st); [|done].
    intros [= <- <-]. by exists [].
  - revert Hstep. unfold startGame.
    destruct (firstRowLength (getRandomPiece rnd)) as [len| | |]; try done.
    cbn [mbind result_bind]. intros [= <- <-]. by exists [].
Qed.

Lemma engine_ignores_the_session_witness :
  ∃ out', step (Interval Tetromino.J) (withSession initialState beforeLineLock)
          = Ok (withSession initialState
                  (stateAfter (bottomLine ++ [Interval Tetromino.J])), out') ∧
    (ws_current initialState && connected initialState = false → out' = []) ∧
    (ws_current initialState && connected initialState
     = ws_current beforeLineLock && connected beforeLineLock →
     out' = [game_state (board (stateAfter (bottomLine ++ [Interval Tetromino.J]))) 0]).
Proof.
  apply (engine_ignores_the_session (Interval Tetromino.J) initialState
           beforeLineLock).
  - left. by eexists.
  - vm_compute. reflexivity.
Defined.
